(** * Contraction-hierarchy engine ([backend/cpp_native/ch_core.cpp])

    A shallow embedding of [CHGraph] and of its operations, followed by
    the properties of the engine.

    Numbers.  [int] values are [Z]; the one counter that can overflow,
    [r] of [build_ch], makes the call undefined when it would.  Edge
    weights and distances are [double] in the source.  The embedding
    covers the weights that are whole numbers (the host passes them
    scaled by 1000) of magnitude below [2 ^ 1024], and takes them in
    [Z]; a weight that a [double] holds satisfies [is_double], which
    every whole number up to [2 ^ 53] does.  The value [+infinity] is
    added with [ext].  Comparisons of such
    doubles are those of [Z].  An addition of the source is [dadd]: the
    sum is rounded to the nearest number with a significand of 53 bits,
    ties going to the even significand, as binary64 arithmetic does, so
    that it is the sum in [Z] exactly when that is at most [2 ^ 53] in
    magnitude.  Weights that are no whole numbers, not-a-number and
    infinite weights, and sums that leave the range of [double] are
    outside the model.  The distance handed back by [query] is
    [mu / 1000.0], written as the rational [mu / 1000].

    Vectors.  [std::vector] is a [list]; [operator[]] outside the vector
    is undefined behaviour in the source.  The mutators that take an
    index from the host say so in their outcome; the read accessors
    return a default there.  The well-formedness predicate [wf] states
    that every target stored in the graph is in range, and
    [via_in_range] that every via node that [unpack] follows is. *)

From stdpp Require Import base option list numbers sorting.
From Stdlib Require Import ZArith QArith.

Local Open Scope Z_scope.

(** * Model *)

(** ** Data model *)

Record Edge := mkEdge {
  target : Z;
  weight : Z;
  is_shortcut : bool;
  via_node : Z
}.

Record CHGraph := mkCHGraph {
  num_nodes : Z;
  adj_out : list (list Edge);
  adj_in : list (list Edge);
  contracted : list bool;
  rank : list Z;
  node_order : list Z
}.

(** [double] extended with [+infinity]. *)
Inductive ext (A : Type) : Type :=
  | Fin (a : A)
  | Inf.
Arguments Fin {A} a.
Arguments Inf {A}.

(** The error kinds the specification names for the host interface. *)
Inductive error := InvalidIndex | NotReachable.

(** What a call does: it returns, it reports an error, or it runs into
    undefined behaviour (an unchecked [operator[]] outside the vector,
    a signed overflow). *)
Inductive outcome (A : Type) : Type :=
  | Returns (a : A)
  | Raises (e : error)
  | Undefined.
Arguments Returns {A} a.
Arguments Raises {A} e.
Arguments Undefined {A}.

Definition int_max : Z := 2147483647.

(** ** Double arithmetic on whole numbers *)

(** Up to this magnitude every whole number is a [double]. *)
Definition double_exact : Z := 2 ^ 53.

(** The [double] nearest to the magnitude [a]: above [2 ^ 53] the
    doubles around [a] are the multiples of [m], the power of two that
    leaves a significand [q] of 53 bits; half-way between two of them
    the one with the even significand is taken. *)
Definition round_magnitude (a : Z) : Z :=
  if decide (a ≤ double_exact) then a
  else
    let m := 2 ^ (Z.log2 a - 52) in
    let q := a / m in
    let r := a mod m in
    if decide (2 * r < m) then q * m
    else if decide (m < 2 * r) then (q + 1) * m
    else if Z.even q then q * m else (q + 1) * m.

Definition round_double (z : Z) : Z :=
  if decide (0 ≤ z) then round_magnitude z else - round_magnitude (- z).

(** [x + y] on two doubles. *)
Definition dadd (x y : Z) : Z := round_double (x + y).

(** A whole number that a [double] holds. *)
Definition is_double (z : Z) : Prop := round_double z = z.

(** ** Vector accessors *)

Definition vec_at {A} (d : A) (l : list A) (i : Z) : A :=
  if decide (0 ≤ i) then default d (l !! Z.to_nat i) else d.

Definition vec_set {A} (l : list A) (i : Z) (x : A) : list A :=
  if decide (0 ≤ i) then <[Z.to_nat i := x]> l else l.

Definition vec_push {A} (l : list (list A)) (i : Z) (x : A) : list (list A) :=
  if decide (0 ≤ i) then alter (λ row, row ++ [x]) (Z.to_nat i) l else l.

Definition in_vec {A} (l : list A) (i : Z) : Prop := 0 ≤ i < Z.of_nat (length l).

Definition out_edges (g : CHGraph) (u : Z) : list Edge := vec_at [] (adj_out g) u.
Definition in_edges (g : CHGraph) (u : Z) : list Edge := vec_at [] (adj_in g) u.
Definition is_contracted (g : CHGraph) (u : Z) : bool := vec_at false (contracted g) u.
Definition rank_of (g : CHGraph) (u : Z) : Z := vec_at (-1) (rank g) u.

(** ** Construction and mutators *)

(** The constructor, for a node count that is not negative. *)
Definition CHGraph_new (n : Z) : CHGraph :=
  {| num_nodes := n;
     adj_out := replicate (Z.to_nat n) [];
     adj_in := replicate (Z.to_nat n) [];
     contracted := replicate (Z.to_nat n) false;
     rank := replicate (Z.to_nat n) (-1);
     node_order := [] |}.

(** The two [push_back]s shared by [add_edge], [add_ch_edge] and the
    shortcut insertion of [contract_node]. *)
Definition push_edge (g : CHGraph) (u v : Z) (w : Z) (sc : bool) (via : Z) : CHGraph :=
  {| num_nodes := num_nodes g;
     adj_out := vec_push (adj_out g) u (mkEdge v w sc via);
     adj_in := vec_push (adj_in g) v (mkEdge u w sc via);
     contracted := contracted g;
     rank := rank g;
     node_order := node_order g |}.

Definition add_ch_edge (g : CHGraph) (u v : Z) (w : Z) (sc : bool) (via : Z)
  : outcome CHGraph :=
  if decide (in_vec (adj_out g) u ∧ in_vec (adj_in g) v)
  then Returns (push_edge g u v w sc via)
  else Undefined.

Definition add_edge (g : CHGraph) (u v : Z) (w : Z) : outcome CHGraph :=
  add_ch_edge g u v w false (-1).

Definition with_rank (g : CHGraph) (u r : Z) : CHGraph :=
  {| num_nodes := num_nodes g;
     adj_out := adj_out g;
     adj_in := adj_in g;
     contracted := contracted g;
     rank := vec_set (rank g) u r;
     node_order := node_order g |}.

(** [rank] has [num_nodes] entries from the constructor on, so the guarded
    write is always inside the vector. *)
Definition set_rank (g : CHGraph) (u r : Z) : outcome CHGraph :=
  if decide (u >= 0 ∧ u < num_nodes g)
  then Returns (with_rank g u r)
  else Returns g.

(** ** Priority queues

    [std::priority_queue] with [std::greater<>]: [top] is a least element
    of the lexicographic order on the tuples.  The queue is kept as an
    ascending list, so [top]/[pop] take its head. *)

Definition lex2_leb (a b : Z * Z) : bool :=
  bool_decide (a.1 < b.1) || bool_decide (a.1 = b.1) && bool_decide (a.2 ≤ b.2).

Definition lex3_leb (a b : Z * Z * Z) : bool :=
  bool_decide (a.1.1 < b.1.1)
  || bool_decide (a.1.1 = b.1.1) && lex2_leb (a.1.2, a.2) (b.1.2, b.2).

Fixpoint pq_push {A} (leb : A → A → bool) (x : A) (q : list A) : list A :=
  match q with
  | [] => [x]
  | y :: q' => if leb x y then x :: q else y :: pq_push leb x q'
  end.

(** ** Witness search *)

Definition witness_relax (g : CHGraph) (v max_dist exclude_node d h : Z)
    (q : list (Z * Z * Z)) (edge : Edge) : list (Z * Z * Z) :=
  if is_contracted g (target edge) && negb (bool_decide (target edge = v)) then q
  else if decide (target edge = exclude_node) then q
  else
    let new_dist := dadd d (weight edge) in
    if decide (new_dist ≤ max_dist)
    then pq_push lex3_leb (new_dist, target edge, h + 1) q
    else q.

(** The [while (!pq.empty())] loop; [None] when [fuel] iterations did not
    finish it. *)
Fixpoint witness_loop (fuel : nat) (g : CHGraph) (v max_dist exclude_node hop_limit : Z)
    (q : list (Z * Z * Z)) : option bool :=
  match fuel with
  | O => None
  | S fuel' =>
    match q with
    | [] => Some false
    | (d, curr, h) :: q' =>
      if decide (d > max_dist) then Some false
      else if decide (curr = v) then Some true
      else if decide (h >= hop_limit)
           then witness_loop fuel' g v max_dist exclude_node hop_limit q'
           else witness_loop fuel' g v max_dist exclude_node hop_limit
                  (fold_left (witness_relax g v max_dist exclude_node d h)
                             (out_edges g curr) q')
    end
  end.

(** The longest row of an adjacency vector. *)
Definition max_row (adj : list (list Edge)) : nat :=
  foldr (λ row m, Nat.max (length row) m) O adj.

(** A bound on the out-degree of every node. *)
Definition max_degree (g : CHGraph) : nat := max_row (adj_out g).

(** Number of queue entries a single entry with [k] hops left can give
    rise to, itself included. *)
Fixpoint hop_budget (deg k : nat) : nat :=
  match k with
  | O => 1
  | S k' => S (deg * hop_budget deg k')
  end.

Definition witness_fuel (g : CHGraph) (hop_limit : Z) : nat :=
  S (hop_budget (max_degree g) (Z.to_nat hop_limit)).

(** The hop counter bounds the loop: [witness_fuel] iterations always
    finish it (Lemma [witness_search_loop]), so the [None] case below is
    never taken. *)
Definition witness_search (g : CHGraph) (u v max_dist exclude_node hop_limit : Z) : bool :=
  if existsb (λ edge, bool_decide (target edge = v) && bool_decide (weight edge ≤ max_dist))
             (out_edges g u)
  then true
  else
    match witness_loop (witness_fuel g hop_limit) g v max_dist exclude_node hop_limit
                       [(0, u, 0)] with
    | Some b => b
    | None => false
    end.

(** ** Contraction *)

Definition mark_contracted (g : CHGraph) (node : Z) : CHGraph :=
  {| num_nodes := num_nodes g;
     adj_out := adj_out g;
     adj_in := adj_in g;
     contracted := vec_set (contracted g) node true;
     rank := rank g;
     node_order := node_order g |}.

Definition max_shortcuts : Z := 100.

(** How a loop body leaves: it goes on with the next element, or the
    function returns. *)
Inductive flow (A : Type) : Type :=
  | Next (a : A)
  | Ret (a : A).
Arguments Next {A} a.
Arguments Ret {A} a.

(** The inner loop over [out_neighbors], for one [in_edge] with other end
    [u] and weight [d_uv]. *)
Fixpoint contract_inner (node hop_limit u d_uv : Z) (out_neighbors : list Edge)
    (g : CHGraph) (shortcuts_added : Z) : flow (CHGraph * Z) :=
  match out_neighbors with
  | [] => Next (g, shortcuts_added)
  | out_edge :: rest =>
    let w := target out_edge in
    if decide (u = w) then contract_inner node hop_limit u d_uv rest g shortcuts_added
    else if decide (shortcuts_added >= max_shortcuts) then Ret (g, shortcuts_added)
    else
      let total := dadd d_uv (weight out_edge) in
      if witness_search g u w total node hop_limit
      then contract_inner node hop_limit u d_uv rest g shortcuts_added
      else contract_inner node hop_limit u d_uv rest
             (push_edge g u w total true node) (shortcuts_added + 1)
  end.

Fixpoint contract_outer (node hop_limit : Z) (in_neighbors out_neighbors : list Edge)
    (g : CHGraph) (shortcuts_added : Z) : CHGraph * Z :=
  match in_neighbors with
  | [] => (g, shortcuts_added)
  | in_edge :: rest =>
    match contract_inner node hop_limit (target in_edge) (weight in_edge)
                         out_neighbors g shortcuts_added with
    | Next (g', added') => contract_outer node hop_limit rest out_neighbors g' added'
    | Ret r => r
    end
  end.

Definition uncontracted_edges (g : CHGraph) (row : list Edge) : list Edge :=
  List.filter (λ e, negb (is_contracted g (target e))) row.

Definition contract_node (g : CHGraph) (node : Z) : CHGraph * Z :=
  let g1 := mark_contracted g node in
  let in_neighbors := uncontracted_edges g1 (in_edges g1 node) in
  let out_neighbors := uncontracted_edges g1 (out_edges g1 node) in
  let complexity := Z.of_nat (length in_neighbors) * Z.of_nat (length out_neighbors) in
  let skip_witness := bool_decide (complexity > 500) in
  contract_outer node (if skip_witness then 1 else 3) in_neighbors out_neighbors g1 0.

(** ** Building the hierarchy *)

Definition with_order (g : CHGraph) (order : list Z) : CHGraph :=
  {| num_nodes := num_nodes g;
     adj_out := adj_out g;
     adj_in := adj_in g;
     contracted := contracted g;
     rank := rank g;
     node_order := order |}.

(** The [for (int node : node_order)] loop with its counter [r]. *)
Fixpoint build_loop (g : CHGraph) (r : Z) (nodes : list Z) : outcome CHGraph :=
  match nodes with
  | [] => Returns g
  | node :: rest =>
    if decide (in_vec (rank g) node ∧ in_vec (contracted g) node ∧ r < int_max)
    then build_loop (contract_node (with_rank g node r) node).1 (r + 1) rest
    else Undefined
  end.

Definition build_ch (g : CHGraph) (order : list Z) : outcome CHGraph :=
  build_loop (with_order g order) 0 order.

(** ** Unpacking *)

Definition is_packed (v : Z) (e : Edge) : bool :=
  bool_decide (target e = v) && is_shortcut e && negb (bool_decide (via_node e = -1)).

(** [None] when the recursion is deeper than [fuel].  The row
    [adj_out[u]] is read with no range test: for [u] outside the vector
    the source has undefined behaviour, where [out_edges] gives an empty
    row.  The calls that [query] makes pass nodes of the graph and via
    nodes; the statements about returned paths assume [via_in_range]
    (stated below), or graphs made by [build_ch] from base edges, whose
    via nodes are contracted nodes. *)
Fixpoint unpack (fuel : nat) (g : CHGraph) (u v : Z) (path : list Z) : option (list Z) :=
  match fuel with
  | O => None
  | S fuel' =>
    match List.find (is_packed v) (out_edges g u) with
    | Some e =>
      match unpack fuel' g u (via_node e) path with
      | Some path' => unpack fuel' g (via_node e) v path'
      | None => None
      end
    | None => Some (path ++ [v])
    end
  end.

(** ** Query *)

(** One direction of the bidirectional search: [fwd_pq], [fwd_dist],
    [fwd_parent] of the source are the fields of the forward [side],
    [bwd_pq], [bwd_dist], [bwd_parent] those of the backward one. *)
Record side := mkSide {
  pq : list (Z * Z);
  dist : list (ext Z);
  parent : list Z
}.

Definition dist_at (ds : list (ext Z)) (u : Z) : ext Z := vec_at Inf ds u.
Definition parent_at (ps : list Z) (u : Z) : Z := vec_at (-1) ps u.

Definition lt_ext (x : Z) (y : ext Z) : bool :=
  match y with Fin b => bool_decide (x < b) | Inf => true end.

Definition le_ext (x : Z) (y : ext Z) : bool :=
  match y with Fin b => bool_decide (x ≤ b) | Inf => true end.

Definition search_state : Type := side * ext Z * Z.

(** The side after [pq.pop()]. *)
Definition popped (this : side) : side :=
  {| pq := tail (pq this); dist := dist this; parent := parent this |}.

(** The side after [dist[x] = new_dist; parent[x] = u; pq.push({new_dist, x})]. *)
Definition improved (this : side) (u new_dist x : Z) : side :=
  {| pq := pq_push lex2_leb (new_dist, x) (pq this);
     dist := vec_set (dist this) x (Fin new_dist);
     parent := vec_set (parent this) x u |}.

(** The body of [for (const auto& e : adj[u])]. *)
Definition relax (g : CHGraph) (u d : Z) (other : list (ext Z))
    (st : search_state) (e : Edge) : search_state :=
  let '(this, mu, meet_node) := st in
  if decide (rank_of g (target e) > rank_of g u) then
    let new_dist := dadd d (weight e) in
    if lt_ext new_dist (dist_at (dist this) (target e)) then
      let this' := improved this u new_dist (target e) in
      match dist_at other (target e) with
      | Fin o =>
        let total := dadd new_dist o in
        if lt_ext total mu then (this', Fin total, target e) else (this', mu, meet_node)
      | Inf => (this', mu, meet_node)
      end
    else st
  else st.

(** [if (!pq.empty()) { pop; if (d <= mu) relax all edges }]; [adj] is
    [adj_out] for the forward search and [adj_in] for the backward one,
    [this] the side that steps and [other] the distances of the opposite
    side. *)
Definition half_step (g : CHGraph) (adj : Z → list Edge) (this : side)
    (other : list (ext Z)) (mu : ext Z) (meet_node : Z) : search_state :=
  match pq this with
  | [] => (this, mu, meet_node)
  | (d, u) :: rest =>
    let this0 := {| pq := rest; dist := dist this; parent := parent this |} in
    if le_ext d mu
    then fold_left (relax g u d other) (adj u) (this0, mu, meet_node)
    else (this0, mu, meet_node)
  end.

Fixpoint search_loop (fuel : nat) (g : CHGraph) (fwd bwd : side) (mu : ext Z)
    (meet_node : Z) : option (side * side * ext Z * Z) :=
  match fuel with
  | O => None
  | S fuel' =>
    match pq fwd, pq bwd with
    | [], [] => Some (fwd, bwd, mu, meet_node)
    | _, _ =>
      let '(fwd', mu1, meet1) := half_step g (out_edges g) fwd (dist bwd) mu meet_node in
      let '(bwd', mu2, meet2) := half_step g (in_edges g) bwd (dist fwd') mu1 meet1 in
      search_loop fuel' g fwd' bwd' mu2 meet2
    end
  end.

Definition init_side (n : Z) (start : Z) : side :=
  {| pq := [(0, start)];
     dist := vec_set (replicate (Z.to_nat n) Inf) start (Fin 0);
     parent := replicate (Z.to_nat n) (-1) |}.

(** [while (curr != origin) { p = fwd_parent[curr]; up_path.push_back(curr); curr = p; }] *)
Fixpoint trace_up (fuel : nat) (fwd_parent : list Z) (origin curr : Z)
    (up_path : list Z) : option (list Z) :=
  match fuel with
  | O => None
  | S fuel' =>
    if decide (curr = origin) then Some up_path
    else trace_up fuel' fwd_parent origin (parent_at fwd_parent curr) (up_path ++ [curr])
  end.

(** The loop over [up_path] from its last element down to its first;
    [nodes] is [up_path] reversed. *)
Fixpoint unpack_upward (ufuel : nat) (g : CHGraph) (curr : Z) (nodes : list Z)
    (path : list Z) : option (list Z) :=
  match nodes with
  | [] => Some path
  | next_node :: rest =>
    match unpack ufuel g curr next_node path with
    | Some path' => unpack_upward ufuel g next_node rest path'
    | None => None
    end
  end.

(** [while (curr != dest) { next = bwd_parent[curr]; unpack(curr, next, path); curr = next; }] *)
Fixpoint trace_down (fuel ufuel : nat) (g : CHGraph) (bwd_parent : list Z)
    (dest curr : Z) (path : list Z) : option (list Z) :=
  match fuel with
  | O => None
  | S fuel' =>
    if decide (curr = dest) then Some path
    else
      let next_node := parent_at bwd_parent curr in
      match unpack ufuel g curr next_node path with
      | Some path' => trace_down fuel' ufuel g bwd_parent dest next_node path'
      | None => None
      end
  end.

(** [mu / 1000.0]. *)
Definition scale_down (mu : ext Z) : ext Q :=
  match mu with
  | Fin m => Fin (m # 1000)%Q
  | Inf => Inf
  end.

(** The search part of [query]: everything up to the test of [meet_node]. *)
Definition query_search (fuel : nat) (g : CHGraph) (origin dest : Z)
  : option (side * side * ext Z * Z) :=
  search_loop fuel g (init_side (num_nodes g) origin) (init_side (num_nodes g) dest) Inf (-1).

(** The reconstruction part of [query], from a recorded [meet_node]. *)
Definition query_path (fuel : nat) (g : CHGraph) (origin dest : Z)
    (fwd bwd : side) (meet_node : Z) : option (list Z) :=
  up_path ← trace_up fuel (parent fwd) origin meet_node [];
  path ← unpack_upward fuel g origin (rev up_path) [origin];
  trace_down fuel fuel g (parent bwd) dest meet_node path.

(** [query]; [None] when one of its loops needs more than [fuel] steps. *)
Definition query (fuel : nat) (g : CHGraph) (origin dest : Z) : option (list Z * ext Q) :=
  if decide (origin < 0 ∨ origin >= num_nodes g ∨ dest < 0 ∨ dest >= num_nodes g)
  then Some ([], Fin 0%Q)
  else
    '(fwd, bwd, mu, meet_node) ← query_search fuel g origin dest;
    if decide (meet_node = -1) then Some ([], Fin 0%Q)
    else
      path ← query_path fuel g origin dest fwd bwd meet_node;
      Some (path, scale_down mu).

(** ** Graphs made by the host *)

Fixpoint add_edges (g : CHGraph) (es : list (Z * Z * Z)) : outcome CHGraph :=
  match es with
  | [] => Returns g
  | (u, v, w) :: rest =>
    match add_edge g u v w with
    | Returns g' => add_edges g' rest
    | Raises e => Raises e
    | Undefined => Undefined
    end
  end.

(** A graph made the way the host makes it: construction, base edges,
    then [build_ch]. *)
Definition make (n : Z) (es : list (Z * Z * Z)) (order : list Z) : outcome CHGraph :=
  match add_edges (CHGraph_new n) es with
  | Returns g => build_ch g order
  | Raises e => Raises e
  | Undefined => Undefined
  end.

Definition query_on (fuel : nat) (og : outcome CHGraph) (s t : Z)
  : option (list Z * ext Q) :=
  match og with
  | Returns g => query fuel g s t
  | _ => None
  end.

(** ** Well-formed graphs *)

Definition node_of (g : CHGraph) (u : Z) : Prop := 0 ≤ u < num_nodes g.

Record wf (g : CHGraph) : Prop := mk_wf {
  wf_nodes : 0 ≤ num_nodes g ≤ int_max;
  wf_out_len : Z.of_nat (length (adj_out g)) = num_nodes g;
  wf_in_len : Z.of_nat (length (adj_in g)) = num_nodes g;
  wf_contracted_len : Z.of_nat (length (contracted g)) = num_nodes g;
  wf_rank_len : Z.of_nat (length (rank g)) = num_nodes g;
  wf_out_target : ∀ u e, e ∈ out_edges g u → node_of g (target e);
  wf_in_target : ∀ u e, e ∈ in_edges g u → node_of g (target e)
}.

(** ** Graphs the host can make *)

Inductive reachable : CHGraph → Prop :=
  | reachable_new n :
      0 ≤ n ≤ int_max → reachable (CHGraph_new n)
  | reachable_add_edge g u v w g' :
      reachable g → add_edge g u v w = Returns g' → reachable g'
  | reachable_add_ch_edge g u v w sc via g' :
      reachable g → add_ch_edge g u v w sc via = Returns g' → reachable g'
  | reachable_set_rank g u r g' :
      reachable g → set_rank g u r = Returns g' → reachable g'
  | reachable_build_ch g order g' :
      reachable g → build_ch g order = Returns g' → reachable g'.

(** ** Symmetry of the two adjacency vectors *)

Global Instance Edge_eq_dec : EqDecision Edge.
Proof. solve_decision. Defined.

Definition occurrences (e : Edge) (row : list Edge) : nat := count_occ Edge_eq_dec row e.

(** Every entry of [adj_out] has its counterpart in [adj_in], as many
    times as it occurs. *)
Definition mirrored (g : CHGraph) : Prop :=
  ∀ u v w sc via,
    occurrences (mkEdge v w sc via) (out_edges g u)
    = occurrences (mkEdge u w sc via) (in_edges g v).


(** Number of entries of an adjacency vector. *)
Definition edge_total (adj : list (list Edge)) : nat := sum_list (length <$> adj).

(** ** Levels of the hierarchy *)

(** Position of the first occurrence of [x] in [l]; [length l] when
    there is none. *)
Fixpoint first_index (x : Z) (l : list Z) : nat :=
  match l with
  | [] => O
  | y :: l' => if decide (y = x) then O else S (first_index x l')
  end.

(** The via node of every shortcut lies strictly below both ends of the
    shortcut, for the level function [lvl]. *)
Definition via_below (lvl : Z → nat) (g : CHGraph) : Prop :=
  ∀ u e, e ∈ out_edges g u → is_shortcut e = true → via_node e ≠ -1 →
         (lvl (via_node e) < lvl u)%nat ∧ (lvl (via_node e) < lvl (target e))%nat.


(** Only base edges. *)
Definition base_only (g : CHGraph) : Prop :=
  ∀ u e, e ∈ out_edges g u → is_shortcut e = false.

(** ** Walks *)

(** A walk from [u] to [v] along the rows of [adj], as the list of the
    entries it takes, first to last.  With [adj := out_edges g] it is a
    path of the graph; with [adj := in_edges g] it is a path of the
    reversed graph. *)
Fixpoint is_walk (adj : Z → list Edge) (u : Z) (es : list Edge) (v : Z) : Prop :=
  match es with
  | [] => u = v
  | e :: es' => e ∈ adj u ∧ is_walk adj (target e) es' v
  end.

Definition walk_weight (es : list Edge) : Z := foldr (λ e acc, weight e + acc) 0 es.

(** What a search that starts with the distance [d0] accumulates along
    the walk: one addition of the source per edge, in the order of the
    walk. *)
Definition walk_cost (d0 : Z) (es : list Edge) : Z :=
  fold_left (λ d e, dadd d (weight e)) es d0.

(** The weights of the rows of [adj] are between 0 and [W]. *)
Definition weights_within (W : Z) (adj : Z → list Edge) : Prop :=
  ∀ x e, e ∈ adj x → 0 ≤ weight e ≤ W.

(** Every step of the walk goes to a node of strictly higher level. *)
Fixpoint ascending (lvl : Z → Z) (u : Z) (es : list Edge) : Prop :=
  match es with
  | [] => True
  | e :: es' => lvl u < lvl (target e) ∧ ascending lvl (target e) es'
  end.

(** Weights are not negative (a precondition of [add_edge]). *)
Definition nonneg (g : CHGraph) : Prop :=
  (∀ u e, e ∈ out_edges g u → 0 ≤ weight e)
  ∧ (∀ u e, e ∈ in_edges g u → 0 ≤ weight e).

(** ** What the witness search looks for *)

(** A node the search may step onto: not the excluded node, and not a
    contracted node unless it is the target [w]. *)
Definition admissible (g : CHGraph) (w exclude_node : Z) (e : Edge) : Prop :=
  target e ≠ exclude_node ∧ (is_contracted g (target e) = false ∨ target e = w).

(** The contract as the specification words it: some path from [u] to
    [w] of weight at most [L] and at most [hop_limit] hops that does not
    go through [exclude_node]. *)
Definition path_avoiding (g : CHGraph) (u w L exclude_node hop_limit : Z) : Prop :=
  ∃ es, is_walk (out_edges g) u es w
        ∧ walk_weight es ≤ L
        ∧ Z.of_nat (length es) ≤ hop_limit
        ∧ Forall (λ e, target e ≠ exclude_node) es.

(** What the loop finds: such a path all of whose nodes after [u] are
    admissible. *)
Definition witness_path (g : CHGraph) (u w L exclude_node hop_limit : Z) : Prop :=
  ∃ es, is_walk (out_edges g) u es w
        ∧ walk_weight es ≤ L
        ∧ Z.of_nat (length es) ≤ hop_limit
        ∧ Forall (admissible g w exclude_node) es.

Definition direct_edge (g : CHGraph) (u w L : Z) : Prop :=
  ∃ e, e ∈ out_edges g u ∧ target e = w ∧ weight e ≤ L.

Definition entry_budget (deg : nat) (hop_limit : Z) (entry : Z * Z * Z) : nat :=
  hop_budget deg (Z.to_nat (hop_limit - entry.2)).

Definition queue_budget (deg : nat) (hop_limit : Z) (q : list (Z * Z * Z)) : nat :=
  sum_list (entry_budget deg hop_limit <$> q).

(** A queue entry [(d, x, h)] of the witness search from [u] stands for a
    walk from [u] to [x] of weight [d] with [h] hops over admissible
    nodes. *)
Definition entry_reached (g : CHGraph) (u w exclude_node hop_limit : Z)
    (entry : Z * Z * Z) : Prop :=
  ∃ es, is_walk (out_edges g) u es entry.1.2
        ∧ walk_weight es = entry.1.1
        ∧ Z.of_nat (length es) = entry.2
        ∧ entry.2 ≤ hop_limit
        ∧ Forall (admissible g w exclude_node) es.

(** A queue entry from which the target can still be reached within the
    bounds. *)
Definition entry_promising (g : CHGraph) (w L exclude_node hop_limit : Z)
    (entry : Z * Z * Z) : Prop :=
  ∃ es, is_walk (out_edges g) entry.1.2 es w
        ∧ entry.1.1 + walk_weight es ≤ L
        ∧ entry.2 + Z.of_nat (length es) ≤ hop_limit
        ∧ Forall (admissible g w exclude_node) es.

(** ** Measures for the loops of [query] *)

(** Number of nodes ranked above [u], and below [u]. *)
Definition height (g : CHGraph) (u : Z) : nat :=
  length (List.filter (λ x, bool_decide (rank_of g u < rank_of g x)) (seqZ 0 (num_nodes g))).

Definition depth (g : CHGraph) (u : Z) : nat :=
  length (List.filter (λ x, bool_decide (rank_of g x < rank_of g u)) (seqZ 0 (num_nodes g))).

Definition search_degree (g : CHGraph) : nat :=
  Nat.max (max_row (adj_out g)) (max_row (adj_in g)).

(** Number of queue entries that an entry for a node can give rise to,
    itself included: relaxations go strictly upwards in rank. *)
Definition node_budget (g : CHGraph) (entry : Z * Z) : nat :=
  S (search_degree g) ^ height g entry.2.

Definition side_budget (g : CHGraph) (q : list (Z * Z)) : nat :=
  sum_list (node_budget g <$> q).

(** A bound on what one relaxation from a node of height [k] adds. *)
Definition push_budget (g : CHGraph) (k : nat) : nat :=
  match k with
  | O => O
  | S k' => S (search_degree g) ^ k'
  end.

(** An adjacency function of a well-formed graph, as the two searches use
    it. *)
Definition adjacency_of (g : CHGraph) (adj : Z → list Edge) : Prop :=
  (∀ u e, e ∈ adj u → node_of g (target e))
  ∧ (∀ u, (length (adj u) ≤ search_degree g)%nat).

(** ** Invariants of the bidirectional search *)

(** A walk that goes up in rank at every step, as the search relaxes
    them. *)
Definition up_walk (g : CHGraph) (adj : Z → list Edge) (u : Z) (es : list Edge) (v : Z)
  : Prop :=
  is_walk adj u es v ∧ ascending (rank_of g) u es.

(** [x] is reached from [s0] by an upward walk along which the search
    accumulates the distance [d]. *)
Definition reaches (g : CHGraph) (adj : Z → list Edge) (s0 x d : Z) : Prop :=
  ∃ es, up_walk g adj s0 es x ∧ walk_cost 0 es = d.

(** The two searches reach a common node, and the sum of the two
    distances, as the source adds them, is [m]. *)
Definition meets (g : CHGraph) (adjT : Z → list Edge) (sT : Z)
    (adjO : Z → list Edge) (sO : Z) (m : Z) : Prop :=
  ∃ x a b, reaches g adjT sT x a ∧ reaches g adjO sO x b ∧ m = dadd a b.

Definition is_fin (d : ext Z) : Prop := ∃ z, d = Fin z.

(** One direction of the search, started at [s0]. *)
Record side_ok (g : CHGraph) (adj : Z → list Edge) (s0 : Z) (sd : side) : Prop := mk_side_ok {
  ok_dist_len : Z.of_nat (length (dist sd)) = num_nodes g;
  ok_parent_len : Z.of_nat (length (parent sd)) = num_nodes g;
  ok_start : dist_at (dist sd) s0 = Fin 0;
  ok_sound : ∀ x d, dist_at (dist sd) x = Fin d → reaches g adj s0 x d;
  ok_queue : ∀ d u, (d, u) ∈ pq sd → reaches g adj s0 u d ∧ is_fin (dist_at (dist sd) u);
  ok_parent : ∀ x, x ≠ s0 → is_fin (dist_at (dist sd) x) →
      node_of g (parent_at (parent sd) x)
      ∧ rank_of g (parent_at (parent sd) x) < rank_of g x
      ∧ is_fin (dist_at (dist sd) (parent_at (parent sd) x))
}.

(** [mu] and [meet_node]: nothing recorded yet, or a node both searches
    have reached and the weight of a walk through a common node. *)
Definition meet_ok (g : CHGraph) (adjT : Z → list Edge) (sT : Z)
    (adjO : Z → list Edge) (sO : Z) (this other : side) (mu : ext Z) (meet_node : Z)
  : Prop :=
  match mu with
  | Inf => meet_node = -1
  | Fin m =>
    is_fin (dist_at (dist this) meet_node)
    ∧ is_fin (dist_at (dist other) meet_node)
    ∧ meets g adjT sT adjO sO m
  end.

Record pair_ok (g : CHGraph) (adjT : Z → list Edge) (sT : Z)
    (adjO : Z → list Edge) (sO : Z) (this other : side) (mu : ext Z) (meet_node : Z)
  : Prop := mk_pair_ok {
  po_this : side_ok g adjT sT this;
  po_other : side_ok g adjO sO other;
  po_meet : meet_ok g adjT sT adjO sO this other mu meet_node
}.

(** A bound on the level of every node of the graph. *)
Definition lvl_bound (lvl : Z → nat) (g : CHGraph) : nat :=
  S (foldr Nat.max O (lvl <$> seqZ 0 (num_nodes g))).

(** Fuel that is enough for every loop of [query] on [g]. *)
Definition query_fuel (lvl : Z → nat) (g : CHGraph) (s t : Z) : nat :=
  S (side_budget g [(0, s)] + side_budget g [(0, t)])
  + S (Z.to_nat (num_nodes g)) + lvl_bound lvl g.

(** Every upward edge out of [u] has been relaxed with distance [d]. *)
Definition relaxed_edge (g : CHGraph) (sd : side) (u d : Z) (e : Edge) : Prop :=
  rank_of g u < rank_of g (target e) →
  lt_ext (dadd d (weight e)) (dist_at (dist sd) (target e)) = false.

Definition relaxed_all (g : CHGraph) (adj : Z → list Edge) (sd : side) (u d : Z) : Prop :=
  ∀ e, e ∈ adj u → relaxed_edge g sd u d e.

(** Every node with a finite distance is still queued with it, or was
    popped with a distance beyond [mu], or has relaxed all its upward
    edges; while the edges of [u], popped with distance [d], are being
    relaxed, those in [done] have been. *)
Definition settled_but (g : CHGraph) (adj : Z → list Edge) (sd : side) (mu : ext Z)
    (u d : Z) (done : list Edge) : Prop :=
  ∀ x dx, dist_at (dist sd) x = Fin dx →
    (dx, x) ∈ pq sd ∨ le_ext dx mu = false ∨ relaxed_all g adj sd x dx
    ∨ (x = u ∧ dx = d ∧ ∀ e, e ∈ done → relaxed_edge g sd u d e).

Definition settled (g : CHGraph) (adj : Z → list Edge) (sd : side) (mu : ext Z) : Prop :=
  ∀ x dx, dist_at (dist sd) x = Fin dx →
    (dx, x) ∈ pq sd ∨ le_ext dx mu = false ∨ relaxed_all g adj sd x dx.

(** [mu] is at most the sum of the two distances of any node both
    searches have reached. *)
Definition meet_le (this other : side) (mu : ext Z) : Prop :=
  ∀ x a b, dist_at (dist this) x = Fin a → dist_at (dist other) x = Fin b →
           lt_ext (dadd a b) mu = false.

(** ** The hierarchy keeps the distances *)

(** A walk over nodes that are not contracted. *)
Definition core_walk (g : CHGraph) (x : Z) (es : list Edge) (y : Z) : Prop :=
  is_walk (out_edges g) x es y
  ∧ (es ≠ [] → is_contracted g x = false)
  ∧ Forall (λ e, is_contracted g (target e) = false) es.

(** The pair [(a, c)] of neighbours of a contracted node is covered: the
    uncontracted nodes connect them with weight at most [W]. *)
Definition covered (g : CHGraph) (a c W : Z) : Prop :=
  ∃ ws, core_walk g a ws c ∧ walk_weight ws ≤ W.

(** A neighbour of the node being contracted that takes part in
    shortcuts; [g1] is the graph in which the node has been marked. *)
Definition neighbour (g1 : CHGraph) (x : Z) : Prop :=
  node_of g1 x ∧ is_contracted g1 x = false.

(** What the shortcut loop of [contract_node] keeps unchanged, from the
    graph [g1] in which the node has been marked. *)
Record contracting (g1 g : CHGraph) : Prop := mk_contracting {
  ct_wf : wf g;
  ct_nonneg : nonneg g;
  ct_nodes : num_nodes g = num_nodes g1;
  ct_flags : contracted g = contracted g1;
  ct_out : ∀ u e, e ∈ out_edges g1 u → e ∈ out_edges g u;
  ct_in : ∀ u e, e ∈ in_edges g1 u → e ∈ in_edges g u
}.

(** No contraction of the build inserts 100 shortcuts, so that the cap
    skips no candidate pair. *)
Fixpoint under_cap (g : CHGraph) (r : Z) (nodes : list Z) : Prop :=
  match nodes with
  | [] => True
  | node :: rest =>
    (contract_node (with_rank g node r) node).2 < max_shortcuts
    ∧ under_cap (contract_node (with_rank g node r) node).1 (r + 1) rest
  end.

(** Every edge of [g] stands for a walk of the base graph [g0] between
    the same nodes and of the same weight. *)
Definition expands (g0 g : CHGraph) : Prop :=
  ∀ u e, e ∈ out_edges g u →
         ∃ es, is_walk (out_edges g0) u es (target e) ∧ walk_weight es = weight e.

(** Position in the contraction order, as a level. *)
Definition position (order : list Z) (x : Z) : Z := Z.of_nat (first_index x order).

(** Every walk of the base graph is matched, at no greater weight, by a
    walk that climbs through contracted nodes, crosses the nodes not yet
    contracted, and descends through contracted nodes; the descent is
    given as a climb from [t] in the reversed graph. *)
Definition up_core_down (order : list Z) (g : CHGraph) (s t W : Z) : Prop :=
  ∃ x y es1 es2 es3,
    is_walk (out_edges g) s es1 x ∧ ascending (position order) s es1
    ∧ core_walk g x es2 y
    ∧ is_walk (in_edges g) t es3 y ∧ ascending (position order) t es3
    ∧ walk_weight es1 + walk_weight es2 + walk_weight es3 ≤ W.

(** The state of the build after the nodes [done] of [order] have been
    contracted, from the base graph [g0]. *)
Record hierarchy (g0 : CHGraph) (order done : list Z) (g : CHGraph) : Prop := mk_hierarchy {
  h_wf : wf g;
  h_nonneg : nonneg g;
  h_mirrored : mirrored g;
  h_nodes : num_nodes g = num_nodes g0;
  h_flags : ∀ x, is_contracted g x = true ↔ x ∈ done;
  h_expands : expands g0 g;
  h_paths : ∀ s t bw, is_walk (out_edges g0) s bw t →
                      up_core_down order g s t (walk_weight bw)
}.

(** ** Reference distances *)

Definition connected (g0 : CHGraph) (s t : Z) : Prop :=
  ∃ es, is_walk (out_edges g0) s es t.

(** [d] is the least weight of a path from [s] to [t]. *)
Definition shortest_distance (g0 : CHGraph) (s t d : Z) : Prop :=
  (∃ es, is_walk (out_edges g0) s es t ∧ walk_weight es = d)
  ∧ ∀ es, is_walk (out_edges g0) s es t → d ≤ walk_weight es.

(** What a reference Dijkstra on the base graph computes: the least
    weight of a path, and [+infinity] when there is none. *)
Definition reference_distance (g0 : CHGraph) (s t : Z) (D : ext Z) : Prop :=
  match D with
  | Fin d => shortest_distance g0 s t d
  | Inf => ¬ connected g0 s t
  end.

(** The graph of an outcome that returned. *)
Definition graph_of (og : outcome CHGraph) : CHGraph :=
  match og with
  | Returns g => g
  | _ => CHGraph_new 0
  end.

(** ** The graphs of the scenarios *)


(** Scenario 1: the line 0 -> 1 -> 2, contracted in the order 1, 0, 2. *)
Definition line_edges : list (Z * Z * Z) := [(0, 1, 2000); (1, 2, 3000)].
Definition line_order : list Z := [1; 0; 2].
Definition line_base : CHGraph := graph_of (add_edges (CHGraph_new 3) line_edges).
Definition line_built : CHGraph := graph_of (build_ch line_base line_order).

(** Scenarios 2 and 3: the diamond, contracted in the order 1, 2, 0, 3. *)
Definition diamond_edges : list (Z * Z * Z) :=
  [(0, 1, 1000); (0, 2, 5000); (1, 3, 1000); (2, 3, 1000)].
Definition diamond_order : list Z := [1; 2; 0; 3].
Definition diamond_base : CHGraph := graph_of (add_edges (CHGraph_new 4) diamond_edges).
Definition diamond_built : CHGraph := graph_of (make 4 diamond_edges diamond_order).

(** Scenario 5: the line of five nodes, contracted in the order 2, 1, 3, 0, 4. *)
Definition long_line_edges : list (Z * Z * Z) :=
  [(0, 1, 1000); (1, 2, 1000); (2, 3, 1000); (3, 4, 1000)].
Definition long_line_order : list Z := [2; 1; 3; 0; 4].
Definition long_line_built : CHGraph := graph_of (make 5 long_line_edges long_line_order).

(** Two routes from 0 to 2: 0 -> 1 -> 2 of weight 2 and 0 -> 3 -> 2 of
    weight 10.  In [chain_contracted] node 1 has been contracted (before
    it had any edge) and node 3 is being contracted: this is the graph
    on which [contract_node(3)] calls [witness_search(0, 2, 10, 3, 3)]. *)
Definition chain : CHGraph :=
  push_edge (push_edge (push_edge (push_edge (CHGraph_new 4)
    0 1 1 false (-1)) 1 2 1 false (-1)) 0 3 5 false (-1)) 3 2 5 false (-1).
Definition chain_contracted : CHGraph := mark_contracted (mark_contracted chain 1) 3.

(** A star: eleven nodes 1..11 with an edge into node 0, and eleven
    edges from node 0 to the nodes 12..22; node 0 is contracted first. *)
Definition star_edges : list (Z * Z * Z) :=
  ((λ i, (i, 0, 1000)) <$> seqZ 1 11) ++ ((λ j, (0, j, 1000)) <$> seqZ 12 11).
Definition star_order : list Z := seqZ 0 23.
Definition star_base : CHGraph := graph_of (add_edges (CHGraph_new 23) star_edges).
Definition star_built : CHGraph := graph_of (build_ch star_base star_order).

(** * Further operations and notions *)

(** ** Serialisation *)

(** The dictionary [get_graph_data] returns: the tuples appended to
    ["edges"] and the vector stored under ["ranks"]. *)
Record graph_data := mk_graph_data {
  edges : list (Z * Z * Z * bool * Z);
  ranks : list Z
}.

Definition edge_tuple (u : Z) (e : Edge) : Z * Z * Z * bool * Z :=
  (u, target e, weight e, is_shortcut e, via_node e).

(** [for (int u = 0; u < num_nodes; ++u) for (const auto& e : adj_out[u])]:
    the rows are read by [out_edges]; [adj_out] has [num_nodes] rows from
    the constructor on, so that every row read is inside the vector. *)
Definition get_graph_data (g : CHGraph) : graph_data :=
  {| edges := flat_map (λ u, edge_tuple u <$> out_edges g u) (seqZ 0 (num_nodes g));
     ranks := rank g |}.

(** The host's replay of such data into an engine: one [add_ch_edge] per
    tuple, in order, then one [set_rank] per entry of the rank vector. *)
Fixpoint load_edges (g : CHGraph) (es : list (Z * Z * Z * bool * Z)) : outcome CHGraph :=
  match es with
  | [] => Returns g
  | (u, v, w, sc, via) :: rest =>
    match add_ch_edge g u v w sc via with
    | Returns g' => load_edges g' rest
    | Raises e => Raises e
    | Undefined => Undefined
    end
  end.

Fixpoint load_ranks (g : CHGraph) (u : Z) (rs : list Z) : outcome CHGraph :=
  match rs with
  | [] => Returns g
  | r :: rest =>
    match set_rank g u r with
    | Returns g' => load_ranks g' (u + 1) rest
    | Raises e => Raises e
    | Undefined => Undefined
    end
  end.

Definition reload (d : graph_data) : outcome CHGraph :=
  match load_edges (CHGraph_new (Z.of_nat (length (ranks d)))) (edges d) with
  | Returns g => load_ranks g 0 (ranks d)
  | Raises e => Raises e
  | Undefined => Undefined
  end.

(** Two engines that a query cannot tell apart by what it reads: the
    node count, the entries of every row (in whatever order) and the
    ranks. *)
Definition same_network (g g' : CHGraph) : Prop :=
  num_nodes g' = num_nodes g
  ∧ (∀ u e, e ∈ out_edges g' u ↔ e ∈ out_edges g u)
  ∧ (∀ v e, e ∈ in_edges g' v ↔ e ∈ in_edges g v)
  ∧ (∀ x, rank_of g' x = rank_of g x).

(** ** Structure of a built graph *)

(** The entries of a row that are not shortcuts. *)
Definition base_edges (row : list Edge) : list Edge :=
  List.filter (λ e, negb (is_shortcut e)) row.

(** A shortcut from [u] stands for the two edges through its via node,
    which is contracted; its weight is the sum of theirs as the source
    adds them. *)
Definition shortcut_ok (g : CHGraph) (u : Z) (e : Edge) : Prop :=
  via_node e ≠ -1
  ∧ is_contracted g (via_node e) = true
  ∧ ∃ e1 e2,
      e1 ∈ out_edges g u ∧ target e1 = via_node e
      ∧ e2 ∈ out_edges g (via_node e) ∧ target e2 = target e
      ∧ weight e = dadd (weight e1) (weight e2).

Definition shortcuts_ok (g : CHGraph) : Prop :=
  ∀ u e, e ∈ out_edges g u → is_shortcut e = true → shortcut_ok g u e.

(** The row [new] is the row [old] followed by shortcuts whose via node
    satisfies [via]. *)
Definition appended (via : Z → Prop) (old new : list Edge) : Prop :=
  ∃ k, new = old ++ k ∧ Forall (λ e, is_shortcut e = true ∧ via (via_node e)) k.

(** ** Paths as node sequences *)

(** Some edge of [g] goes from [a] to [b]. *)
Definition linked (g : CHGraph) (a b : Z) : Prop :=
  ∃ e, e ∈ out_edges g a ∧ target e = b.

(** Consecutive nodes of the sequence are linked. *)
Fixpoint chained (g : CHGraph) (path : list Z) : Prop :=
  match path with
  | a :: rest =>
    match rest with
    | b :: _ => linked g a b ∧ chained g rest
    | [] => True
    end
  | [] => True
  end.

(** The parent of every reached node other than the start has an entry
    for it in its row of [adj]. *)
Definition parents_linked (adj : Z → list Edge) (s0 : Z) (sd : side) : Prop :=
  ∀ x, x ≠ s0 → is_fin (dist_at (dist sd) x) →
       ∃ e, e ∈ adj (parent_at (parent sd) x) ∧ target e = x.

(** ** A graph with two shortcuts between the same nodes *)

(** Two routes from 4 to 5: 4 -> 0 -> 5 of weight 10000, and
    4 -> 1 -> 2 -> 3 -> 5 of weight 4000, which has more hops than the
    witness search follows; the nodes are contracted in the order
    0, 1, 2, 3, 4, 5. *)
Definition detour_edges : list (Z * Z * Z) :=
  [(4, 0, 5000); (0, 5, 5000); (4, 1, 1000); (1, 2, 1000); (2, 3, 1000); (3, 5, 1000)].
Definition detour_order : list Z := [0; 1; 2; 3; 4; 5].
Definition detour_base : CHGraph := graph_of (add_edges (CHGraph_new 6) detour_edges).
Definition detour_built : CHGraph := graph_of (build_ch detour_base detour_order).
(** * Properties *)

(** ** The scenarios of the specification, run on the model *)

Example scenario_1 :
  query_on 50 (make 3 line_edges line_order) 0 2 = Some ([0; 1; 2], Fin (5000 # 1000)%Q).
Proof. vm_compute. reflexivity. Qed.

Example scenario_2 :
  query_on 50 (make 4 diamond_edges diamond_order) 0 3
  = Some ([0; 1; 3], Fin (2000 # 1000)%Q).
Proof. vm_compute. reflexivity. Qed.

Example scenario_3 :
  query_on 50 (make 4 diamond_edges diamond_order) 3 0 = Some ([], Fin 0%Q).
Proof. vm_compute. reflexivity. Qed.

Example scenario_5 :
  query_on 50 (make 5 long_line_edges long_line_order) 0 4
  = Some ([0; 1; 2; 3; 4], Fin (4000 # 1000)%Q).
Proof. vm_compute. reflexivity. Qed.

Example scenario_6 :
  query_on 50 (Returns (CHGraph_new 1)) (-1) 0 = Some ([], Fin 0%Q).
Proof. vm_compute. reflexivity. Qed.

(** ** Double arithmetic *)

Lemma round_magnitude_small a : a ≤ double_exact → round_magnitude a = a.
Proof. intros Ha. unfold round_magnitude. by rewrite decide_True. Qed.

(** The grid of a magnitude above [2 ^ 53]: the exponent [e], the
    spacing [m] of the doubles around it, the significand and the
    remainder. *)
Lemma round_grid a :
  double_exact < a →
  let e := Z.log2 a in
  let m := 2 ^ (e - 52) in
  53 ≤ e ∧ 2 ^ e ≤ a < 2 ^ (e + 1) ∧ 2 ^ e = 2 ^ 52 * m ∧ 2 ≤ m
  ∧ 2 ^ 52 ≤ a / m < 2 ^ 53 ∧ 0 ≤ a mod m < m ∧ a = m * (a / m) + a mod m
  ∧ Z.even m = true.
Proof.
  intros Ha. cbv zeta. unfold double_exact in Ha.
  assert (0 < a) as Hpos by lia.
  pose proof (Z.log2_spec a Hpos) as [Hlo Hhi].
  assert (53 ≤ Z.log2 a) as He.
  { apply Z.log2_le_pow2; [done|]. lia. }
  rewrite <-Z.add_1_r in Hhi.
  set (e := Z.log2 a) in *.
  assert (2 ^ e = 2 ^ 52 * 2 ^ (e - 52)) as Hsplit.
  { rewrite <-Z.pow_add_r by lia. f_equal. lia. }
  assert (2 ^ (e + 1) = 2 ^ 53 * 2 ^ (e - 52)) as Hsplit'.
  { rewrite <-Z.pow_add_r by lia. f_equal. lia. }
  assert (2 ≤ 2 ^ (e - 52)) as Hm.
  { change 2 with (2 ^ 1) at 1. apply Z.pow_le_mono_r; lia. }
  set (m := 2 ^ (e - 52)) in *.
  pose proof (Z.div_mod a m ltac:(lia)) as Hdm.
  pose proof (Z.mod_pos_bound a m ltac:(lia)) as Hmod.
  split_and!; try done; try lia.
  - apply Z.div_le_lower_bound; lia.
  - apply Z.div_lt_upper_bound; lia.
  - unfold m. replace (e - 52) with (Z.succ (e - 53)) by lia.
    rewrite Z.pow_succ_r by lia. by rewrite Z.even_mul.
Qed.

Lemma round_magnitude_cases a :
  double_exact < a →
  let m := 2 ^ (Z.log2 a - 52) in
  (round_magnitude a = (a / m) * m ∧ 2 * (a mod m) ≤ m
   ∧ (2 * (a mod m) = m → Z.even (a / m) = true))
  ∨ (round_magnitude a = (a / m + 1) * m ∧ m ≤ 2 * (a mod m)
     ∧ (2 * (a mod m) = m → Z.even (a / m) = false)).
Proof.
  intros Ha. cbv zeta. unfold round_magnitude.
  rewrite decide_False by lia.
  repeat case_decide; try (left; split_and!; [done|lia|lia]);
    try (right; split_and!; [done|lia|lia]).
  destruct (Z.even _) eqn:Hev; [left|right]; split_and!; try done; lia.
Qed.

Lemma round_magnitude_bracket a :
  double_exact < a →
  2 ^ Z.log2 a ≤ round_magnitude a ≤ 2 ^ (Z.log2 a + 1).
Proof.
  intros Ha.
  destruct (round_grid a Ha) as (He & Ha' & Hsplit & Hm & Hq & Hr & Hdm & _).
  assert (2 ^ (Z.log2 a + 1) = 2 ^ 53 * 2 ^ (Z.log2 a - 52)) as Hsplit'.
  { rewrite <-Z.pow_add_r by lia. f_equal. lia. }
  destruct (round_magnitude_cases a Ha) as [(-> & _)|(-> & _)]; nia.
Qed.

Lemma round_magnitude_nonneg a : 0 ≤ a → 0 ≤ round_magnitude a.
Proof.
  intros Ha. destruct (decide (a ≤ double_exact)).
  - by rewrite round_magnitude_small.
  - pose proof (round_magnitude_bracket a ltac:(lia)) as [? _].
    pose proof (Z.pow_nonneg 2 (Z.log2 a)). lia.
Qed.

Lemma round_magnitude_mono a b :
  0 ≤ a → a ≤ b → round_magnitude a ≤ round_magnitude b.
Proof.
  intros Ha Hab.
  destruct (decide (b ≤ double_exact)) as [Hb|Hb].
  { rewrite !round_magnitude_small; lia. }
  assert (double_exact < b) as Hb' by lia.
  pose proof (round_magnitude_bracket b Hb') as [Hblo Hbhi].
  destruct (round_grid b Hb') as (Heb & Hb2 & Hsb & Hmb & Hqb & Hrb & Hdmb & _).
  destruct (decide (a ≤ double_exact)) as [Ha1|Ha1].
  { rewrite (round_magnitude_small a) by done.
    assert (2 ^ 53 ≤ 2 ^ Z.log2 b) by (apply Z.pow_le_mono_r; lia).
    unfold double_exact in *. lia. }
  assert (double_exact < a) as Ha' by lia.
  pose proof (round_magnitude_bracket a Ha') as [Halo Hahi].
  destruct (round_grid a Ha') as (Hea & Ha2 & Hsa & Hma & Hqa & Hra & Hdma & _).
  assert (Z.log2 a ≤ Z.log2 b) as Hlog by (by apply Z.log2_le_mono).
  destruct (decide (Z.log2 a = Z.log2 b)) as [Heq|Hne].
  - destruct (round_magnitude_cases a Ha') as [(-> & Hda & Hta)|(-> & Hua & Hta)];
      destruct (round_magnitude_cases b Hb') as [(-> & Hdb & Htb)|(-> & Hub & Htb)];
      rewrite Heq in *;
      set (m := 2 ^ (Z.log2 b - 52)) in *;
      assert (a / m ≤ b / m) as Hq by (apply Z.div_le_mono; lia).
    + nia.
    + nia.
    + destruct (decide (a / m = b / m)) as [Hqeq|Hqne]; [|nia].
      exfalso. rewrite Hqeq in *.
      assert (a mod m ≤ b mod m) by lia.
      assert (2 * (a mod m) = m) as Hta' by lia.
      assert (2 * (b mod m) = m) as Htb' by lia.
      specialize (Hta Hta'). specialize (Htb Htb'). congruence.
    + nia.
  - assert (2 ^ (Z.log2 a + 1) ≤ 2 ^ Z.log2 b) by (apply Z.pow_le_mono_r; lia). lia.
Qed.

Lemma round_magnitude_fix q k :
  0 ≤ k → 2 ^ 52 ≤ q ≤ 2 ^ 53 → round_magnitude (q * 2 ^ k) = q * 2 ^ k.
Proof.
  assert (∀ q k, 0 ≤ k → 2 ^ 52 ≤ q < 2 ^ 53 → round_magnitude (q * 2 ^ k) = q * 2 ^ k)
    as Hfix.
  { clear q k. intros q k Hk Hq.
    assert (0 < 2 ^ k) as Hpos by (apply Z.pow_pos_nonneg; lia).
    destruct (decide (q * 2 ^ k ≤ double_exact)) as [Hs|Hb];
      [by apply round_magnitude_small|].
    assert (double_exact < q * 2 ^ k) as Hb' by lia.
    assert (Z.log2 (q * 2 ^ k) = 52 + k) as Hlog.
    { apply Z.log2_unique; [lia|]. rewrite <-Z.add_1_r.
      replace (52 + k + 1) with (53 + k) by lia.
      rewrite !Z.pow_add_r by lia. nia. }
    pose proof (round_magnitude_cases _ Hb') as Hc. cbv zeta in Hc.
    rewrite Hlog in Hc. replace (52 + k - 52) with k in Hc by lia.
    rewrite Z.div_mul, Z.mod_mul in Hc by lia.
    destruct Hc as [(-> & _)|(_ & Hup & _)]; [done|lia]. }
  intros Hk Hq. destruct (decide (q = 2 ^ 53)) as [->|Hne]; [|apply Hfix; lia].
  replace (2 ^ 53 * 2 ^ k) with (2 ^ 52 * 2 ^ (k + 1)).
  - apply Hfix; lia.
  - rewrite !Z.pow_add_r by lia. lia.
Qed.

Lemma round_magnitude_idem a : 0 ≤ a → round_magnitude (round_magnitude a) = round_magnitude a.
Proof.
  intros Ha.
  destruct (decide (a ≤ double_exact)) as [Hsmall|Hbig].
  { rewrite (round_magnitude_small a) by done. by apply round_magnitude_small. }
  assert (double_exact < a) as Ha' by lia.
  destruct (round_grid a Ha') as (He & Ha2 & Hsplit & Hm & Hq & Hr & Hdm & Hev).
  destruct (round_magnitude_cases a Ha') as [(-> & _)|(-> & _)];
    apply round_magnitude_fix; lia.
Qed.

Lemma round_double_mono x y : x ≤ y → round_double x ≤ round_double y.
Proof.
  intros Hxy. unfold round_double. repeat case_decide.
  - by apply round_magnitude_mono.
  - lia.
  - pose proof (round_magnitude_nonneg (- x) ltac:(lia)).
    pose proof (round_magnitude_nonneg y ltac:(lia)). lia.
  - pose proof (round_magnitude_mono (- y) (- x) ltac:(lia) ltac:(lia)). lia.
Qed.

Lemma round_double_idem z : round_double (round_double z) = round_double z.
Proof.
  unfold round_double. destruct (decide (0 ≤ z)) as [Hz|Hz].
  - rewrite decide_True by (by apply round_magnitude_nonneg).
    by apply round_magnitude_idem.
  - pose proof (round_magnitude_nonneg (- z) ltac:(lia)) as Hr.
    destruct (decide (0 ≤ - round_magnitude (- z))) as [H0|H0].
    + assert (round_magnitude (- z) = 0) as -> by lia. done.
    + rewrite Z.opp_involutive. rewrite round_magnitude_idem by lia. done.
Qed.

Lemma round_double_exact z : - double_exact ≤ z ≤ double_exact → round_double z = z.
Proof.
  intros Hz. unfold round_double. case_decide.
  - apply round_magnitude_small. lia.
  - rewrite round_magnitude_small by lia. lia.
Qed.

Lemma dadd_exact x y : - double_exact ≤ x + y ≤ double_exact → dadd x y = x + y.
Proof. apply round_double_exact. Qed.

Lemma dadd_comm x y : dadd x y = dadd y x.
Proof. unfold dadd. by rewrite Z.add_comm. Qed.

Lemma dadd_mono x x' y y' : x ≤ x' → y ≤ y' → dadd x y ≤ dadd x' y'.
Proof. intros. apply round_double_mono. lia. Qed.

Lemma dadd_is_double x y : is_double (dadd x y).
Proof. apply round_double_idem. Qed.

Lemma is_double_small z : - double_exact ≤ z ≤ double_exact → is_double z.
Proof. apply round_double_exact. Qed.

(** Adding a weight that is not negative does not lower a distance. *)
Lemma dadd_ge x y : is_double x → 0 ≤ y → x ≤ dadd x y.
Proof.
  intros Hx Hy. unfold is_double in Hx. rewrite <-Hx at 1.
  apply round_double_mono. lia.
Qed.

Lemma dadd_nonneg x y : 0 ≤ x → 0 ≤ y → 0 ≤ dadd x y.
Proof.
  intros Hx Hy. change 0 with (round_double 0) at 1. apply round_double_mono. lia.
Qed.

(** ** Vector lemmas *)

Section vectors.
Context {A : Type}.
Implicit Types (l : list A) (i j : Z) (x d : A).

Lemma vec_at_lookup d l i x :
  0 ≤ i → l !! Z.to_nat i = Some x → vec_at d l i = x.
Proof. intros Hi Hl. unfold vec_at. rewrite decide_True by done. by rewrite Hl. Qed.

Lemma vec_at_outside d l i : ¬ in_vec l i → vec_at d l i = d.
Proof.
  intros Hi. unfold vec_at, in_vec in *. case_decide; [|done].
  rewrite lookup_ge_None_2; [done|lia].
Qed.

Lemma vec_at_inside d l i :
  in_vec l i → l !! Z.to_nat i = Some (vec_at d l i).
Proof.
  intros [Hi Hlen]. unfold vec_at. rewrite decide_True by done.
  destruct (lookup_lt_is_Some_2 l (Z.to_nat i)) as [x Hx]; [lia|]. by rewrite Hx.
Qed.

Lemma length_vec_set l i x : length (vec_set l i x) = length l.
Proof. unfold vec_set. case_decide; [apply length_insert|done]. Qed.

Lemma vec_at_set d l i j x :
  vec_at d (vec_set l i x) j
  = if decide (i = j ∧ in_vec l i) then x else vec_at d l j.
Proof.
  unfold vec_set, vec_at, in_vec.
  destruct (decide (i = j ∧ 0 ≤ i < Z.of_nat (length l))) as [Hij|Hij].
  - destruct Hij as [-> [Hj Hlen]]. rewrite !decide_True by done.
    rewrite list_lookup_insert_eq; [done|lia].
  - destruct (decide (0 ≤ j)) as [Hj|Hj]; [|done].
    destruct (decide (0 ≤ i)) as [Hi|Hi]; [|done].
    destruct (decide (i = j)) as [->|Hne].
    + rewrite list_insert_ge; [done|lia].
    + rewrite list_lookup_insert_ne; [done|lia].
Qed.

Lemma vec_at_set_eq d l i x : in_vec l i → vec_at d (vec_set l i x) i = x.
Proof. intros Hi. rewrite vec_at_set. by rewrite decide_True. Qed.

Lemma vec_at_set_ne d l i j x : i ≠ j → vec_at d (vec_set l i x) j = vec_at d l j.
Proof. intros Hne. rewrite vec_at_set. rewrite decide_False; [done|]. by intros [? _]. Qed.

Lemma vec_set_outside l i x : ¬ in_vec l i → vec_set l i x = l.
Proof.
  intros Hi. unfold vec_set, in_vec in *. case_decide; [|done].
  apply list_insert_ge. lia.
Qed.
End vectors.

Section rows.
Context {A : Type}.
Implicit Types (l : list (list A)) (i j : Z) (x : A).

Lemma length_vec_push l i x : length (vec_push l i x) = length l.
Proof. unfold vec_push. case_decide; [apply length_alter|done]. Qed.

Lemma vec_at_push l i j x :
  vec_at [] (vec_push l i x) j
  = if decide (i = j ∧ in_vec l i) then vec_at [] l j ++ [x] else vec_at [] l j.
Proof.
  unfold vec_push, vec_at, in_vec.
  destruct (decide (i = j ∧ 0 ≤ i < Z.of_nat (length l))) as [Hij|Hij].
  - destruct Hij as [-> [Hj Hlen]]. rewrite !decide_True by done.
    rewrite list_lookup_alter_eq.
    destruct (lookup_lt_is_Some_2 l (Z.to_nat j)) as [row Hrow]; [lia|].
    by rewrite Hrow.
  - destruct (decide (0 ≤ j)) as [Hj|Hj]; [|done].
    destruct (decide (0 ≤ i)) as [Hi|Hi]; [|done].
    destruct (decide (i = j)) as [->|Hne].
    + rewrite list_lookup_alter_eq. rewrite lookup_ge_None_2; [done|lia].
    + rewrite list_lookup_alter_ne; [done|lia].
Qed.

Lemma vec_at_push_eq l i x :
  in_vec l i → vec_at [] (vec_push l i x) i = vec_at [] l i ++ [x].
Proof. intros Hi. rewrite vec_at_push. by rewrite decide_True. Qed.

Lemma vec_at_push_ne l i j x :
  i ≠ j → vec_at [] (vec_push l i x) j = vec_at [] l j.
Proof. intros Hne. rewrite vec_at_push. rewrite decide_False; [done|]. by intros [? _]. Qed.

Lemma vec_push_outside l i x : ¬ in_vec l i → vec_push l i x = l.
Proof.
  intros Hi. unfold vec_push, in_vec in *. case_decide; [|done].
  apply list_eq. intros k. destruct (decide (k = Z.to_nat i)) as [->|Hne].
  - rewrite list_lookup_alter_eq. rewrite lookup_ge_None_2; [done|lia].
  - by rewrite list_lookup_alter_ne.
Qed.
End rows.

(** ** Effect of the mutators on the accessors *)

Lemma out_edges_push_edge g u v w sc via u' :
  out_edges (push_edge g u v w sc via) u'
  = if decide (u = u' ∧ in_vec (adj_out g) u)
    then out_edges g u' ++ [mkEdge v w sc via] else out_edges g u'.
Proof. apply vec_at_push. Qed.

Lemma in_edges_push_edge g u v w sc via v' :
  in_edges (push_edge g u v w sc via) v'
  = if decide (v = v' ∧ in_vec (adj_in g) v)
    then in_edges g v' ++ [mkEdge u w sc via] else in_edges g v'.
Proof. apply vec_at_push. Qed.

Lemma node_of_in_vec {A} g (l : list A) u :
  Z.of_nat (length l) = num_nodes g → node_of g u ↔ in_vec l u.
Proof. unfold node_of, in_vec. intros ->. done. Qed.

Lemma out_edges_outside g u : wf g → ¬ node_of g u → out_edges g u = [].
Proof.
  intros Hwf Hu. apply vec_at_outside.
  by rewrite <-(node_of_in_vec g) by apply Hwf.
Qed.

Lemma in_edges_outside g u : wf g → ¬ node_of g u → in_edges g u = [].
Proof.
  intros Hwf Hu. apply vec_at_outside.
  by rewrite <-(node_of_in_vec g) by apply Hwf.
Qed.

Lemma wf_new n : 0 ≤ n ≤ int_max → wf (CHGraph_new n).
Proof.
  intros Hn. split; simpl; rewrite ?length_replicate; try lia.
  - intros u e. unfold out_edges, vec_at; simpl. case_decide; [|by intros ?%elem_of_nil].
    destruct (replicate (Z.to_nat n) [] !! Z.to_nat u) as [row|] eqn:Hrow; simpl.
    + apply lookup_replicate in Hrow as [-> _]. by intros ?%elem_of_nil.
    + by intros ?%elem_of_nil.
  - intros u e. unfold in_edges, vec_at; simpl. case_decide; [|by intros ?%elem_of_nil].
    destruct (replicate (Z.to_nat n) [] !! Z.to_nat u) as [row|] eqn:Hrow; simpl.
    + apply lookup_replicate in Hrow as [-> _]. by intros ?%elem_of_nil.
    + by intros ?%elem_of_nil.
Qed.

Lemma wf_push_edge g u v w sc via :
  wf g → node_of g u → node_of g v → wf (push_edge g u v w sc via).
Proof.
  intros Hwf Hu Hv. split; simpl; rewrite ?length_vec_push; try apply Hwf.
  - intros u' e. fold (out_edges (push_edge g u v w sc via) u').
    rewrite out_edges_push_edge. case_decide.
    + intros [He| ->%list_elem_of_singleton]%elem_of_app; [by eapply (wf_out_target g)|done].
    + by eapply (wf_out_target g).
  - intros v' e. fold (in_edges (push_edge g u v w sc via) v').
    rewrite in_edges_push_edge. case_decide.
    + intros [He| ->%list_elem_of_singleton]%elem_of_app; [by eapply (wf_in_target g)|done].
    + by eapply (wf_in_target g).
Qed.

Lemma wf_with_rank g u r : wf g → wf (with_rank g u r).
Proof.
  intros Hwf. split; simpl; rewrite ?length_vec_set; try apply Hwf.
Qed.

Lemma wf_mark_contracted g node : wf g → wf (mark_contracted g node).
Proof.
  intros Hwf. split; simpl; rewrite ?length_vec_set; try apply Hwf.
Qed.

Lemma wf_with_order g order : wf g → wf (with_order g order).
Proof. intros Hwf. split; simpl; apply Hwf. Qed.

Lemma nonneg_push_edge g u v w sc via :
  wf g → node_of g u → node_of g v → 0 ≤ w → nonneg g → nonneg (push_edge g u v w sc via).
Proof.
  intros Hwf Hu Hv Hw [Hout Hin]. split.
  - intros x e. rewrite out_edges_push_edge. case_decide; [|by apply Hout].
    intros [He| ->%list_elem_of_singleton]%elem_of_app; [by eapply Hout|done].
  - intros x e. rewrite in_edges_push_edge. case_decide; [|by apply Hin].
    intros [He| ->%list_elem_of_singleton]%elem_of_app; [by eapply Hin|done].
Qed.

Lemma nonneg_new n : nonneg (CHGraph_new n).
Proof.
  assert (∀ i, default [] (replicate (Z.to_nat n) ([] : list Edge) !! i) = []) as Hrow.
  { intros i. destruct (replicate _ _ !! i) as [row|] eqn:Hr; [|done].
    by apply lookup_replicate in Hr as [-> _]. }
  split; intros u e; unfold out_edges, in_edges, vec_at; simpl;
    (case_decide; [rewrite Hrow|]); by intros ?%elem_of_nil.
Qed.

Lemma nonneg_mark_contracted g v : nonneg g → nonneg (mark_contracted g v).
Proof. intros [? ?]. by split. Qed.

(** ** Invariants of the contraction loops *)

Section contract_invariant.
Context (P : CHGraph → Z → Prop) (node hop_limit : Z).

Lemma contract_inner_inv u d_uv out_neighbors :
  (∀ g a oe,
      P g a → oe ∈ out_neighbors → u ≠ target oe → a < max_shortcuts →
      witness_search g u (target oe) (dadd d_uv (weight oe)) node hop_limit = false →
      P (push_edge g u (target oe) (dadd d_uv (weight oe)) true node) (a + 1)) →
  ∀ g a, P g a →
    match contract_inner node hop_limit u d_uv out_neighbors g a with
    | Next r | Ret r => P r.1 r.2
    end.
Proof.
  induction out_neighbors as [|oe rest IH]; intros Hpush g a HP; simpl; [done|].
  assert (∀ g a oe', P g a → oe' ∈ rest → u ≠ target oe' → a < max_shortcuts →
      witness_search g u (target oe') (dadd d_uv (weight oe')) node hop_limit = false →
      P (push_edge g u (target oe') (dadd d_uv (weight oe')) true node) (a + 1)) as Hrest.
  { intros g' a' oe' ? ? ? ? ?. apply Hpush; auto. by right. }
  destruct (decide (u = target oe)); [by apply IH|].
  destruct (decide (a >= max_shortcuts)); [done|].
  destruct (witness_search g u (target oe) (dadd d_uv (weight oe)) node hop_limit) eqn:Hw.
  - by apply IH.
  - apply IH; [done|]. apply Hpush; auto; [by left|lia].
Qed.

Lemma contract_outer_inv in_neighbors out_neighbors :
  (∀ g a ie oe,
      P g a → ie ∈ in_neighbors → oe ∈ out_neighbors →
      target ie ≠ target oe → a < max_shortcuts →
      witness_search g (target ie) (target oe) (dadd (weight ie) (weight oe)) node hop_limit
        = false →
      P (push_edge g (target ie) (target oe) (dadd (weight ie) (weight oe)) true node) (a + 1)) →
  ∀ g a, P g a →
    P (contract_outer node hop_limit in_neighbors out_neighbors g a).1
      (contract_outer node hop_limit in_neighbors out_neighbors g a).2.
Proof.
  induction in_neighbors as [|ie rest IH]; intros Hpush g a HP; simpl; [done|].
  pose proof (contract_inner_inv (target ie) (weight ie) out_neighbors) as Hin.
  specialize (Hin (λ g a oe HP Hoe, Hpush g a ie oe HP ltac:(by left) Hoe) g a HP).
  destruct (contract_inner node hop_limit (target ie) (weight ie) out_neighbors g a)
    as [[g' a']|[g' a']]; simpl in *; [|done].
  apply IH; [|done]. intros g2 a2 ie' oe ? ? ? ? ? ?. apply Hpush; auto. by right.
Qed.
End contract_invariant.

Lemma elem_of_uncontracted_edges g row e :
  e ∈ uncontracted_edges g row ↔ e ∈ row ∧ is_contracted g (target e) = false.
Proof.
  unfold uncontracted_edges. rewrite !list_elem_of_In, filter_In.
  by rewrite negb_true_iff.
Qed.

(** The general shape of an invariant of [contract_node]: it holds once
    the node is marked, and every shortcut insertion keeps it. *)
Lemma contract_node_inv (P : CHGraph → Z → Prop) g node :
  P (mark_contracted g node) 0 →
  (∀ g' a ie oe hop_limit,
      P g' a →
      ie ∈ in_edges g node → is_contracted (mark_contracted g node) (target ie) = false →
      oe ∈ out_edges g node → is_contracted (mark_contracted g node) (target oe) = false →
      target ie ≠ target oe → a < max_shortcuts →
      witness_search g' (target ie) (target oe) (dadd (weight ie) (weight oe)) node hop_limit
        = false →
      P (push_edge g' (target ie) (target oe) (dadd (weight ie) (weight oe)) true node) (a + 1)) →
  P (contract_node g node).1 (contract_node g node).2.
Proof.
  intros H0 Hpush. unfold contract_node. apply contract_outer_inv; [|done].
  intros g' a ie oe HP [Hie Hiec]%elem_of_uncontracted_edges
    [Hoe Hoec]%elem_of_uncontracted_edges Hne Ha Hw.
  by eapply Hpush.
Qed.

(** ** What contraction and building leave alone *)

Lemma contract_node_fields g node :
  num_nodes (contract_node g node).1 = num_nodes g
  ∧ rank (contract_node g node).1 = rank g
  ∧ contracted (contract_node g node).1 = vec_set (contracted g) node true
  ∧ node_order (contract_node g node).1 = node_order g.
Proof.
  apply (contract_node_inv
    (λ g' _, num_nodes g' = num_nodes g ∧ rank g' = rank g
             ∧ contracted g' = vec_set (contracted g) node true
             ∧ node_order g' = node_order g)); [done|].
  intros g' a ie oe hop HP _ _ _ _ _ _ _. apply HP.
Qed.

Lemma is_contracted_mark g node x :
  is_contracted (mark_contracted g node) x
  = if decide (node = x ∧ in_vec (contracted g) node) then true else is_contracted g x.
Proof. apply vec_at_set. Qed.

Lemma wf_contract_node g node : wf g → wf (contract_node g node).1.
Proof.
  intros Hwf.
  apply (contract_node_inv (λ g' _, wf g' ∧ num_nodes g' = num_nodes g)).
  - split; [by apply wf_mark_contracted|done].
  - intros g' a ie oe hop [Hwf' Hn] Hie _ Hoe _ _ _ _. split; [|done].
    apply wf_push_edge; [done| |]; unfold node_of; rewrite Hn.
    + by eapply (wf_in_target g).
    + by eapply (wf_out_target g).
Qed.

Lemma wf_build_loop nodes : ∀ g r g',
  wf g → build_loop g r nodes = Returns g' → wf g'.
Proof.
  induction nodes as [|node rest IH]; intros g r g' Hwf; simpl.
  - by intros [= <-].
  - case_decide; [|done]. apply IH. by apply wf_contract_node, wf_with_rank.
Qed.

Lemma wf_build_ch g order g' : wf g → build_ch g order = Returns g' → wf g'.
Proof. intros Hwf. apply wf_build_loop. by apply wf_with_order. Qed.

Lemma wf_add_ch_edge g u v w sc via g' :
  wf g → add_ch_edge g u v w sc via = Returns g' → wf g'.
Proof.
  intros Hwf. unfold add_ch_edge. case_decide as Huv; [|done]. intros [= <-].
  destruct Huv as [Hu Hv].
  apply wf_push_edge; [done| |].
  - by rewrite (node_of_in_vec g (adj_out g)) by apply Hwf.
  - by rewrite (node_of_in_vec g (adj_in g)) by apply Hwf.
Qed.

Lemma wf_set_rank g u r g' : wf g → set_rank g u r = Returns g' → wf g'.
Proof.
  intros Hwf. unfold set_rank. case_decide; intros [= <-]; [|done].
  by apply wf_with_rank.
Qed.

(** ** Graphs the host can make *)

Lemma reachable_wf g : reachable g → wf g.
Proof.
  induction 1.
  - by apply wf_new.
  - by eapply wf_add_ch_edge.
  - by eapply wf_add_ch_edge.
  - by eapply wf_set_rank.
  - by eapply wf_build_ch.
Qed.

(** ** Symmetry of the two adjacency vectors *)

Lemma occurrences_snoc e e' row :
  occurrences e (row ++ [e']) = (occurrences e row + (if decide (e' = e) then 1 else 0))%nat.
Proof.
  unfold occurrences. rewrite count_occ_app. simpl.
  destruct (Edge_eq_dec e' e); by rewrite ?decide_True, ?decide_False by done.
Qed.

Lemma mirrored_push_edge g u v w sc via :
  wf g → node_of g u → node_of g v → mirrored g → mirrored (push_edge g u v w sc via).
Proof.
  intros Hwf Hu Hv Hm u' v' w' sc' via'.
  rewrite out_edges_push_edge, in_edges_push_edge.
  rewrite (node_of_in_vec g (adj_out g)) in Hu by apply Hwf.
  rewrite (node_of_in_vec g (adj_in g)) in Hv by apply Hwf.
  specialize (Hm u' v' w' sc' via').
  repeat case_decide; rewrite ?occurrences_snoc; repeat case_decide;
    destruct_and?; simplify_eq; try lia; try (exfalso; naive_solver).
Qed.

Lemma mirrored_new n : mirrored (CHGraph_new n).
Proof.
  intros u v w sc via. unfold out_edges, in_edges, vec_at; simpl.
  assert (∀ i, default [] (replicate (Z.to_nat n) ([] : list Edge) !! i) = []) as Hrow.
  { intros i. destruct (replicate _ _ !! i) as [row|] eqn:Hr; [|done].
    by apply lookup_replicate in Hr as [-> _]. }
  repeat case_decide; by rewrite ?Hrow.
Qed.

Lemma mirrored_contract_node g node :
  wf g → mirrored g → mirrored (contract_node g node).1.
Proof.
  intros Hwf Hm.
  apply (contract_node_inv
    (λ g' _, wf g' ∧ num_nodes g' = num_nodes g ∧ mirrored g')).
  - split; [by apply wf_mark_contracted|done].
  - intros g' a ie oe hop (Hwf' & Hn & Hm') Hie _ Hoe _ _ _ _.
    assert (node_of g' (target ie)).
    { unfold node_of. rewrite Hn. by eapply (wf_in_target g). }
    assert (node_of g' (target oe)).
    { unfold node_of. rewrite Hn. by eapply (wf_out_target g). }
    split_and!; [by apply wf_push_edge|done|by apply mirrored_push_edge].
Qed.

Lemma mirrored_build_loop nodes : ∀ g r g',
  wf g → mirrored g → build_loop g r nodes = Returns g' → mirrored g'.
Proof.
  induction nodes as [|node rest IH]; intros g r g' Hwf Hm; simpl.
  - by intros [= <-].
  - case_decide; [|done]. apply IH.
    + by apply wf_contract_node, wf_with_rank.
    + apply mirrored_contract_node; [by apply wf_with_rank|done].
Qed.

Lemma reachable_mirrored g : reachable g → mirrored g.
Proof.
  induction 1 as [n Hn|g u v w g' Hr IH Hadd|g u v w sc via g' Hr IH Hadd
                  |g u r g' Hr IH Hset|g order g' Hr IH Hb].
  - apply mirrored_new.
  - pose proof (reachable_wf _ Hr) as Hwf.
    unfold add_edge, add_ch_edge in Hadd. case_decide as Huv; [|done].
    injection Hadd as <-. destruct Huv as [Hu Hv].
    apply mirrored_push_edge; [done| | |done].
    + by rewrite (node_of_in_vec g (adj_out g)) by apply Hwf.
    + by rewrite (node_of_in_vec g (adj_in g)) by apply Hwf.
  - pose proof (reachable_wf _ Hr) as Hwf.
    unfold add_ch_edge in Hadd. case_decide as Huv; [|done].
    injection Hadd as <-. destruct Huv as [Hu Hv].
    apply mirrored_push_edge; [done| | |done].
    + by rewrite (node_of_in_vec g (adj_out g)) by apply Hwf.
    + by rewrite (node_of_in_vec g (adj_in g)) by apply Hwf.
  - unfold set_rank in Hset. case_decide; by injection Hset as <-.
  - pose proof (reachable_wf _ Hr) as Hwf.
    apply (mirrored_build_loop order (with_order g order) 0 g');
      [by apply wf_with_order|exact IH|exact Hb].
Qed.

Lemma mirrored_in_of_out g u e :
  mirrored g → e ∈ out_edges g u →
  mkEdge u (weight e) (is_shortcut e) (via_node e) ∈ in_edges g (target e).
Proof.
  intros Hm He. destruct e as [v w sc via]; simpl.
  apply list_elem_of_In, (count_occ_In Edge_eq_dec).
  apply list_elem_of_In, (count_occ_In Edge_eq_dec) in He.
  specialize (Hm u v w sc via). unfold occurrences in Hm. lia.
Qed.

Lemma mirrored_out_of_in g v e :
  mirrored g → e ∈ in_edges g v →
  mkEdge v (weight e) (is_shortcut e) (via_node e) ∈ out_edges g (target e).
Proof.
  intros Hm He. destruct e as [u w sc via]; simpl.
  apply list_elem_of_In, (count_occ_In Edge_eq_dec).
  apply list_elem_of_In, (count_occ_In Edge_eq_dec) in He.
  specialize (Hm u v w sc via). unfold occurrences in Hm. lia.
Qed.

Lemma push_edge_rows g u v w sc via :
  wf g → node_of g u → node_of g v →
  out_edges (push_edge g u v w sc via) u = out_edges g u ++ [mkEdge v w sc via]
  ∧ in_edges (push_edge g u v w sc via) v = in_edges g v ++ [mkEdge u w sc via]
  ∧ (∀ x, x ≠ u → out_edges (push_edge g u v w sc via) x = out_edges g x)
  ∧ (∀ x, x ≠ v → in_edges (push_edge g u v w sc via) x = in_edges g x).
Proof.
  intros Hwf Hu Hv.
  rewrite (node_of_in_vec g (adj_out g)) in Hu by apply Hwf.
  rewrite (node_of_in_vec g (adj_in g)) in Hv by apply Hwf.
  split_and!.
  - by apply vec_at_push_eq.
  - by apply vec_at_push_eq.
  - intros x Hx. by apply vec_at_push_ne.
  - intros x Hx. by apply vec_at_push_ne.
Qed.

(** ** Index handling of the mutators *)

(** C10.  [set_rank(u, r)] with [u] outside [[0, N)] returns normally and
    gives back the graph it was given: adjacency, ranks and contracted
    flags are untouched, and no error is raised. *)
Theorem set_rank_out_of_range g u r :
  ¬ (0 ≤ u < num_nodes g) → set_rank g u r = Returns g.
Proof. intros Hu. unfold set_rank. rewrite decide_False; [done|lia]. Qed.

Lemma set_rank_out_of_range_witness :
  ¬ (0 ≤ 5 < num_nodes (CHGraph_new 1))
  ∧ set_rank (CHGraph_new 1) 5 3 = Returns (CHGraph_new 1).
Proof.
  assert (¬ (0 ≤ 5 < num_nodes (CHGraph_new 1))) as Hu by (simpl; lia).
  split; [exact Hu|]. exact (set_rank_out_of_range (CHGraph_new 1) 5 3 Hu).
Defined.

(** C8, as stated, fails: an out-of-range [set_rank] is not an error. *)
Lemma mutators_invalid_index_counterexample :
  ¬ (0 ≤ 5 < num_nodes (CHGraph_new 1))
  ∧ set_rank (CHGraph_new 1) 5 3 = Returns (CHGraph_new 1)
  ∧ set_rank (CHGraph_new 1) 5 3 ≠ Raises InvalidIndex.
Proof. split; [simpl; lia|]. split; [reflexivity|discriminate]. Qed.

(** C8, amended.  No mutator reports [InvalidIndex].  [set_rank(u, r)]
    with [u] outside [[0, N)] returns normally and leaves the graph
    unchanged.  [add_edge] and [add_ch_edge] do not check their indices:
    with both of them in [[0, N)] they return normally, having appended
    the edge, and with one of them outside the access to the vector is
    unchecked, which is undefined behaviour and not a reported error. *)
Theorem mutators_index_handling g :
  wf g →
  (∀ u r, ¬ node_of g u → set_rank g u r = Returns g)
  ∧ (∀ u r e, set_rank g u r ≠ Raises e)
  ∧ (∀ u v w sc via, node_of g u → node_of g v →
        add_ch_edge g u v w sc via = Returns (push_edge g u v w sc via))
  ∧ (∀ u v w sc via, ¬ (node_of g u ∧ node_of g v) →
        add_ch_edge g u v w sc via = Undefined)
  ∧ (∀ u v w, node_of g u → node_of g v →
        add_edge g u v w = Returns (push_edge g u v w false (-1)))
  ∧ (∀ u v w, ¬ (node_of g u ∧ node_of g v) → add_edge g u v w = Undefined).
Proof.
  intros Hwf.
  assert (∀ u v, node_of g u ∧ node_of g v
                 ↔ in_vec (adj_out g) u ∧ in_vec (adj_in g) v) as Hiff.
  { intros u v.
    by rewrite <-(node_of_in_vec g (adj_out g)), <-(node_of_in_vec g (adj_in g))
      by apply Hwf. }
  split_and!.
  - intros u r Hu. unfold set_rank. rewrite decide_False; [done|]. unfold node_of in Hu. lia.
  - intros u r e. unfold set_rank. by case_decide.
  - intros u v w sc via Hu Hv. unfold add_ch_edge. rewrite decide_True; [done|].
    by apply Hiff.
  - intros u v w sc via Huv. unfold add_ch_edge. rewrite decide_False; [done|].
    by rewrite <-Hiff.
  - intros u v w Hu Hv. unfold add_edge, add_ch_edge. rewrite decide_True; [done|].
    by apply Hiff.
  - intros u v w Huv. unfold add_edge, add_ch_edge. rewrite decide_False; [done|].
    by rewrite <-Hiff.
Qed.

Lemma mutators_index_handling_witness :
  wf (CHGraph_new 1)
  ∧ set_rank (CHGraph_new 1) 5 3 = Returns (CHGraph_new 1)
  ∧ add_edge (CHGraph_new 1) 0 7 10 = Undefined.
Proof.
  assert (wf (CHGraph_new 1)) as Hwf by (apply wf_new; unfold int_max; lia).
  split; [exact Hwf|].
  destruct (mutators_index_handling _ Hwf) as (Hset & _ & _ & _ & _ & Hadd).
  split.
  - apply Hset. unfold node_of. simpl. lia.
  - apply Hadd. unfold node_of. simpl. lia.
Defined.

(** ** Shortcuts inserted by one contraction *)

Lemma edge_total_cons row adj :
  edge_total (row :: adj) = (length row + edge_total adj)%nat.
Proof. done. Qed.

Lemma edge_total_alter (adj : list (list Edge)) (i : nat) x :
  (i < length adj)%nat →
  edge_total (alter (λ row, row ++ [x]) i adj) = S (edge_total adj).
Proof.
  revert i. induction adj as [|row adj IH]; intros [|i] Hi; simpl in Hi; try lia.
  - change (edge_total ((row ++ [x]) :: adj) = S (edge_total (row :: adj))).
    rewrite !edge_total_cons, length_app. simpl. lia.
  - change (edge_total (row :: alter (λ row, row ++ [x]) i adj)
            = S (edge_total (row :: adj))).
    rewrite !edge_total_cons, IH by lia. lia.
Qed.

Lemma edge_total_push (adj : list (list Edge)) i x :
  in_vec adj i → edge_total (vec_push adj i x) = S (edge_total adj).
Proof.
  intros [Hi Hlen]. unfold vec_push. rewrite decide_True by done.
  apply edge_total_alter. lia.
Qed.

Lemma contract_inner_capped node hop_limit u d_uv out_neighbors g a :
  a >= max_shortcuts →
  match contract_inner node hop_limit u d_uv out_neighbors g a with
  | Next r | Ret r => r = (g, a)
  end.
Proof.
  intros Ha. induction out_neighbors as [|oe rest IH]; simpl; [done|].
  destruct (decide (u = target oe)); [done|]. by rewrite decide_True.
Qed.

Lemma contract_outer_capped node hop_limit in_neighbors out_neighbors g a :
  a >= max_shortcuts →
  contract_outer node hop_limit in_neighbors out_neighbors g a = (g, a).
Proof.
  intros Ha. induction in_neighbors as [|ie rest IH]; simpl; [done|].
  pose proof (contract_inner_capped node hop_limit (target ie) (weight ie)
                out_neighbors g a Ha) as Hin.
  destruct (contract_inner _ _ _ _ _ _ _) as [r|r]; subst r; done.
Qed.

(** C7.  [contract_node(v)] inserts at most 100 shortcuts and returns
    the number it inserted: both adjacency vectors grow by exactly that
    many entries, every new entry is a shortcut through [v] whose two ends
    differ, and from a count of 100 on the remaining candidate pairs
    leave the graph as it is. *)
Theorem contract_node_shortcuts g node :
  wf g →
  0 ≤ (contract_node g node).2 ≤ 100
  ∧ Z.of_nat (edge_total (adj_out (contract_node g node).1))
    = Z.of_nat (edge_total (adj_out g)) + (contract_node g node).2
  ∧ Z.of_nat (edge_total (adj_in (contract_node g node).1))
    = Z.of_nat (edge_total (adj_in g)) + (contract_node g node).2
  ∧ (∀ u, ∃ extra,
        out_edges (contract_node g node).1 u = out_edges g u ++ extra
        ∧ Forall (λ e, is_shortcut e = true ∧ via_node e = node ∧ target e ≠ u) extra)
  ∧ (∀ hop_limit in_neighbors out_neighbors g' a,
        a >= 100 →
        contract_outer node hop_limit in_neighbors out_neighbors g' a = (g', a)).
Proof.
  intros Hwf.
  cut ((λ g' a,
          wf g' ∧ num_nodes g' = num_nodes g
          ∧ 0 ≤ a ≤ 100
          ∧ Z.of_nat (edge_total (adj_out g')) = Z.of_nat (edge_total (adj_out g)) + a
          ∧ Z.of_nat (edge_total (adj_in g')) = Z.of_nat (edge_total (adj_in g)) + a
          ∧ ∀ u, ∃ extra,
              out_edges g' u = out_edges g u ++ extra
              ∧ Forall (λ e, is_shortcut e = true ∧ via_node e = node ∧ target e ≠ u) extra)
       (contract_node g node).1 (contract_node g node).2).
  { intros (_ & _ & Hk & Hout & Hin & Hextra). split_and!; try done; try lia.
    intros. by apply contract_outer_capped. }
  apply contract_node_inv.
  - split_and!; [by apply wf_mark_contracted|done|lia|lia|simpl; lia|simpl; lia|].
    intros u. exists []. by rewrite app_nil_r.
  - intros g' a ie oe hop (Hwf' & Hn & Ha & Hout & Hin & Hextra) Hie _ Hoe _ Hne Hcap _.
    unfold max_shortcuts in Hcap.
    assert (node_of g' (target ie)) as Hu.
    { unfold node_of. rewrite Hn. by eapply (wf_in_target g). }
    assert (node_of g' (target oe)) as Hv.
    { unfold node_of. rewrite Hn. by eapply (wf_out_target g). }
    split_and!; [by apply wf_push_edge|done|lia|lia|..].
    + simpl. rewrite edge_total_push; [lia|].
      by rewrite <-(node_of_in_vec g') by apply Hwf'.
    + simpl. rewrite edge_total_push; [lia|].
      by rewrite <-(node_of_in_vec g') by apply Hwf'.
    + intros u. destruct (Hextra u) as (extra & Hrow & Hall).
      rewrite out_edges_push_edge. case_decide as Hu'.
      * destruct Hu' as [<- _]. exists (extra ++ [mkEdge (target oe) (dadd (weight ie) (weight oe)) true node]).
        split; [by rewrite Hrow, app_assoc|].
        apply Forall_app. split; [done|]. apply Forall_singleton. simpl. by split_and!.
      * by exists extra.
Qed.

Lemma contract_node_shortcuts_witness :
  wf (push_edge (push_edge (CHGraph_new 3) 0 1 2 false (-1)) 1 2 3 false (-1))
  ∧ (contract_node (push_edge (push_edge (CHGraph_new 3) 0 1 2 false (-1)) 1 2 3 false (-1)) 1).2
    ≤ 100.
Proof.
  assert (wf (push_edge (push_edge (CHGraph_new 3) 0 1 2 false (-1)) 1 2 3 false (-1)))
    as Hwf.
  { apply wf_push_edge; [apply wf_push_edge; [apply wf_new|..]|..];
      unfold node_of, int_max; simpl; lia. }
  split; [exact Hwf|].
  exact (proj2 (proj1 (contract_node_shortcuts _ 1 Hwf))).
Defined.

(** ** Every insertion goes to both vectors *)

(** The entries that [contract_node] adds: as many to [adj_out] as to
    [adj_in], namely the number it returns, each at the end of a row. *)
Lemma contract_node_pushes g node :
  wf g →
  Z.of_nat (edge_total (adj_out (contract_node g node).1))
    = Z.of_nat (edge_total (adj_out g)) + (contract_node g node).2
  ∧ Z.of_nat (edge_total (adj_in (contract_node g node).1))
    = Z.of_nat (edge_total (adj_in g)) + (contract_node g node).2
  ∧ (∀ u, ∃ extra, out_edges (contract_node g node).1 u = out_edges g u ++ extra)
  ∧ (∀ v, ∃ extra, in_edges (contract_node g node).1 v = in_edges g v ++ extra).
Proof.
  intros Hwf.
  cut ((λ g' a,
          wf g' ∧ num_nodes g' = num_nodes g
          ∧ Z.of_nat (edge_total (adj_out g')) = Z.of_nat (edge_total (adj_out g)) + a
          ∧ Z.of_nat (edge_total (adj_in g')) = Z.of_nat (edge_total (adj_in g)) + a
          ∧ (∀ u, ∃ extra, out_edges g' u = out_edges g u ++ extra)
          ∧ (∀ v, ∃ extra, in_edges g' v = in_edges g v ++ extra))
       (contract_node g node).1 (contract_node g node).2).
  { by intros (_ & _ & ?). }
  apply contract_node_inv.
  - split_and!; [by apply wf_mark_contracted|done|simpl; lia|simpl; lia|..].
    + intros u. exists []. by rewrite app_nil_r.
    + intros v. exists []. by rewrite app_nil_r.
  - intros g' a ie oe hop (Hwf' & Hn & Hout & Hin & Hxo & Hxi) Hie _ Hoe _ _ _ _.
    assert (node_of g' (target ie)) as Hu.
    { unfold node_of. rewrite Hn. by eapply (wf_in_target g). }
    assert (node_of g' (target oe)) as Hv.
    { unfold node_of. rewrite Hn. by eapply (wf_out_target g). }
    split_and!; [by apply wf_push_edge|done|..].
    + simpl. rewrite edge_total_push; [lia|].
      by rewrite <-(node_of_in_vec g') by apply Hwf'.
    + simpl. rewrite edge_total_push; [lia|].
      by rewrite <-(node_of_in_vec g') by apply Hwf'.
    + intros u. destruct (Hxo u) as (extra & Hrow).
      rewrite out_edges_push_edge. case_decide; [|by exists extra].
      eexists. by rewrite Hrow, <-app_assoc.
    + intros v. destruct (Hxi v) as (extra & Hrow).
      rewrite in_edges_push_edge. case_decide; [|by exists extra].
      eexists. by rewrite Hrow, <-app_assoc.
Qed.

(** C5.  On every graph obtained from a new one by [add_edge],
    [add_ch_edge], [set_rank] and [build_ch] calls that stay inside the
    vectors, each entry of [adj_out[u]] with target [v] has a matching
    entry in [adj_in[v]] that stores [u] with the same weight, shortcut
    flag and via node, the two occurring equally often.  Every insertion
    adds one entry to each side: [add_ch_edge(u, v, w, sc, via)] and
    [add_edge(u, v, w)] with [u] and [v] in range append exactly one
    entry to [adj_out[u]] and the matching one to [adj_in[v]], leaving
    every other row as it was; and [contract_node] of a node in range
    adds as many entries to [adj_out] as to [adj_in], namely the number
    of shortcuts it returns, each at the end of a row, an entry for [v]
    added to [adj_out[u]] as often as the matching entry for [u] is
    added to [adj_in[v]]. *)
Theorem adjacency_symmetric g :
  reachable g →
  (∀ u e, e ∈ out_edges g u →
          mkEdge u (weight e) (is_shortcut e) (via_node e) ∈ in_edges g (target e))
  ∧ (∀ u v w sc via,
        occurrences (mkEdge v w sc via) (out_edges g u)
        = occurrences (mkEdge u w sc via) (in_edges g v))
  ∧ (∀ u v w sc via, node_of g u → node_of g v →
        add_ch_edge g u v w sc via = Returns (push_edge g u v w sc via)
        ∧ out_edges (push_edge g u v w sc via) u = out_edges g u ++ [mkEdge v w sc via]
        ∧ in_edges (push_edge g u v w sc via) v = in_edges g v ++ [mkEdge u w sc via]
        ∧ (∀ x, x ≠ u → out_edges (push_edge g u v w sc via) x = out_edges g x)
        ∧ (∀ x, x ≠ v → in_edges (push_edge g u v w sc via) x = in_edges g x))
  ∧ (∀ u v w, node_of g u → node_of g v →
        ∃ g', add_edge g u v w = Returns g'
              ∧ out_edges g' u = out_edges g u ++ [mkEdge v w false (-1)]
              ∧ in_edges g' v = in_edges g v ++ [mkEdge u w false (-1)]
              ∧ (∀ x, x ≠ u → out_edges g' x = out_edges g x)
              ∧ (∀ x, x ≠ v → in_edges g' x = in_edges g x)
              ∧ edge_total (adj_out g') = S (edge_total (adj_out g))
              ∧ edge_total (adj_in g') = S (edge_total (adj_in g)))
  ∧ (∀ node, node_of g node →
        Z.of_nat (edge_total (adj_out (contract_node g node).1))
          = Z.of_nat (edge_total (adj_out g)) + (contract_node g node).2
        ∧ Z.of_nat (edge_total (adj_in (contract_node g node).1))
          = Z.of_nat (edge_total (adj_in g)) + (contract_node g node).2
        ∧ ∀ u v, ∃ new_out new_in,
            out_edges (contract_node g node).1 u = out_edges g u ++ new_out
            ∧ in_edges (contract_node g node).1 v = in_edges g v ++ new_in
            ∧ ∀ w sc via,
                occurrences (mkEdge v w sc via) new_out
                = occurrences (mkEdge u w sc via) new_in).
Proof.
  intros Hr. pose proof (reachable_wf _ Hr) as Hwf.
  pose proof (reachable_mirrored _ Hr) as Hm.
  assert (∀ u v, node_of g u → node_of g v →
                 in_vec (adj_out g) u ∧ in_vec (adj_in g) v) as Hvec.
  { intros u v Hu Hv.
    by rewrite <-(node_of_in_vec g (adj_out g)), <-(node_of_in_vec g (adj_in g))
      by apply Hwf. }
  split_and!.
  - intros u e. by apply mirrored_in_of_out.
  - exact Hm.
  - intros u v w sc via Hu Hv. split; [|by apply push_edge_rows].
    unfold add_ch_edge. rewrite decide_True; [done|]. by apply Hvec.
  - intros u v w Hu Hv. exists (push_edge g u v w false (-1)).
    destruct (push_edge_rows g u v w false (-1) Hwf Hu Hv) as (Ho & Hi & Hox & Hix).
    destruct (Hvec u v Hu Hv) as [Hvu Hvv].
    split_and!; try done.
    + unfold add_edge, add_ch_edge. by rewrite decide_True.
    + simpl. by apply edge_total_push.
    + simpl. by apply edge_total_push.
  - intros node Hnode.
    destruct (contract_node_pushes g node Hwf) as (Hout & Hin & Hxo & Hxi).
    split; [done|]. split; [done|]. intros u v.
    destruct (Hxo u) as [new_out Ho]. destruct (Hxi v) as [new_in Hi].
    exists new_out, new_in. split; [done|]. split; [done|]. intros w sc via.
    pose proof (mirrored_contract_node g node Hwf Hm u v w sc via) as Hm'.
    specialize (Hm u v w sc via). unfold occurrences in *.
    rewrite Ho, Hi, !count_occ_app in Hm'. lia.
Qed.

Lemma adjacency_symmetric_witness :
  reachable (push_edge (CHGraph_new 2) 0 1 5 false (-1))
  ∧ mkEdge 0 5 false (-1) ∈ in_edges (push_edge (CHGraph_new 2) 0 1 5 false (-1)) 1
  ∧ ∃ g', add_edge (push_edge (CHGraph_new 2) 0 1 5 false (-1)) 1 0 7 = Returns g'
          ∧ in_edges g' 0 = [mkEdge 1 7 false (-1)].
Proof.
  assert (reachable (push_edge (CHGraph_new 2) 0 1 5 false (-1))) as Hr.
  { apply (reachable_add_edge (CHGraph_new 2) 0 1 5).
    - apply reachable_new. unfold int_max. lia.
    - reflexivity. }
  split; [exact Hr|].
  destruct (adjacency_symmetric _ Hr) as (Hmem & _ & _ & Hadd & _). split.
  - apply (Hmem 0 (mkEdge 1 5 false (-1))). vm_compute. left.
  - destruct (Hadd 1 0 7) as (g' & Hg' & _ & Hin & _);
      [unfold node_of; simpl; lia|unfold node_of; simpl; lia|].
    exists g'. split; [exact Hg'|]. rewrite Hin. reflexivity.
Defined.

Example contract_node_inserts_one :
  (contract_node (push_edge (push_edge (CHGraph_new 3) 0 1 2 false (-1)) 1 2 3 false (-1)) 1).2
  = 1.
Proof. vm_compute. reflexivity. Qed.

(** ** Ranks assigned by [build_ch] *)

Lemma rank_of_contract_with_rank g node r x :
  rank_of (contract_node (with_rank g node r) node).1 x
  = if decide (node = x ∧ in_vec (rank g) node) then r else rank_of g x.
Proof.
  unfold rank_of. destruct (contract_node_fields (with_rank g node r) node) as (_ & -> & _).
  apply vec_at_set.
Qed.

Lemma is_contracted_contract_with_rank g node r x :
  is_contracted (contract_node (with_rank g node r) node).1 x
  = if decide (node = x ∧ in_vec (contracted g) node) then true else is_contracted g x.
Proof.
  unfold is_contracted.
  destruct (contract_node_fields (with_rank g node r) node) as (_ & _ & -> & _).
  apply vec_at_set.
Qed.

Lemma build_loop_num_nodes nodes : ∀ g r g',
  build_loop g r nodes = Returns g' → num_nodes g' = num_nodes g.
Proof.
  induction nodes as [|node rest IH]; intros g r g'; simpl.
  - by intros [= <-].
  - case_decide; [|done]. intros Hb. apply IH in Hb. rewrite Hb.
    by destruct (contract_node_fields (with_rank g node r) node) as (-> & _).
Qed.

Lemma build_loop_ranks nodes : ∀ g r g',
  NoDup nodes → build_loop g r nodes = Returns g' →
  (∀ i x, nodes !! i = Some x →
          rank_of g' x = r + Z.of_nat i ∧ is_contracted g' x = true)
  ∧ (∀ x, x ∉ nodes →
          rank_of g' x = rank_of g x ∧ is_contracted g' x = is_contracted g x).
Proof.
  induction nodes as [|node rest IH]; intros g r g' Hnd; simpl.
  - intros [= <-]. split; [by intros i x ?|done].
  - case_decide as Hin; [|done]. intros Hb.
    apply NoDup_cons in Hnd as [Hnode Hnd].
    destruct (IH _ _ _ Hnd Hb) as [Hin_rest Hout_rest].
    destruct Hin as (Hr & Hc & _). split.
    + intros [|i] x Hx; simpl in Hx.
      * injection Hx as <-. destruct (Hout_rest node Hnode) as [-> ->].
        rewrite rank_of_contract_with_rank, is_contracted_contract_with_rank.
        rewrite !decide_True by done. split; [lia|done].
      * destruct (Hin_rest i x Hx) as [-> ->]. split; [lia|done].
    + intros x [Hne Hx]%not_elem_of_cons. destruct (Hout_rest x Hx) as [-> ->].
      rewrite rank_of_contract_with_rank, is_contracted_contract_with_rank.
      rewrite !decide_False; [done| |]; intros [? _]; congruence.
Qed.

Lemma build_loop_returns nodes : ∀ g r,
  wf g → Forall (node_of g) nodes → r + Z.of_nat (length nodes) ≤ int_max →
  ∃ g', build_loop g r nodes = Returns g'.
Proof.
  induction nodes as [|node rest IH]; intros g r Hwf Hall Hr; simpl.
  - by eexists.
  - apply Forall_cons in Hall as [Hnode Hall].
    rewrite length_cons, Nat2Z.inj_succ in Hr.
    rewrite decide_True.
    + apply IH; [by apply wf_contract_node, wf_with_rank| |lia].
      eapply Forall_impl; [exact Hall|]. intros x. unfold node_of.
      by destruct (contract_node_fields (with_rank g node r) node) as (-> & _).
    + rewrite <-(node_of_in_vec g (rank g)), <-(node_of_in_vec g (contracted g))
        by apply Hwf.
      split_and!; [done|done|lia].
Qed.

Lemma build_loop_snoc done node : ∀ g r gd,
  build_loop g r done = Returns gd →
  build_loop g r (done ++ [node])
  = build_loop gd (r + Z.of_nat (length done)) [node].
Proof.
  remember [node] as tl eqn:Htl.
  induction done as [|x done IH]; intros g r gd; cbn [build_loop app length].
  - intros [= <-]. by rewrite Z.add_0_r.
  - case_decide; [|done]. intros Hb. rewrite (IH _ _ _ Hb).
    rewrite Nat2Z.inj_succ. f_equal. lia.
Qed.

Lemma build_loop_prefix done rest : ∀ g r g',
  build_loop g r (done ++ rest) = Returns g' →
  ∃ gd, build_loop g r done = Returns gd
        ∧ build_loop gd (r + Z.of_nat (length done)) rest = Returns g'.
Proof.
  induction done as [|x done IH]; intros g r g'; cbn [build_loop app length].
  - intros Hb. exists g. by rewrite Z.add_0_r.
  - case_decide; [|done]. intros Hb. destruct (IH _ _ _ Hb) as (gd & Hd & Hrest).
    exists gd. split; [done|]. rewrite <-Hrest.
    rewrite Nat2Z.inj_succ. f_equal. lia.
Qed.

Lemma distinct_nodes_length g nodes :
  0 ≤ num_nodes g → NoDup nodes → Forall (node_of g) nodes →
  Z.of_nat (length nodes) ≤ num_nodes g.
Proof.
  intros Hn Hnd Hall.
  assert (nodes ⊆+ seqZ 0 (num_nodes g)) as Hsub.
  { apply NoDup_submseteq; [done|]. intros x Hx. apply elem_of_seqZ.
    rewrite Forall_forall in Hall. apply Hall in Hx. unfold node_of in Hx. lia. }
  apply submseteq_length in Hsub. rewrite length_seqZ in Hsub. lia.
Qed.

Lemma add_edges_fresh es : ∀ g g',
  add_edges g es = Returns g' →
  num_nodes g' = num_nodes g ∧ rank g' = rank g ∧ contracted g' = contracted g.
Proof.
  induction es as [|[[u v] w] es IH]; intros g g'; simpl.
  - by intros [= <-].
  - unfold add_edge, add_ch_edge. case_decide; [|done]. intros Hadd.
    by apply IH in Hadd.
Qed.

Lemma wf_add_edges es : ∀ g g', wf g → add_edges g es = Returns g' → wf g'.
Proof.
  induction es as [|[[u v] w] es IH]; intros g g' Hwf; simpl.
  - by intros [= <-].
  - destruct (add_edge g u v w) as [g1| |] eqn:Hadd; try done.
    apply IH. by eapply wf_add_ch_edge.
Qed.

Lemma new_graph_unranked n x :
  rank_of (CHGraph_new n) x = -1 ∧ is_contracted (CHGraph_new n) x = false.
Proof.
  unfold rank_of, is_contracted, vec_at; simpl. case_decide; [|done].
  split.
  - destruct (replicate _ _ !! _) as [r|] eqn:Hr; [|done].
    by apply lookup_replicate in Hr as [-> _].
  - destruct (replicate (Z.to_nat n) false !! _) as [r|] eqn:Hr; [|done].
    by apply lookup_replicate in Hr as [-> _].
Qed.

(** C6.  For an ordering that lists in-range nodes, each at most once,
    [build_ch(order)] returns; the node at position [i] of the ordering
    has rank [i] and is contracted, so the ranks along the ordering are
    0, 1, 2, ...; the nodes are contracted one after the other in that
    order; a node that is not in the ordering keeps its rank and its
    contracted flag, which are [-1] and [false] on a graph that only
    received base edges since its construction. *)
Theorem build_ch_ranks g order :
  wf g → NoDup order → Forall (node_of g) order →
  ∃ g', build_ch g order = Returns g'
    ∧ (∀ i x, order !! i = Some x →
              rank_of g' x = Z.of_nat i ∧ is_contracted g' x = true)
    ∧ rank_of g' <$> order = seqZ 0 (Z.of_nat (length order))
    ∧ (∀ done node rest gd,
          order = done ++ node :: rest →
          build_loop (with_order g order) 0 done = Returns gd →
          build_loop (with_order g order) 0 (done ++ [node])
          = Returns (contract_node (with_rank gd node (Z.of_nat (length done))) node).1)
    ∧ (∀ x, x ∉ order →
            rank_of g' x = rank_of g x ∧ is_contracted g' x = is_contracted g x)
    ∧ (∀ n es, add_edges (CHGraph_new n) es = Returns g →
               ∀ x, x ∉ order → rank_of g' x = -1 ∧ is_contracted g' x = false).
Proof.
  intros Hwf Hnd Hall.
  pose proof (distinct_nodes_length g order (proj1 (wf_nodes g Hwf)) Hnd Hall) as Hlen.
  pose proof (wf_nodes g Hwf) as Hn.
  destruct (build_loop_returns order (with_order g order) 0) as [g' Hb];
    [by apply wf_with_order|done|simpl; lia|].
  exists g'. split; [exact Hb|].
  destruct (build_loop_ranks order _ 0 g' Hnd Hb) as [Hin Hout].
  split_and!.
  - intros i x Hx. destruct (Hin i x Hx) as [-> ->]. split; [lia|done].
  - apply list_eq. intros i. rewrite list_lookup_fmap.
    destruct (order !! i) as [x|] eqn:Hx; simpl.
    + destruct (Hin i x Hx) as [-> _]. symmetry. apply lookup_seqZ.
      apply lookup_lt_Some in Hx. lia.
    + symmetry. apply lookup_seqZ_ge. apply lookup_ge_None in Hx. lia.
  - intros done node rest gd Horder Hd.
    rewrite (build_loop_snoc _ _ _ _ _ Hd). simpl.
    clear Hin Hout. subst order.
    destruct (build_loop_prefix _ _ _ _ _ Hb) as (gd' & Hd' & Hrest).
    rewrite Hd in Hd'. injection Hd' as <-. simpl in Hrest.
    case_decide; [|done]. by rewrite Z.add_0_l.
  - intros x Hx. by apply Hout.
  - intros n es Hes x Hx. destruct (Hout x Hx) as [-> ->].
    apply add_edges_fresh in Hes as (_ & Hrank & Hcon).
    unfold rank_of, is_contracted. simpl. rewrite Hrank, Hcon. apply new_graph_unranked.
Qed.

Lemma build_ch_ranks_witness :
  wf (CHGraph_new 2) ∧ NoDup [1; 0] ∧ Forall (node_of (CHGraph_new 2)) [1; 0]
  ∧ ∃ g', build_ch (CHGraph_new 2) [1; 0] = Returns g' ∧ rank_of g' 1 = 0.
Proof.
  assert (wf (CHGraph_new 2)) as Hwf by (apply wf_new; unfold int_max; lia).
  assert (NoDup [1; 0]) as Hnd.
  { apply NoDup_cons. split; [|apply NoDup_singleton].
    intros ?%list_elem_of_singleton. done. }
  assert (Forall (node_of (CHGraph_new 2)) [1; 0]) as Hall.
  { repeat constructor; unfold node_of; simpl; lia. }
  split_and!; [exact Hwf|exact Hnd|exact Hall|].
  destruct (build_ch_ranks _ _ Hwf Hnd Hall) as (g' & Hb & Hin & _).
  exists g'. split; [exact Hb|]. apply (Hin 0%nat 1). reflexivity.
Defined.

(** ** A query from a node to itself *)

(** C2 (failing input).  On the graph with one node and no edge,
    [query(0, 0)] records no meeting node and returns the empty path with
    distance 0.0, not the path [[0]]. *)
Theorem query_single_node fuel :
  query (S (S fuel)) (CHGraph_new 1) 0 0 = Some ([], Fin 0%Q).
Proof. reflexivity. Qed.

(** On a two-node cycle the query from the lower-ranked node to itself
    goes round the cycle. *)
Example query_two_cycle :
  query_on 20 (make 2 [(0, 1, 1000); (1, 0, 1000)] [0; 1]) 0 0
  = Some ([0; 1; 0], Fin (2000 # 1000)%Q).
Proof. vm_compute. reflexivity. Qed.

(** ** Termination of [unpack] *)

Lemma unpack_more_fuel fuel : ∀ g u v path path' fuel',
  unpack fuel g u v path = Some path' → (fuel ≤ fuel')%nat →
  unpack fuel' g u v path = Some path'.
Proof.
  induction fuel as [|fuel IH]; intros g u v path path' fuel'; simpl; [done|].
  intros Hu Hle. destruct fuel' as [|fuel']; [lia|]. simpl.
  destruct (List.find (is_packed v) (out_edges g u)) as [e|]; [|done].
  destruct (unpack fuel g u (via_node e) path) as [p1|] eqn:H1; [|done].
  rewrite (IH _ _ _ _ _ fuel' H1) by lia. apply IH; [done|lia].
Qed.

Lemma unpack_returns lvl g :
  via_below lvl g →
  ∀ fuel u v path, (Nat.min (lvl u) (lvl v) < fuel)%nat →
                   ∃ path', unpack fuel g u v path = Some path'.
Proof.
  intros Hvia. induction fuel as [|fuel IH]; intros u v path Hlt; [lia|]. simpl.
  destruct (List.find (is_packed v) (out_edges g u)) as [e|] eqn:Hfind; [|by eexists].
  apply find_some in Hfind as [He Hp]. apply list_elem_of_In in He.
  unfold is_packed in Hp. apply andb_true_iff in Hp as [Hp Hv].
  apply andb_true_iff in Hp as [Ht Hsc].
  apply bool_decide_eq_true in Ht. apply negb_true_iff, bool_decide_eq_false in Hv.
  destruct (Hvia u e He Hsc Hv) as [Hlu Hlv]. rewrite Ht in Hlv.
  destruct (IH u (via_node e) path) as [p1 Hp1]; [lia|]. rewrite Hp1.
  apply IH. lia.
Qed.

Lemma first_index_lookup l : ∀ k x, l !! k = Some x → (first_index x l ≤ k)%nat.
Proof.
  induction l as [|y l IH]; intros [|k] x; simpl; try done.
  - intros [= ->]. by rewrite decide_True.
  - intros Hx. case_decide; [lia|]. apply IH in Hx. lia.
Qed.

Lemma first_index_app l1 l2 x :
  x ∉ l1 → first_index x (l1 ++ l2) = (length l1 + first_index x l2)%nat.
Proof.
  induction l1 as [|y l1 IH]; simpl; [done|].
  intros [Hne Hx]%not_elem_of_cons. rewrite decide_False by done. by rewrite IH.
Qed.

Lemma via_below_contract_node lvl g node :
  (∀ x, is_contracted (mark_contracted g node) x = false → (lvl node < lvl x)%nat) →
  via_below lvl g → via_below lvl (contract_node g node).1.
Proof.
  intros Hlvl Hvia.
  apply (contract_node_inv (λ g' _, via_below lvl g')); [done|].
  intros g' a ie oe hop Hvia' _ Hie _ Hoe _ _ _ u e.
  rewrite out_edges_push_edge. case_decide as Hu; [|by apply Hvia'].
  intros [He| ->%list_elem_of_singleton]%elem_of_app; [by apply Hvia'|].
  destruct Hu as [<- _]. simpl. intros _ _. split; by apply Hlvl.
Qed.

Lemma via_below_build_loop order rest : ∀ done g r g',
  order = done ++ rest →
  (∀ x, x ∈ done → is_contracted g x = true) →
  via_below (λ x, first_index x order) g →
  build_loop g r rest = Returns g' →
  via_below (λ x, first_index x order) g'.
Proof.
  induction rest as [|node rest IH]; intros done g r g' Horder Hdone Hvia; simpl.
  - by intros [= <-].
  - case_decide as Hin; [|done]. destruct Hin as (Hr & Hc & _).
    apply (IH (done ++ [node])).
    + by rewrite <-app_assoc.
    + intros x Hx. rewrite is_contracted_contract_with_rank.
      case_decide; [done|]. apply elem_of_app in Hx as [Hx| ->%list_elem_of_singleton].
      * by apply Hdone.
      * naive_solver.
    + apply via_below_contract_node; [|done].
      intros x Hx.
      assert (x ∉ done ++ [node]) as Hnot.
      { intros [Hd| ->%list_elem_of_singleton]%elem_of_app.
        - rewrite is_contracted_mark in Hx.
          change (is_contracted (with_rank g node r) x) with (is_contracted g x) in Hx.
          case_decide; [done|]. rewrite (Hdone x Hd) in Hx. done.
        - rewrite is_contracted_mark in Hx. rewrite decide_True in Hx; done. }
      assert (order = (done ++ [node]) ++ rest) as Horder' by by rewrite <-app_assoc.
      rewrite Horder' at 2. rewrite (first_index_app _ _ _ Hnot).
      assert (first_index node order ≤ length done)%nat.
      { apply first_index_lookup. rewrite Horder.
        by rewrite lookup_app_r, Nat.sub_diag by lia. }
      rewrite length_app. simpl. lia.
Qed.

Lemma base_only_add_edges es : ∀ g g',
  base_only g → add_edges g es = Returns g' → base_only g'.
Proof.
  induction es as [|[[u v] w] es IH]; intros g g' Hbase; simpl.
  - by intros [= <-].
  - unfold add_edge, add_ch_edge. case_decide; [|done]. apply IH.
    intros u' e. rewrite out_edges_push_edge. case_decide; [|by apply Hbase].
    intros [He| ->%list_elem_of_singleton]%elem_of_app; [by eapply Hbase|done].
Qed.

Lemma base_only_new n : base_only (CHGraph_new n).
Proof.
  intros u e. unfold out_edges, vec_at; simpl. case_decide; [|by intros ?%elem_of_nil].
  destruct (replicate _ _ !! _) as [row|] eqn:Hrow; simpl; [|by intros ?%elem_of_nil].
  apply lookup_replicate in Hrow as [-> _]. by intros ?%elem_of_nil.
Qed.

Lemma via_below_make n es order g :
  make n es order = Returns g → via_below (λ x, first_index x order) g.
Proof.
  unfold make. destruct (add_edges (CHGraph_new n) es) as [g0| |] eqn:Hes; try done.
  intros Hb. apply (via_below_build_loop order order [] (with_order g0 order) 0 g);
    try done.
  - by intros x ?%elem_of_nil.
  - intros u e He Hsc. apply (base_only_add_edges _ _ _ (base_only_new n) Hes) in He.
    congruence.
Qed.

(** C9.  On a graph made by base-edge insertions followed by [build_ch],
    [unpack(u, v, path)] returns for all [u] and [v]: the via node of a
    shortcut was contracted before both of its ends, so the recursion
    descends in the contraction order. *)
Theorem unpack_terminates n es order g u v path :
  make n es order = Returns g →
  ∃ path' bound, ∀ fuel, (bound ≤ fuel)%nat → unpack fuel g u v path = Some path'.
Proof.
  intros Hvia%via_below_make.
  destruct (unpack_returns _ g Hvia (S (length order)) u v path) as [path' Hp].
  { pose proof (Nat.le_min_l (first_index u order) (first_index v order)).
    assert (∀ x l, first_index x l ≤ length l)%nat as Hle.
    { intros x l. induction l; simpl; [lia|]. case_decide; lia. }
    specialize (Hle u order). lia. }
  exists path', (S (length order)). intros fuel Hfuel. by eapply unpack_more_fuel.
Qed.

Lemma unpack_terminates_witness :
  make 5 long_line_edges long_line_order = Returns long_line_built
  ∧ ∃ path' bound, ∀ fuel, (bound ≤ fuel)%nat →
      unpack fuel long_line_built 1 3 [1] = Some path'.
Proof.
  assert (make 5 long_line_edges long_line_order = Returns long_line_built) as Hmake
    by (vm_compute; reflexivity).
  split; [exact Hmake|].
  exact (unpack_terminates _ _ _ _ 1 3 [1] Hmake).
Defined.

Example unpack_shortcut : unpack 3 long_line_built 1 3 [1] = Some [1; 2; 3].
Proof. vm_compute. reflexivity. Qed.

(** ** Walks *)

Section walks.
Context (adj : Z → list Edge).

Lemma is_walk_app u es1 x es2 v :
  is_walk adj u es1 x → is_walk adj x es2 v → is_walk adj u (es1 ++ es2) v.
Proof.
  revert u. induction es1 as [|e es1 IH]; intros u; simpl.
  - by intros ->.
  - intros [He Hw] H2. split; [done|]. by apply IH.
Qed.

Lemma is_walk_snoc u es x e :
  is_walk adj u es x → e ∈ adj x → is_walk adj u (es ++ [e]) (target e).
Proof. intros Hw He. eapply is_walk_app; [done|]. by split. Qed.

Lemma is_walk_app_inv u es1 es2 v :
  is_walk adj u (es1 ++ es2) v → ∃ x, is_walk adj u es1 x ∧ is_walk adj x es2 v.
Proof.
  revert u. induction es1 as [|e es1 IH]; intros u; simpl.
  - intros Hw. by exists u.
  - intros [He Hw]. destruct (IH _ Hw) as (x & H1 & H2). by exists x.
Qed.

Lemma walk_weight_app es1 es2 :
  walk_weight (es1 ++ es2) = walk_weight es1 + walk_weight es2.
Proof. induction es1 as [|e es1 IH]; simpl; [done|]. rewrite IH. lia. Qed.

Lemma walk_weight_nonneg u es v :
  (∀ x e, e ∈ adj x → 0 ≤ weight e) → is_walk adj u es v → 0 ≤ walk_weight es.
Proof.
  intros Hnn. revert u. induction es as [|e es IH]; intros u; simpl; [done|].
  intros [He Hw]. apply Hnn in He. apply IH in Hw. lia.
Qed.

Lemma ascending_app lvl u es1 x es2 :
  is_walk adj u es1 x → ascending lvl u es1 → ascending lvl x es2 →
  ascending lvl u (es1 ++ es2).
Proof.
  revert u. induction es1 as [|e es1 IH]; intros u; simpl.
  - by intros ->.
  - intros [He Hw] [Hlt Ha] H2. split; [done|]. by apply IH.
Qed.

Lemma ascending_le lvl u es v :
  is_walk adj u es v → ascending lvl u es → lvl u ≤ lvl v.
Proof.
  revert u. induction es as [|e es IH]; intros u; simpl.
  - by intros ->.
  - intros [He Hw] [Hlt Ha]. specialize (IH _ Hw Ha). lia.
Qed.
End walks.

(** What a search accumulates along a walk. *)
Lemma walk_cost_app d0 es1 es2 :
  walk_cost d0 (es1 ++ es2) = walk_cost (walk_cost d0 es1) es2.
Proof. apply fold_left_app. Qed.

Lemma walk_cost_snoc d0 es e :
  walk_cost d0 (es ++ [e]) = dadd (walk_cost d0 es) (weight e).
Proof. by rewrite walk_cost_app. Qed.

Lemma walk_cost_is_double es : ∀ d0, is_double d0 → is_double (walk_cost d0 es).
Proof.
  induction es as [|e es IH]; intros d0 Hd0; simpl; [done|].
  apply IH, dadd_is_double.
Qed.

Lemma walk_cost_mono es : ∀ d0 d0', d0 ≤ d0' → walk_cost d0 es ≤ walk_cost d0' es.
Proof.
  induction es as [|e es IH]; intros d0 d0' Hle; simpl; [done|].
  apply IH, dadd_mono; [done|lia].
Qed.

Lemma walk_cost_ge adj es : ∀ u v d0,
  (∀ x e, e ∈ adj x → 0 ≤ weight e) → is_walk adj u es v →
  is_double d0 → d0 ≤ walk_cost d0 es.
Proof.
  induction es as [|e es IH]; intros u v d0 Hnn; simpl; [done|].
  intros [He Hw] Hd0. etrans; [apply (dadd_ge d0 (weight e)); [done|by eapply Hnn]|].
  eapply IH; [done|done|apply dadd_is_double].
Qed.

(** Along a walk short enough for its weights the additions are exact. *)
Lemma walk_cost_exact W adj es : ∀ u v d0,
  weights_within W adj → is_walk adj u es v →
  0 ≤ d0 → d0 + Z.of_nat (length es) * W ≤ double_exact →
  walk_cost d0 es = d0 + walk_weight es.
Proof.
  induction es as [|e es IH]; intros u v d0 HW; simpl walk_cost; simpl walk_weight.
  - intros _ _ _. lia.
  - intros [He Hw] Hd0 Hlen. pose proof (HW u e He) as Hwe.
    rewrite length_cons, Nat2Z.inj_succ in Hlen.
    assert (0 ≤ Z.of_nat (length es) * W) by (apply Z.mul_nonneg_nonneg; lia).
    rewrite dadd_exact by (unfold double_exact in *; lia).
    rewrite (IH (target e) v); [lia|done|done|lia|lia].
Qed.

(** ** Priority queues *)

Lemma pq_push_perm {A} (leb : A → A → bool) x q : pq_push leb x q ≡ₚ x :: q.
Proof.
  induction q as [|y q IH]; simpl; [done|].
  destruct (leb x y); [done|]. rewrite IH. apply Permutation_swap.
Qed.

Lemma elem_of_pq_push {A} (leb : A → A → bool) x y q :
  y ∈ pq_push leb x q ↔ y = x ∨ y ∈ q.
Proof. rewrite pq_push_perm. apply elem_of_cons. Qed.

Lemma Forall_pq_push {A} (P : A → Prop) (leb : A → A → bool) x q :
  Forall P (pq_push leb x q) ↔ P x ∧ Forall P q.
Proof. rewrite pq_push_perm. apply Forall_cons. Qed.

Lemma lex2_leb_spec a b :
  lex2_leb a b = true ↔ a.1 < b.1 ∨ (a.1 = b.1 ∧ a.2 ≤ b.2).
Proof.
  unfold lex2_leb. rewrite orb_true_iff, andb_true_iff, !bool_decide_eq_true. tauto.
Qed.

Lemma lex3_leb_spec a b :
  lex3_leb a b = true
  ↔ a.1.1 < b.1.1 ∨ (a.1.1 = b.1.1 ∧ (a.1.2 < b.1.2 ∨ (a.1.2 = b.1.2 ∧ a.2 ≤ b.2))).
Proof.
  unfold lex3_leb. rewrite orb_true_iff, andb_true_iff, lex2_leb_spec,
    !bool_decide_eq_true. simpl. tauto.
Qed.

Lemma lex2_leb_total a b : lex2_leb a b = false → lex2_leb b a = true.
Proof.
  intros Hab. apply lex2_leb_spec. apply not_true_iff_false in Hab.
  rewrite lex2_leb_spec in Hab. lia.
Qed.

Lemma lex3_leb_total a b : lex3_leb a b = false → lex3_leb b a = true.
Proof.
  intros Hab. apply lex3_leb_spec. apply not_true_iff_false in Hab.
  rewrite lex3_leb_spec in Hab. lia.
Qed.

Lemma lex2_leb_trans a b c :
  lex2_leb a b = true → lex2_leb b c = true → lex2_leb a c = true.
Proof. rewrite !lex2_leb_spec. lia. Qed.

Lemma lex3_leb_trans a b c :
  lex3_leb a b = true → lex3_leb b c = true → lex3_leb a c = true.
Proof. rewrite !lex3_leb_spec. lia. Qed.

(** [push] keeps the queue ascending, and the head of an ascending queue
    is a least element: the head is what [top] returns. *)
Lemma pq_push_sorted {A} (leb : A → A → bool) x q :
  (∀ a b, leb a b = false → leb b a = true) →
  Sorted (λ a b, leb a b = true) q →
  Sorted (λ a b, leb a b = true) (pq_push leb x q).
Proof.
  intros Htotal. induction q as [|y q IH]; intros Hq; simpl.
  - by repeat constructor.
  - destruct (leb x y) eqn:Hxy.
    + constructor; [done|]. by constructor.
    + apply Sorted_inv in Hq as [Hq Hhd]. constructor; [by apply IH|].
      destruct q as [|z q]; simpl.
      * constructor. by apply Htotal.
      * destruct (leb x z); constructor; [by apply Htotal|].
        by apply HdRel_inv in Hhd.
Qed.

Lemma pq_top_least {A} (leb : A → A → bool) x q :
  (∀ a b c, leb a b = true → leb b c = true → leb a c = true) →
  Sorted (λ a b, leb a b = true) (x :: q) →
  Forall (λ y, leb x y = true) q.
Proof.
  intros Htrans Hq. apply (Sorted_extends (R := λ a b, leb a b = true)); [|done].
  intros a b c. apply Htrans.
Qed.

(** ** Termination of the witness search *)

Lemma hop_budget_pos deg k : (0 < hop_budget deg k)%nat.
Proof. destruct k; simpl; lia. Qed.

Lemma row_length_bound (adj : list (list Edge)) u :
  (length (vec_at [] adj u) ≤ max_row adj)%nat.
Proof.
  unfold vec_at, max_row. case_decide; [|simpl; lia].
  generalize (Z.to_nat u) as i. induction adj as [|row adj IH]; intros [|i]; simpl;
    try lia.
  specialize (IH i). lia.
Qed.

Lemma out_degree_bound g u : (length (out_edges g u) ≤ max_degree g)%nat.
Proof.
  apply row_length_bound.
Qed.

Lemma queue_budget_cons deg hop_limit x q :
  queue_budget deg hop_limit (x :: q)
  = (entry_budget deg hop_limit x + queue_budget deg hop_limit q)%nat.
Proof. done. Qed.

Lemma queue_budget_push deg hop_limit x q :
  queue_budget deg hop_limit (pq_push lex3_leb x q)
  = (entry_budget deg hop_limit x + queue_budget deg hop_limit q)%nat.
Proof.
  induction q as [|y q IH]; cbn [pq_push]; [by rewrite !queue_budget_cons|].
  destruct (lex3_leb x y); rewrite !queue_budget_cons; [done|]. rewrite IH. lia.
Qed.

Lemma queue_budget_relax g v max_dist exclude_node hop_limit d h deg es : ∀ q,
  (queue_budget deg hop_limit
     (fold_left (witness_relax g v max_dist exclude_node d h) es q)
   ≤ queue_budget deg hop_limit q
     + length es * hop_budget deg (Z.to_nat (hop_limit - (h + 1))))%nat.
Proof.
  induction es as [|e es IH]; intros q; simpl; [lia|].
  etrans; [apply IH|].
  assert (queue_budget deg hop_limit (witness_relax g v max_dist exclude_node d h q e)
          ≤ queue_budget deg hop_limit q
            + hop_budget deg (Z.to_nat (hop_limit - (h + 1))))%nat; [|lia].
  unfold witness_relax.
  destruct (is_contracted g (target e) && negb (bool_decide (target e = v))); [lia|].
  repeat case_decide; try lia. rewrite queue_budget_push. unfold entry_budget. simpl. lia.
Qed.

Lemma witness_loop_returns g v max_dist exclude_node hop_limit fuel : ∀ q,
  (queue_budget (max_degree g) hop_limit q < fuel)%nat →
  ∃ b, witness_loop fuel g v max_dist exclude_node hop_limit q = Some b.
Proof.
  induction fuel as [|fuel IH]; intros q Hlt; [lia|]. simpl.
  destruct q as [|[[d curr] h] q]; [by eexists|].
  destruct (decide (d > max_dist)); [by eexists|].
  destruct (decide (curr = v)); [by eexists|].
  rewrite queue_budget_cons in Hlt. unfold entry_budget in Hlt. simpl in Hlt.
  destruct (decide (h >= hop_limit)) as [Hh|Hh].
  - apply IH. pose proof (hop_budget_pos (max_degree g) (Z.to_nat (hop_limit - h))). lia.
  - apply IH.
    pose proof (queue_budget_relax g v max_dist exclude_node hop_limit d h (max_degree g)
                  (out_edges g curr) q) as Hrelax.
    pose proof (out_degree_bound g curr) as Hdeg.
    replace (Z.to_nat (hop_limit - h)) with (S (Z.to_nat (hop_limit - (h + 1)))) in Hlt by lia.
    simpl in Hlt.
    assert (length (out_edges g curr) * hop_budget (max_degree g) (Z.to_nat (hop_limit - (h + 1)))
            ≤ max_degree g * hop_budget (max_degree g) (Z.to_nat (hop_limit - (h + 1))))%nat
      by (apply Nat.mul_le_mono_r; lia).
    lia.
Qed.

Lemma witness_search_loop g u v max_dist exclude_node hop_limit :
  ∃ b, witness_loop (witness_fuel g hop_limit) g v max_dist exclude_node hop_limit [(0, u, 0)]
       = Some b.
Proof.
  apply witness_loop_returns. unfold witness_fuel, queue_budget, entry_budget. simpl.
  rewrite Z.sub_0_r. lia.
Qed.

(** ** What the witness search answers *)

Section witness.
Context (g : CHGraph) (u v max_dist exclude_node hop_limit : Z).

Lemma witness_relax_cases d h q e :
  witness_relax g v max_dist exclude_node d h q e
  = pq_push lex3_leb (dadd d (weight e), target e, h + 1) q
    ∧ admissible g v exclude_node e ∧ dadd d (weight e) ≤ max_dist
  ∨ witness_relax g v max_dist exclude_node d h q e = q
    ∧ ¬ (admissible g v exclude_node e ∧ dadd d (weight e) ≤ max_dist).
Proof.
  unfold witness_relax, admissible.
  destruct (is_contracted g (target e)) eqn:Hc; simpl.
  - destruct (bool_decide (target e = v)) eqn:Hv; simpl.
    + apply bool_decide_eq_true in Hv.
      destruct (decide (target e = exclude_node)); [right; tauto|].
      destruct (decide (dadd d (weight e) ≤ max_dist)); [left; tauto|right; tauto].
    + apply bool_decide_eq_false in Hv. right. split; [done|].
      intros [[_ [?|?]] _]; done.
  - destruct (decide (target e = exclude_node)); [right; tauto|].
    destruct (decide (dadd d (weight e) ≤ max_dist)); [left; tauto|right; tauto].
Qed.

(** From here on the weights are between 0 and [W], and [max_dist + W]
    is at most [2 ^ 53]: the additions of the loop are exact. *)
Context (W : Z).
Hypothesis HW : weights_within W (out_edges g).
Hypothesis Hexact : max_dist + W ≤ double_exact.

Lemma witness_step_exact d x e :
  e ∈ out_edges g x → 0 ≤ d ≤ max_dist → dadd d (weight e) = d + weight e.
Proof.
  intros He Hd. pose proof (HW x e He). apply dadd_exact. unfold double_exact in *. lia.
Qed.

Lemma witness_relax_reached d curr h es : ∀ q,
  entry_reached g u v exclude_node hop_limit (d, curr, h) → h < hop_limit →
  d ≤ max_dist →
  (∀ e, e ∈ es → e ∈ out_edges g curr) →
  Forall (entry_reached g u v exclude_node hop_limit) q →
  Forall (entry_reached g u v exclude_node hop_limit)
         (fold_left (witness_relax g v max_dist exclude_node d h) es q).
Proof.
  induction es as [|e es IH]; intros q Hcurr Hh Hd Hes Hq; simpl; [done|].
  apply IH; [done|done|done|by intros e' ?; apply Hes; right|].
  destruct (witness_relax_cases d h q e) as [(-> & Hadm & _)|(-> & _)]; [|done].
  apply Forall_pq_push. split; [|done].
  destruct Hcurr as (ws & Hw & Hwt & Hlen & _ & Hall). simpl in *.
  assert (0 ≤ d) as Hd0.
  { rewrite <-Hwt. eapply walk_weight_nonneg; [|exact Hw]. intros x e' He'.
    by destruct (HW x e' He'). }
  rewrite (witness_step_exact d curr e); [|apply Hes; by left|lia].
  exists (ws ++ [e]). simpl. split_and!.
  - eapply is_walk_snoc; [done|]. apply Hes. by left.
  - rewrite walk_weight_app. simpl. lia.
  - rewrite length_app. simpl. lia.
  - lia.
  - apply Forall_app. split; [done|]. by apply Forall_singleton.
Qed.

Lemma witness_loop_sound fuel : ∀ q,
  Forall (entry_reached g u v exclude_node hop_limit) q →
  witness_loop fuel g v max_dist exclude_node hop_limit q = Some true →
  witness_path g u v max_dist exclude_node hop_limit.
Proof.
  induction fuel as [|fuel IH]; intros q Hq; simpl; [done|].
  destruct q as [|[[d curr] h] q]; [done|].
  apply Forall_cons in Hq as [Hcurr Hq].
  destruct (decide (d > max_dist)); [done|].
  destruct (decide (curr = v)) as [->|Hne].
  - intros _. destruct Hcurr as (ws & Hw & Hwt & Hlen & Hh & Hall). simpl in *.
    exists ws. split_and!; [done|lia|lia|done].
  - destruct (decide (h >= hop_limit)); [by apply IH|].
    apply IH. apply (witness_relax_reached d curr h); [done|lia|lia|done|done].
Qed.

Lemma witness_relax_keeps d h es : ∀ q entry,
  entry ∈ q → entry ∈ fold_left (witness_relax g v max_dist exclude_node d h) es q.
Proof.
  induction es as [|e es IH]; intros q entry Hin; simpl; [done|].
  apply IH. destruct (witness_relax_cases d h q e) as [(-> & _)|(-> & _)]; [|done].
  apply elem_of_pq_push. by right.
Qed.

Lemma witness_relax_pushes d h es e : ∀ q,
  e ∈ es → admissible g v exclude_node e → dadd d (weight e) ≤ max_dist →
  (dadd d (weight e), target e, h + 1)
  ∈ fold_left (witness_relax g v max_dist exclude_node d h) es q.
Proof.
  induction es as [|e' es IH]; intros q Hin Hadm Hd; simpl.
  - by apply elem_of_nil in Hin.
  - apply elem_of_cons in Hin as [<-|Hin]; [|by apply IH].
    apply witness_relax_keeps.
    destruct (witness_relax_cases d h q e) as [(-> & _)|(_ & Hnot)]; [|naive_solver].
    apply elem_of_pq_push. by left.
Qed.

Lemma witness_relax_bounded d curr h es : ∀ q,
  0 ≤ d ≤ max_dist → (∀ e, e ∈ es → e ∈ out_edges g curr) →
  Forall (λ entry, 0 ≤ entry.1.1 ≤ max_dist) q →
  Forall (λ entry, 0 ≤ entry.1.1 ≤ max_dist)
         (fold_left (witness_relax g v max_dist exclude_node d h) es q).
Proof.
  induction es as [|e es IH]; intros q Hd0 Hes Hq; simpl; [done|].
  apply IH; [done|by intros e' ?; apply Hes; right|].
  destruct (witness_relax_cases d h q e) as [(-> & _ & Hd)|(-> & _)]; [|done].
  apply Forall_pq_push. split; [|done]. simpl. split; [|done].
  pose proof (HW curr e (Hes e ltac:(by left))). apply dadd_nonneg; lia.
Qed.

Lemma witness_loop_complete fuel : ∀ q,
  Forall (λ entry, 0 ≤ entry.1.1 ≤ max_dist) q →
  Exists (entry_promising g v max_dist exclude_node hop_limit) q →
  witness_loop fuel g v max_dist exclude_node hop_limit q ≠ Some false.
Proof.
  assert (∀ x e, e ∈ out_edges g x → 0 ≤ weight e) as Hnn.
  { intros x e He. by destruct (HW x e He). }
  induction fuel as [|fuel IH]; intros q Hq Hex; simpl; [done|].
  destruct q as [|[[d curr] h] q]; [by apply Exists_nil in Hex|].
  apply Forall_cons in Hq as [Hd Hq]. simpl in Hd.
  rewrite decide_False by lia.
  destruct (decide (curr = v)) as [->|Hne]; [done|].
  apply Exists_cons in Hex as [Hhead|Htail].
  - destruct Hhead as (ws & Hw & Hwt & Hlen & Hall). simpl in *.
    destruct ws as [|e ws]; [done|]. simpl in *. destruct Hw as [He Hw].
    apply Forall_cons in Hall as [Hadm Hall].
    pose proof (walk_weight_nonneg _ _ _ _ Hnn Hw) as Hpos.
    pose proof (witness_step_exact d curr e He Hd) as Hstep.
    rewrite decide_False by lia.
    apply IH; [by apply (witness_relax_bounded d curr)|].
    apply Exists_exists. exists (dadd d (weight e), target e, h + 1). split.
    + apply witness_relax_pushes; [done|done|lia].
    + exists ws. simpl. split_and!; [done|lia|lia|done].
  - apply Exists_exists in Htail as (entry & Hin & Hprom).
    destruct (decide (h >= hop_limit)).
    + apply IH; [done|]. apply Exists_exists. by exists entry.
    + apply IH; [by apply (witness_relax_bounded d curr)|].
      apply Exists_exists. exists entry. split; [|done]. by apply witness_relax_keeps.
Qed.

Lemma direct_edge_existsb :
  existsb (λ edge, bool_decide (target edge = v) && bool_decide (weight edge ≤ max_dist))
          (out_edges g u) = true
  ↔ direct_edge g u v max_dist.
Proof.
  rewrite existsb_exists. unfold direct_edge. split.
  - intros (e & He & Hb). apply andb_true_iff in Hb as [Ht Hw].
    apply bool_decide_eq_true in Ht, Hw. exists e. by rewrite list_elem_of_In.
  - intros (e & He & Ht & Hw). exists e. rewrite <-list_elem_of_In. split; [done|].
    by rewrite !bool_decide_eq_true_2.
Qed.

Lemma witness_search_true :
  0 ≤ hop_limit →
  witness_search g u v max_dist exclude_node hop_limit = true →
  direct_edge g u v max_dist ∨ witness_path g u v max_dist exclude_node hop_limit.
Proof.
  intros Hhop. unfold witness_search.
  destruct (existsb _ _) eqn:Hdirect; [left; by apply direct_edge_existsb|].
  destruct (witness_loop _ _ _ _ _ _ _) as [[|]|] eqn:Hloop; try done.
  intros _. right. eapply witness_loop_sound; [|exact Hloop].
  apply Forall_singleton. exists []. simpl. split_and!; done.
Qed.

Lemma witness_search_finds :
  direct_edge g u v max_dist ∨ witness_path g u v max_dist exclude_node hop_limit →
  witness_search g u v max_dist exclude_node hop_limit = true.
Proof.
  assert (∀ x e, e ∈ out_edges g x → 0 ≤ weight e) as Hnn.
  { intros x e He. by destruct (HW x e He). }
  intros Hpath. unfold witness_search.
  destruct (existsb _ _) eqn:Hdirect; [done|].
  destruct Hpath as [Hd|(ws & Hw & Hwt & Hlen & Hall)].
  { apply direct_edge_existsb in Hd. congruence. }
  destruct (witness_search_loop g u v max_dist exclude_node hop_limit) as [b Hb].
  rewrite Hb. destruct b; [done|]. exfalso.
  pose proof (walk_weight_nonneg _ _ _ _ Hnn Hw) as Hpos.
  revert Hb. apply witness_loop_complete.
  - apply Forall_singleton. simpl. lia.
  - apply Exists_cons_hd. exists ws. simpl. split_and!; [done|lia|lia|done].
Qed.
End witness.

(** C3, as stated, fails: the search does not go through a contracted
    node, so a path that avoids [exclude] but crosses a contracted node is
    not found.  Here 0 -> 1 -> 2 has weight 2 and avoids node 3, but node
    1 is contracted. *)
Lemma witness_search_counterexample :
  path_avoiding chain_contracted 0 2 10 3 3
  ∧ witness_search chain_contracted 0 2 10 3 3 = false.
Proof.
  split; [|vm_compute; reflexivity].
  exists [mkEdge 1 1 false (-1); mkEdge 2 1 false (-1)]. split_and!.
  - simpl. split_and!; [vm_compute; left|vm_compute; left|done].
  - simpl. lia.
  - simpl. lia.
  - repeat constructor; simpl; lia.
Qed.

(** The search is the one [contract_node(3)] makes, and it inserts the
    shortcut 0 -> 2 through node 3. *)
Example contract_after_witness :
  (contract_node (mark_contracted chain 1) 3).2 = 1.
Proof. vm_compute. reflexivity. Qed.

(** Why the weights have to be bounded: [2 ^ 53 + 1] is no double, the
    sum of the weights [2 ^ 53] and [1] is rounded to [2 ^ 53], and the
    search answers [true] for the limit [2 ^ 53] although the only path
    from 0 to 2 weighs [2 ^ 53 + 1]. *)
Example witness_search_rounding :
  let g := push_edge (push_edge (CHGraph_new 3) 0 1 (2 ^ 53) false (-1)) 1 2 1 false (-1) in
  witness_search g 0 2 (2 ^ 53) (-1) 3 = true
  ∧ ¬ direct_edge g 0 2 (2 ^ 53)
  ∧ ¬ witness_path g 0 2 (2 ^ 53) (-1) 3.
Proof.
  cbv zeta. split_and!; [vm_compute; reflexivity| |].
  - intros (e & He & Ht & _). vm_compute in He.
    apply list_elem_of_singleton in He as ->. done.
  - intros (es & Hw & Hwt & _).
    destruct es as [|e1 es]; [done|]. destruct Hw as [He1 Hw]. vm_compute in He1.
    apply list_elem_of_singleton in He1 as ->. simpl in Hw.
    destruct es as [|e2 es]; [done|]. destruct Hw as [He2 Hw]. vm_compute in He2.
    apply list_elem_of_singleton in He2 as ->. simpl in Hw.
    destruct es as [|e3 es]; [|destruct Hw as [He3 _]; vm_compute in He3;
                               by apply elem_of_nil in He3].
    vm_compute in Hwt. by apply Hwt.
Qed.

(** C3, amended.  On a graph whose weights are whole numbers between 0
    and [W], for a limit [L] with [L + W ≤ 2 ^ 53] (so that every sum
    the search forms is exact in [double]) and a hop limit that is not
    negative, [witness_search(u, w, L, exclude, hop_limit)] returns
    [true] if and only if there is a direct edge from [u] to [w] of
    weight at most [L] (the early exit), or a path from [u] to [w] of
    total weight at most [L] and at most [hop_limit] hops every node of
    which after [u] differs from [exclude] and is either not contracted
    or [w] itself. *)
Theorem witness_search_spec g u w L exclude_node hop_limit W :
  weights_within W (out_edges g) → L + W ≤ double_exact → 0 ≤ hop_limit →
  witness_search g u w L exclude_node hop_limit = true
  ↔ direct_edge g u w L ∨ witness_path g u w L exclude_node hop_limit.
Proof.
  intros HW Hexact Hhop. split.
  - by apply (witness_search_true g u w L exclude_node hop_limit W).
  - by apply (witness_search_finds g u w L exclude_node hop_limit W).
Qed.

Lemma witness_search_spec_witness :
  weights_within 5 (out_edges chain) ∧ 10 + 5 ≤ double_exact ∧ 0 ≤ 3
  ∧ (witness_search chain 0 2 10 3 3 = true
     ↔ direct_edge chain 0 2 10 ∨ witness_path chain 0 2 10 3 3).
Proof.
  assert (weights_within 5 (out_edges chain)) as HW.
  { intros x e He.
    unfold out_edges, vec_at in He. case_decide; [|by apply elem_of_nil in He].
    destruct (Z.to_nat x) as [|[|[|[|k]]]]; vm_compute in He;
      repeat (apply elem_of_cons in He as [->|He]; [simpl; lia|]);
      by apply elem_of_nil in He. }
  assert (10 + 5 ≤ double_exact) as Hexact by (vm_compute; discriminate).
  assert (0 ≤ 3) as Hhop by lia.
  split_and!; [exact HW|exact Hexact|exact Hhop|].
  exact (witness_search_spec chain 0 2 10 3 3 5 HW Hexact Hhop).
Defined.

(** ** Termination of the bidirectional search *)

Lemma filter_length_lt {A} (P Q : A → bool) (l : list A) x :
  (∀ y, P y = true → Q y = true) → x ∈ l → Q x = true → P x = false →
  (length (List.filter P l) < length (List.filter Q l))%nat.
Proof.
  intros HPQ Hx HQx HPx.
  assert (∀ l', length (List.filter P l') ≤ length (List.filter Q l'))%nat as Hle.
  { induction l' as [|y l' IH]; simpl; [lia|].
    destruct (P y) eqn:HP; [rewrite (HPQ y HP); simpl; lia|].
    destruct (Q y); simpl; lia. }
  induction l as [|y l IH]; [by apply elem_of_nil in Hx|].
  apply elem_of_cons in Hx as [<-|Hx]; simpl.
  - rewrite HPx, HQx. simpl. specialize (Hle l). lia.
  - specialize (IH Hx). destruct (P y) eqn:HP; [rewrite (HPQ y HP); simpl; lia|].
    destruct (Q y); simpl; lia.
Qed.

Lemma height_lt g u x :
  node_of g x → rank_of g u < rank_of g x → (height g x < height g u)%nat.
Proof.
  intros Hx Hlt. unfold height. apply (filter_length_lt _ _ _ x).
  - intros y Hy. apply bool_decide_eq_true in Hy. apply bool_decide_eq_true. lia.
  - apply elem_of_seqZ. unfold node_of in Hx. lia.
  - by apply bool_decide_eq_true.
  - apply bool_decide_eq_false. lia.
Qed.

Lemma depth_lt g u x :
  node_of g x → rank_of g x < rank_of g u → (depth g x < depth g u)%nat.
Proof.
  intros Hx Hlt. unfold depth. apply (filter_length_lt _ _ _ x).
  - intros y Hy. apply bool_decide_eq_true in Hy. apply bool_decide_eq_true. lia.
  - apply elem_of_seqZ. unfold node_of in Hx. lia.
  - by apply bool_decide_eq_true.
  - apply bool_decide_eq_false. lia.
Qed.

Lemma depth_bound g u : (depth g u ≤ Z.to_nat (num_nodes g))%nat.
Proof.
  unfold depth. etrans; [apply List.filter_length_le|]. by rewrite length_seqZ.
Qed.

Lemma height_bound g u : (height g u ≤ Z.to_nat (num_nodes g))%nat.
Proof.
  unfold height. etrans; [apply List.filter_length_le|]. by rewrite length_seqZ.
Qed.

Lemma side_budget_cons g x q :
  side_budget g (x :: q) = (node_budget g x + side_budget g q)%nat.
Proof. done. Qed.

Lemma side_budget_push g x q :
  side_budget g (pq_push lex2_leb x q) = (node_budget g x + side_budget g q)%nat.
Proof.
  induction q as [|y q IH]; cbn [pq_push]; [by rewrite !side_budget_cons|].
  destruct (lex2_leb x y); rewrite !side_budget_cons; [done|]. rewrite IH. lia.
Qed.

Lemma push_budget_lt g k :
  (search_degree g * push_budget g k < S (search_degree g) ^ k)%nat.
Proof.
  destruct k as [|k]; simpl; [lia|].
  pose proof (Nat.pow_nonzero (S (search_degree g)) k). lia.
Qed.

Lemma node_budget_below g u x d :
  node_of g x → rank_of g u < rank_of g x →
  (node_budget g (d, x) ≤ push_budget g (height g u))%nat.
Proof.
  intros Hx Hlt. pose proof (height_lt g u x Hx Hlt) as Hh.
  unfold node_budget, push_budget. simpl.
  destruct (height g u) as [|k]; [lia|].
  apply Nat.pow_le_mono_r; lia.
Qed.

Lemma relax_cases g u d other this mu meet_node e :
  (relax g u d other (this, mu, meet_node) e = (this, mu, meet_node)
   ∧ ¬ (rank_of g u < rank_of g (target e)
        ∧ lt_ext (dadd d (weight e)) (dist_at (dist this) (target e)) = true))
  ∨ (rank_of g u < rank_of g (target e)
     ∧ lt_ext (dadd d (weight e)) (dist_at (dist this) (target e)) = true
     ∧ ((∃ o, dist_at other (target e) = Fin o
              ∧ lt_ext (dadd (dadd d (weight e)) o) mu = true
              ∧ relax g u d other (this, mu, meet_node) e
                = (improved this u (dadd d (weight e)) (target e),
                   Fin (dadd (dadd d (weight e)) o), target e))
        ∨ ((∀ o, dist_at other (target e) = Fin o → lt_ext (dadd (dadd d (weight e)) o) mu = false)
           ∧ relax g u d other (this, mu, meet_node) e
             = (improved this u (dadd d (weight e)) (target e), mu, meet_node)))).
Proof.
  unfold relax, improved.
  destruct (decide (rank_of g (target e) > rank_of g u)) as [Hr|Hr];
    [|left; split; [done|]; intros [? _]; lia].
  destruct (lt_ext (dadd d (weight e)) (dist_at (dist this) (target e))) eqn:Hlt;
    [|left; split; [done|]; by intros [_ ?]].
  right. split; [lia|]. split; [done|].
  destruct (dist_at other (target e)) as [o|] eqn:Ho.
  - destruct (lt_ext (dadd (dadd d (weight e)) o) mu) eqn:Hmu.
    + left. by exists o.
    + right. split; [|done]. by intros o' [= <-].
  - right. split; [|done]. by intros o' ?.
Qed.

Section search_termination.
Context (g : CHGraph) (adj : Z → list Edge).
Hypothesis Hadj : adjacency_of g adj.

Lemma relax_budget u d other st e :
  node_of g (target e) →
  (side_budget g (pq (relax g u d other st e).1.1)
   ≤ side_budget g (pq st.1.1) + push_budget g (height g u))%nat.
Proof.
  intros He. destruct st as [[this mu] meet_node].
  destruct (relax_cases g u d other this mu meet_node e)
    as [[-> _]|(Hr & _ & [(o & _ & _ & ->)|(_ & ->)])]; simpl; try lia.
  - rewrite side_budget_push. pose proof (node_budget_below g u _ (dadd d (weight e)) He Hr). lia.
  - rewrite side_budget_push. pose proof (node_budget_below g u _ (dadd d (weight e)) He Hr). lia.
Qed.

Lemma fold_relax_budget u d other es : ∀ st,
  (∀ e, e ∈ es → node_of g (target e)) →
  (side_budget g (pq (fold_left (relax g u d other) es st).1.1)
   ≤ side_budget g (pq st.1.1) + length es * push_budget g (height g u))%nat.
Proof.
  induction es as [|e es IH]; intros st Hes; simpl; [lia|].
  etrans; [apply IH; intros e' ?; apply Hes; by right|].
  pose proof (relax_budget u d other st e (Hes e ltac:(by left))). lia.
Qed.

Lemma half_step_empty this other mu meet_node :
  pq this = [] → half_step g adj this other mu meet_node = (this, mu, meet_node).
Proof. unfold half_step. by intros ->. Qed.

Lemma half_step_budget this other mu meet_node :
  pq this ≠ [] →
  (side_budget g (pq (half_step g adj this other mu meet_node).1.1)
   < side_budget g (pq this))%nat.
Proof.
  unfold half_step. destruct (pq this) as [|[d u] rest]; [done|]. intros _.
  rewrite side_budget_cons. unfold node_budget. simpl.
  pose proof (Nat.pow_nonzero (S (search_degree g)) (height g u)).
  destruct (le_ext d mu); simpl; [|lia].
  destruct Hadj as [Htarget Hdeg].
  pose proof (fold_relax_budget u d other (adj u)
    ({| pq := rest; dist := dist this; parent := parent this |}, mu, meet_node)
    (Htarget u)) as Hfold.
  simpl in Hfold.
  pose proof (push_budget_lt g (height g u)).
  assert (length (adj u) * push_budget g (height g u)
          ≤ search_degree g * push_budget g (height g u))%nat
    by (apply Nat.mul_le_mono_r, Hdeg).
  lia.
Qed.
End search_termination.

Lemma adjacency_of_out g : wf g → adjacency_of g (out_edges g).
Proof.
  intros Hwf. split; [apply Hwf|].
  intros u. unfold search_degree. pose proof (row_length_bound (adj_out g) u).
  unfold out_edges. lia.
Qed.

Lemma adjacency_of_in g : wf g → adjacency_of g (in_edges g).
Proof.
  intros Hwf. split; [apply Hwf|].
  intros u. unfold search_degree. pose proof (row_length_bound (adj_in g) u).
  unfold in_edges. lia.
Qed.

Lemma search_loop_returns g fuel : ∀ fwd bwd mu meet_node,
  wf g →
  (side_budget g (pq fwd) + side_budget g (pq bwd) < fuel)%nat →
  ∃ r, search_loop fuel g fwd bwd mu meet_node = Some r.
Proof.
  induction fuel as [|fuel IH]; intros fwd bwd mu meet_node Hwf Hlt; [lia|].
  cbn [search_loop].
  destruct (half_step g (out_edges g) fwd (dist bwd) mu meet_node)
    as [[fwd' mu1] meet1] eqn:Hf.
  destruct (half_step g (in_edges g) bwd (dist fwd') mu1 meet1)
    as [[bwd' mu2] meet2] eqn:Hb.
  assert (pq fwd ≠ [] ∨ pq bwd ≠ [] →
          (side_budget g (pq fwd') + side_budget g (pq bwd')
           < side_budget g (pq fwd) + side_budget g (pq bwd))%nat) as Hdec.
  { intros Hne.
    destruct (decide (pq fwd = [])) as [Hfe|Hfe], (decide (pq bwd = [])) as [Hbe|Hbe].
    - by destruct Hne.
    - rewrite (half_step_empty g _ _ _ _ _ Hfe) in Hf. injection Hf as <- <- <-.
      pose proof (half_step_budget g _ (adjacency_of_in g Hwf) bwd (dist fwd) mu meet_node Hbe)
        as Hlt'.
      rewrite Hb in Hlt'. simpl in Hlt'. lia.
    - rewrite (half_step_empty g _ _ _ _ _ Hbe) in Hb. injection Hb as <- <- <-.
      pose proof (half_step_budget g _ (adjacency_of_out g Hwf) fwd (dist bwd) mu meet_node Hfe)
        as Hlt'.
      rewrite Hf in Hlt'. simpl in Hlt'. lia.
    - pose proof (half_step_budget g _ (adjacency_of_out g Hwf) fwd (dist bwd) mu meet_node Hfe)
        as Hlt1.
      pose proof (half_step_budget g _ (adjacency_of_in g Hwf) bwd (dist fwd') mu1 meet1 Hbe)
        as Hlt2.
      rewrite Hf in Hlt1. rewrite Hb in Hlt2. simpl in Hlt1, Hlt2. lia. }
  destruct (pq fwd) eqn:Hpf, (pq bwd) eqn:Hpb; [by eexists|..];
    (apply IH; [done|]);
    specialize (Hdec ltac:(first [by left | by right])); lia.
Qed.

Lemma search_loop_more_fuel g fuel : ∀ fwd bwd mu meet_node r fuel',
  search_loop fuel g fwd bwd mu meet_node = Some r → (fuel ≤ fuel')%nat →
  search_loop fuel' g fwd bwd mu meet_node = Some r.
Proof.
  induction fuel as [|fuel IH]; intros fwd bwd mu meet_node r fuel'; [done|].
  intros Hs Hle. destruct fuel' as [|fuel']; [lia|]. cbn [search_loop] in *.
  destruct (half_step g (out_edges g) fwd (dist bwd) mu meet_node)
    as [[fwd' mu1] meet1].
  destruct (half_step g (in_edges g) bwd (dist fwd') mu1 meet1)
    as [[bwd' mu2] meet2].
  destruct (pq fwd), (pq bwd); try done; apply IH; try done; lia.
Qed.

(** An invariant of the loop of [query] holds of its result, and both
    queues are then empty. *)
Lemma search_loop_inv g (Inv : side → side → ext Z → Z → Prop) :
  (∀ fwd bwd mu meet_node,
      Inv fwd bwd mu meet_node →
      let '(fwd', mu1, meet1) := half_step g (out_edges g) fwd (dist bwd) mu meet_node in
      Inv fwd' bwd mu1 meet1) →
  (∀ fwd bwd mu meet_node,
      Inv fwd bwd mu meet_node →
      let '(bwd', mu1, meet1) := half_step g (in_edges g) bwd (dist fwd) mu meet_node in
      Inv fwd bwd' mu1 meet1) →
  ∀ fuel fwd bwd mu meet_node fwd' bwd' mu' meet',
    Inv fwd bwd mu meet_node →
    search_loop fuel g fwd bwd mu meet_node = Some (fwd', bwd', mu', meet') →
    Inv fwd' bwd' mu' meet' ∧ pq fwd' = [] ∧ pq bwd' = [].
Proof.
  intros Hfwd Hbwd. induction fuel as [|fuel IH];
    intros fwd bwd mu meet_node fwd' bwd' mu' meet' Hinv; [done|].
  cbn [search_loop].
  specialize (Hfwd fwd bwd mu meet_node Hinv).
  destruct (half_step g (out_edges g) fwd (dist bwd) mu meet_node)
    as [[fwd1 mu1] meet1].
  specialize (Hbwd fwd1 bwd mu1 meet1 Hfwd).
  destruct (half_step g (in_edges g) bwd (dist fwd1) mu1 meet1)
    as [[bwd1 mu2] meet2].
  destruct (pq fwd) eqn:Hpf, (pq bwd) eqn:Hpb; try (by apply IH).
  intros [= <- <- <- <-]. done.
Qed.

(** ** The search keeps its invariants *)

Lemma fold_left_inv {A B} (f : A → B → A) (P : A → Prop) (l : list B) : ∀ a,
  P a → (∀ a b, b ∈ l → P a → P (f a b)) → P (fold_left f l a).
Proof.
  induction l as [|b l IH]; intros a Ha Hf; simpl; [done|].
  apply IH; [apply Hf; [by left|done]|]. intros a' b' Hb'. apply Hf. by right.
Qed.

Lemma dist_at_fin_node g ds x :
  Z.of_nat (length ds) = num_nodes g → is_fin (dist_at ds x) → node_of g x.
Proof.
  intros Hlen [z Hz]. destruct (decide (node_of g x)) as [|Hx]; [done|].
  unfold dist_at in Hz. rewrite vec_at_outside in Hz; [done|].
  by rewrite <-(node_of_in_vec g).
Qed.

Lemma dist_at_improve g ds x nd y :
  Z.of_nat (length ds) = num_nodes g → node_of g x →
  dist_at (vec_set ds x (Fin nd)) y = if decide (x = y) then Fin nd else dist_at ds y.
Proof.
  intros Hlen Hx. unfold dist_at. rewrite vec_at_set.
  rewrite (node_of_in_vec g ds) in Hx by done.
  destruct (decide (x = y)); [by rewrite decide_True|].
  rewrite decide_False; [done|]. by intros [? _].
Qed.

Lemma dist_at_improve_fin g ds x nd y :
  Z.of_nat (length ds) = num_nodes g → node_of g x →
  is_fin (dist_at ds y) → is_fin (dist_at (vec_set ds x (Fin nd)) y).
Proof.
  intros Hlen Hx Hy. rewrite (dist_at_improve g) by done.
  case_decide; [by eexists|done].
Qed.

Lemma parent_at_improve g ps x u y :
  Z.of_nat (length ps) = num_nodes g → node_of g x →
  parent_at (vec_set ps x u) y = if decide (x = y) then u else parent_at ps y.
Proof.
  intros Hlen Hx. unfold parent_at. rewrite vec_at_set.
  rewrite (node_of_in_vec g ps) in Hx by done.
  destruct (decide (x = y)); [by rewrite decide_True|].
  rewrite decide_False; [done|]. by intros [? _].
Qed.

Lemma reaches_step g adj s0 u d e :
  reaches g adj s0 u d → e ∈ adj u → rank_of g u < rank_of g (target e) →
  reaches g adj s0 (target e) (dadd d (weight e)).
Proof.
  intros (es & [Hw Ha] & Hd) He Hr. exists (es ++ [e]). split; [split|].
  - by eapply is_walk_snoc.
  - eapply ascending_app; [done|done|]. simpl. split; [lia|done].
  - rewrite walk_cost_snoc. by rewrite Hd.
Qed.

Lemma reaches_rank g adj s0 x d : reaches g adj s0 x d → rank_of g s0 ≤ rank_of g x.
Proof. intros (es & [Hw Ha] & _). by eapply ascending_le. Qed.

Lemma meets_swap g adjT sT adjO sO m : meets g adjT sT adjO sO m → meets g adjO sO adjT sT m.
Proof.
  intros (x & a & b & Ha & Hb & ->). exists x, b, a.
  split_and!; [done|done|apply dadd_comm].
Qed.

Lemma pair_ok_swap g adjT sT adjO sO this other mu meet_node :
  pair_ok g adjT sT adjO sO this other mu meet_node →
  pair_ok g adjO sO adjT sT other this mu meet_node.
Proof.
  intros [Ht Ho Hm]. split; [done|done|].
  unfold meet_ok in *. destruct mu as [m|]; [|done].
  destruct Hm as (? & ? & ?). split_and!; [done|done|by apply meets_swap].
Qed.

Section search_invariant.
Context (g : CHGraph) (adjT : Z → list Edge) (sT : Z) (adjO : Z → list Edge) (sO : Z).
Hypothesis HadjT : adjacency_of g adjT.

Lemma side_ok_improved this u d e :
  side_ok g adjT sT this →
  reaches g adjT sT u d → is_fin (dist_at (dist this) u) →
  e ∈ adjT u → rank_of g u < rank_of g (target e) →
  side_ok g adjT sT (improved this u (dadd d (weight e)) (target e)).
Proof.
  intros [Hdl Hpl Hstart Hsound Hqueue Hparent] Hu Hfin He Hr.
  assert (node_of g (target e)) as Hx by (by eapply (proj1 HadjT)).
  assert (target e ≠ sT) as Hne.
  { intros Heq. apply reaches_rank in Hu. rewrite Heq in Hr. lia. }
  assert (reaches g adjT sT (target e) (dadd d (weight e))) as Hnew by (by eapply reaches_step).
  split; simpl; rewrite ?length_vec_set; try done.
  - rewrite (dist_at_improve g) by done. by rewrite decide_False.
  - intros y dy. rewrite (dist_at_improve g) by done. case_decide as Hy.
    + intros [= <-]. by rewrite <-Hy.
    + apply Hsound.
  - intros d' u' [[= -> ->]|Hin]%elem_of_pq_push.
    + split; [done|]. rewrite (dist_at_improve g) by done. rewrite decide_True by done.
      by eexists.
    + destruct (Hqueue _ _ Hin) as [? ?]. split; [done|].
      by apply (dist_at_improve_fin g).
  - intros y Hy. rewrite (dist_at_improve g), (parent_at_improve g) by done.
    destruct (decide (target e = y)) as [<-|Hney].
    + intros _. split_and!.
      * by eapply dist_at_fin_node.
      * done.
      * rewrite (dist_at_improve g) by done. case_decide; [by eexists|done].
    + intros Hyfin. destruct (Hparent y Hy Hyfin) as (? & ? & ?). split_and!; try done.
      by apply (dist_at_improve_fin g).
Qed.

Lemma relax_pair_ok this other mu meet_node u d e :
  pair_ok g adjT sT adjO sO this other mu meet_node →
  reaches g adjT sT u d → is_fin (dist_at (dist this) u) → e ∈ adjT u →
  pair_ok g adjT sT adjO sO
    (relax g u d (dist other) (this, mu, meet_node) e).1.1 other
    (relax g u d (dist other) (this, mu, meet_node) e).1.2
    (relax g u d (dist other) (this, mu, meet_node) e).2.
Proof.
  intros [Ht Ho Hm] Hu Hfin He.
  assert (node_of g (target e)) as Hx by (by eapply (proj1 HadjT)).
  destruct (relax_cases g u d (dist other) this mu meet_node e)
    as [[-> _]|(Hr & Hlt & [(o & Hother & Hmu & ->)|(Hmu & ->)])]; simpl; [done|..].
  - split; [by apply side_ok_improved|done|]. simpl. split_and!.
    + rewrite (dist_at_improve g); [|apply Ht|done]. rewrite decide_True by done. by eexists.
    + rewrite Hother. by eexists.
    + exists (target e), (dadd d (weight e)), o. split_and!; [by eapply reaches_step| |done].
      by apply (ok_sound _ _ _ _ Ho).
  - split; [by apply side_ok_improved|done|].
    unfold meet_ok in *. destruct mu as [m|]; [|done].
    destruct Hm as (? & ? & ?). split_and!; [|done|done]. simpl.
    apply (dist_at_improve_fin g); [apply Ht|done|done].
Qed.

Lemma side_ok_popped this : side_ok g adjT sT this → side_ok g adjT sT (popped this).
Proof.
  intros [Hdl Hpl Hstart Hsound Hqueue Hparent]. split; simpl; try done.
  intros d u Hin. apply Hqueue. destruct (pq this); [done|]. by right.
Qed.

Lemma half_step_pair_ok this other mu meet_node :
  pair_ok g adjT sT adjO sO this other mu meet_node →
  pair_ok g adjT sT adjO sO
    (half_step g adjT this (dist other) mu meet_node).1.1 other
    (half_step g adjT this (dist other) mu meet_node).1.2
    (half_step g adjT this (dist other) mu meet_node).2.
Proof.
  intros Hok. unfold half_step.
  destruct (pq this) as [|[d u] rest] eqn:Hpq; [done|].
  destruct (ok_queue _ _ _ _ (po_this _ _ _ _ _ _ _ _ _ Hok) d u) as [Hu Hfin].
  { rewrite Hpq. by left. }
  assert (pair_ok g adjT sT adjO sO
            {| pq := rest; dist := dist this; parent := parent this |} other mu meet_node)
    as Hok0.
  { destruct Hok as [Ht Ho Hm]. split; [|done|done].
    apply side_ok_popped in Ht. unfold popped in Ht. by rewrite Hpq in Ht. }
  destruct (le_ext d mu); [|done].
  cut ((λ st, pair_ok g adjT sT adjO sO st.1.1 other st.1.2 st.2
              ∧ is_fin (dist_at (dist st.1.1) u))
         (fold_left (relax g u d (dist other)) (adjT u)
            ({| pq := rest; dist := dist this; parent := parent this |}, mu, meet_node))).
  { by intros [? _]. }
  apply fold_left_inv; [done|].
  intros [[this' mu'] meet'] e He [Hok' Hfin']. simpl in Hok', Hfin'. split.
  - by apply relax_pair_ok.
  - destruct (relax_cases g u d (dist other) this' mu' meet' e)
      as [[-> _]|(Hr & Hlt & [(o & Hother & Hmu & ->)|(Hmu & ->)])]; simpl; [done|..].
    + apply (dist_at_improve_fin g); [apply Hok'|by eapply (proj1 HadjT)|done].
    + apply (dist_at_improve_fin g); [apply Hok'|by eapply (proj1 HadjT)|done].
Qed.
End search_invariant.

Lemma side_ok_init g adj s0 :
  wf g → node_of g s0 → side_ok g adj s0 (init_side (num_nodes g) s0).
Proof.
  intros Hwf Hs.
  assert (Z.of_nat (length (replicate (Z.to_nat (num_nodes g)) (@Inf Z))) = num_nodes g)
    as Hlen.
  { rewrite length_replicate. pose proof (wf_nodes g Hwf). lia. }
  assert (∀ x, dist_at (replicate (Z.to_nat (num_nodes g)) Inf) x = Inf) as Hinf.
  { intros x. unfold dist_at, vec_at. case_decide; [|done].
    destruct (replicate _ _ !! _) as [d|] eqn:Hd; [|done].
    by apply lookup_replicate in Hd as [-> _]. }
  assert (reaches g adj s0 s0 0) as Hreach by (by exists []).
  split; simpl.
  - by rewrite length_vec_set.
  - rewrite length_replicate. pose proof (wf_nodes g Hwf). lia.
  - rewrite (dist_at_improve g) by done. by rewrite decide_True.
  - intros x d. rewrite (dist_at_improve g) by done. case_decide as Hx.
    + intros [= <-]. by rewrite <-Hx.
    + by rewrite Hinf.
  - intros d u [= -> ->]%list_elem_of_singleton. split; [done|].
    rewrite (dist_at_improve g) by done. rewrite decide_True by done. by eexists.
  - intros x Hx. rewrite (dist_at_improve g) by done. rewrite decide_False by done.
    rewrite Hinf. by intros [z ?].
Qed.

Lemma query_search_pair_ok g fuel s t fwd bwd mu meet_node :
  wf g → node_of g s → node_of g t →
  query_search fuel g s t = Some (fwd, bwd, mu, meet_node) →
  pair_ok g (out_edges g) s (in_edges g) t fwd bwd mu meet_node
  ∧ pq fwd = [] ∧ pq bwd = [].
Proof.
  intros Hwf Hs Ht. unfold query_search.
  apply (search_loop_inv g (pair_ok g (out_edges g) s (in_edges g) t)).
  - intros f b m mn Hok.
    pose proof (half_step_pair_ok g _ s _ t (adjacency_of_out g Hwf) f b m mn Hok) as Hstep.
    by destruct (half_step g (out_edges g) f (dist b) m mn) as [[f' m'] mn'].
  - intros f b m mn Hok%pair_ok_swap.
    pose proof (half_step_pair_ok g _ t _ s (adjacency_of_in g Hwf) b f m mn Hok) as Hstep.
    destruct (half_step g (in_edges g) b (dist f) m mn) as [[b' m'] mn'].
    by apply pair_ok_swap.
  - split; [by apply side_ok_init|by apply side_ok_init|done].
Qed.

(** ** Reconstruction of the path *)

Lemma trace_up_more_fuel fuel : ∀ ps origin curr up up' fuel',
  trace_up fuel ps origin curr up = Some up' → (fuel ≤ fuel')%nat →
  trace_up fuel' ps origin curr up = Some up'.
Proof.
  induction fuel as [|fuel IH]; intros ps origin curr up up' fuel'; simpl; [done|].
  intros Ht Hle. destruct fuel' as [|fuel']; [lia|]. simpl.
  case_decide; [done|]. apply IH; [done|lia].
Qed.

Lemma trace_up_returns g adj s0 sd fuel : ∀ curr up,
  side_ok g adj s0 sd →
  is_fin (dist_at (dist sd) curr) → Forall (node_of g) up →
  (depth g curr < fuel)%nat →
  ∃ up', trace_up fuel (parent sd) s0 curr up = Some up' ∧ Forall (node_of g) up'.
Proof.
  induction fuel as [|fuel IH]; intros curr up Hok Hfin Hup Hlt; [lia|]. simpl.
  case_decide as Hcurr; [by eexists|].
  destruct (ok_parent _ _ _ _ Hok curr Hcurr Hfin) as (Hp & Hr & Hpfin).
  apply IH; [done|done| |].
  - apply Forall_app. split; [done|]. apply Forall_singleton.
    eapply dist_at_fin_node; [apply Hok|done].
  - pose proof (depth_lt g curr _ Hp Hr). lia.
Qed.

Lemma unpack_prefix fuel : ∀ g u v path path',
  unpack fuel g u v path = Some path' → path `prefix_of` path'.
Proof.
  induction fuel as [|fuel IH]; intros g u v path path'; simpl; [done|].
  destruct (List.find (is_packed v) (out_edges g u)) as [e|].
  - destruct (unpack fuel g u (via_node e) path) as [p1|] eqn:H1; [|done].
    intros H2. etrans; [by eapply IH|by eapply IH].
  - intros [= <-]. by apply prefix_app_r.
Qed.

Lemma lvl_bound_lt lvl g u : node_of g u → (lvl u < lvl_bound lvl g)%nat.
Proof.
  intros Hu. unfold lvl_bound.
  assert (u ∈ seqZ 0 (num_nodes g)) as Hin.
  { apply elem_of_seqZ. unfold node_of in Hu. lia. }
  revert Hin. generalize (seqZ 0 (num_nodes g)) as l.
  induction l as [|x l IH]; [by intros ?%elem_of_nil|].
  intros [<-|Hin]%elem_of_cons; rewrite fmap_cons; cbn [foldr]; [lia|].
  specialize (IH Hin). lia.
Qed.

Lemma unpack_upward_more_fuel g nodes : ∀ ufuel curr path path' ufuel',
  unpack_upward ufuel g curr nodes path = Some path' → (ufuel ≤ ufuel')%nat →
  unpack_upward ufuel' g curr nodes path = Some path'.
Proof.
  induction nodes as [|x nodes IH]; intros ufuel curr path path' ufuel'; simpl; [done|].
  destruct (unpack ufuel g curr x path) as [p1|] eqn:H1; [|done].
  intros H2 Hle. rewrite (unpack_more_fuel _ _ _ _ _ _ _ H1 Hle). by eapply IH.
Qed.

Lemma unpack_upward_returns lvl g nodes : ∀ ufuel curr path,
  via_below lvl g → node_of g curr → Forall (node_of g) nodes →
  (lvl_bound lvl g ≤ ufuel)%nat →
  ∃ path', unpack_upward ufuel g curr nodes path = Some path' ∧ path `prefix_of` path'.
Proof.
  induction nodes as [|x nodes IH]; intros ufuel curr path Hvia Hcurr Hnodes Hfuel; simpl.
  - by eexists.
  - apply Forall_cons in Hnodes as [Hx Hnodes].
    destruct (unpack_returns lvl g Hvia ufuel curr x path) as [p1 Hp1].
    { pose proof (lvl_bound_lt lvl g curr Hcurr). lia. }
    rewrite Hp1. destruct (IH ufuel x p1 Hvia Hx Hnodes Hfuel) as (path' & Hp & Hpre).
    exists path'. split; [done|]. etrans; [by eapply unpack_prefix|done].
Qed.

Lemma trace_down_more_fuel fuel : ∀ ufuel g ps dest curr path path' fuel' ufuel',
  trace_down fuel ufuel g ps dest curr path = Some path' →
  (fuel ≤ fuel')%nat → (ufuel ≤ ufuel')%nat →
  trace_down fuel' ufuel' g ps dest curr path = Some path'.
Proof.
  induction fuel as [|fuel IH]; intros ufuel g ps dest curr path path' fuel' ufuel';
    simpl; [done|].
  intros Ht Hle Hule. destruct fuel' as [|fuel']; [lia|]. simpl.
  case_decide; [done|].
  destruct (unpack ufuel g curr (parent_at ps curr) path) as [p1|] eqn:H1; [|done].
  rewrite (unpack_more_fuel _ _ _ _ _ _ _ H1 Hule). eapply IH; [done|lia|done].
Qed.

Lemma trace_down_returns lvl g adj s0 sd fuel : ∀ ufuel curr path,
  side_ok g adj s0 sd → via_below lvl g →
  is_fin (dist_at (dist sd) curr) →
  (depth g curr < fuel)%nat → (lvl_bound lvl g ≤ ufuel)%nat →
  ∃ path', trace_down fuel ufuel g (parent sd) s0 curr path = Some path'
           ∧ path `prefix_of` path'.
Proof.
  induction fuel as [|fuel IH]; intros ufuel curr path Hok Hvia Hfin Hlt Hfuel; [lia|].
  simpl. case_decide as Hcurr; [by eexists|].
  destruct (ok_parent _ _ _ _ Hok curr Hcurr Hfin) as (Hp & Hr & Hpfin).
  assert (node_of g curr) as Hnode by (eapply dist_at_fin_node; [apply Hok|done]).
  destruct (unpack_returns lvl g Hvia ufuel curr (parent_at (parent sd) curr) path)
    as [p1 Hp1].
  { pose proof (lvl_bound_lt lvl g curr Hnode). lia. }
  rewrite Hp1.
  destruct (IH ufuel (parent_at (parent sd) curr) p1 Hok Hvia Hpfin) as (path' & Hp' & Hpre);
    [pose proof (depth_lt g curr _ Hp Hr); lia|done|].
  exists path'. split; [done|]. etrans; [by eapply unpack_prefix|done].
Qed.

Lemma query_path_more_fuel fuel g origin dest fwd bwd meet_node path fuel' :
  query_path fuel g origin dest fwd bwd meet_node = Some path → (fuel ≤ fuel')%nat →
  query_path fuel' g origin dest fwd bwd meet_node = Some path.
Proof.
  unfold query_path. intros Hq Hle.
  destruct (trace_up fuel (parent fwd) origin meet_node []) as [up|] eqn:Hup; [|done].
  rewrite (trace_up_more_fuel _ _ _ _ _ _ _ Hup Hle). simpl in *.
  destruct (unpack_upward fuel g origin (rev up) [origin]) as [p1|] eqn:Hp1; [|done].
  rewrite (unpack_upward_more_fuel _ _ _ _ _ _ _ Hp1 Hle). simpl in *.
  by eapply trace_down_more_fuel.
Qed.

Lemma query_more_fuel fuel g origin dest r fuel' :
  query fuel g origin dest = Some r → (fuel ≤ fuel')%nat →
  query fuel' g origin dest = Some r.
Proof.
  unfold query. intros Hq Hle. case_decide; [done|].
  destruct (query_search fuel g origin dest) as [[[[fwd bwd] mu] meet_node]|] eqn:Hs;
    [|done].
  unfold query_search in *. rewrite (search_loop_more_fuel _ _ _ _ _ _ _ _ Hs Hle).
  simpl in *. case_decide; [done|].
  destruct (query_path fuel g origin dest fwd bwd meet_node) as [path|] eqn:Hp; [|done].
  by rewrite (query_path_more_fuel _ _ _ _ _ _ _ _ _ Hp Hle).
Qed.

Lemma query_path_returns lvl g origin dest fwd bwd mu meet_node fuel :
  pair_ok g (out_edges g) origin (in_edges g) dest fwd bwd mu meet_node →
  via_below lvl g → node_of g origin → meet_node ≠ -1 →
  (S (Z.to_nat (num_nodes g)) ≤ fuel)%nat → (lvl_bound lvl g ≤ fuel)%nat →
  ∃ path, query_path fuel g origin dest fwd bwd meet_node = Some path ∧ path ≠ [].
Proof.
  intros [Hf Hb Hm] Hvia Horigin Hmeet Hfuel Hufuel.
  unfold meet_ok in Hm. destruct mu as [m|]; [|done]. destruct Hm as (Hmf & Hmb & _).
  unfold query_path.
  destruct (trace_up_returns g _ origin fwd fuel meet_node [] Hf Hmf) as (up & Hup & Hnodes);
    [done|pose proof (depth_bound g meet_node); lia|].
  rewrite Hup. simpl.
  destruct (unpack_upward_returns lvl g (rev up) fuel origin [origin] Hvia Horigin)
    as (p1 & Hp1 & Hpre1); [by apply Forall_rev|done|].
  rewrite Hp1. simpl.
  destruct (trace_down_returns lvl g _ dest bwd fuel fuel meet_node p1 Hb Hvia Hmb)
    as (path & Hpath & Hpre2); [pose proof (depth_bound g meet_node); lia|done|].
  exists path. split; [done|].
  intros ->. apply prefix_nil_inv in Hpre2 as ->. by apply prefix_nil_inv in Hpre1.
Qed.

Lemma query_search_returns lvl g s t :
  wf g →
  ∃ final, ∀ fuel, (query_fuel lvl g s t ≤ fuel)%nat →
                   query_search fuel g s t = Some final.
Proof.
  intros Hwf.
  destruct (search_loop_returns g (S (side_budget g [(0, s)] + side_budget g [(0, t)]))
              (init_side (num_nodes g) s) (init_side (num_nodes g) t) Inf (-1) Hwf)
    as [final Hfinal]; [simpl; lia|].
  exists final. intros fuel Hfuel. unfold query_search.
  eapply search_loop_more_fuel; [exact Hfinal|]. unfold query_fuel in Hfuel. lia.
Qed.

(** ** The search misses no meeting *)

Lemma fold_left_inv_done {A B} (f : A → B → A) (P : list B → A → Prop) (l : list B) :
  ∀ done a,
    P done a →
    (∀ done a b, b ∈ l → P done a → P (done ++ [b]) (f a b)) →
    P (done ++ l) (fold_left f l a).
Proof.
  induction l as [|b l IH]; intros done a Ha Hf; simpl.
  - by rewrite app_nil_r.
  - rewrite (cons_middle b done l), app_assoc. apply IH.
    + apply Hf; [by left|done].
    + intros done' a' b' Hb'. apply Hf. by right.
Qed.

Lemma le_ext_lower x mu z :
  le_ext x mu = false → lt_ext z mu = true → le_ext x (Fin z) = false.
Proof.
  destruct mu as [m|]; simpl; [|done].
  intros ?%bool_decide_eq_false ?%bool_decide_eq_true. apply bool_decide_eq_false. lia.
Qed.

Lemma lt_ext_lower x mu z :
  lt_ext x mu = false → lt_ext z mu = true → lt_ext x (Fin z) = false.
Proof.
  destruct mu as [m|]; simpl; [|done].
  intros ?%bool_decide_eq_false ?%bool_decide_eq_true. apply bool_decide_eq_false. lia.
Qed.

Lemma lt_ext_false x mu : lt_ext x mu = false ↔ ∃ m, mu = Fin m ∧ m ≤ x.
Proof.
  destruct mu as [m|]; simpl.
  - rewrite bool_decide_eq_false. split; [intros; exists m; split; [done|lia]|].
    intros (m' & [= <-] & ?). lia.
  - split; [done|]. by intros (m & ? & _).
Qed.

Section search_complete.
Context (g : CHGraph) (adjT : Z → list Edge) (sT : Z) (adjO : Z → list Edge) (sO : Z).
Hypothesis HadjT : adjacency_of g adjT.

Lemma relaxed_edge_improved this u' nd x y dy e :
  Z.of_nat (length (dist this)) = num_nodes g → node_of g x →
  lt_ext nd (dist_at (dist this) x) = true →
  relaxed_edge g this y dy e → relaxed_edge g (improved this u' nd x) y dy e.
Proof.
  intros Hlen Hx Hlt Hrel Hr. specialize (Hrel Hr). simpl.
  rewrite (dist_at_improve g) by done. case_decide as Heq; [|done].
  rewrite <-Heq in Hrel. by eapply lt_ext_lower.
Qed.

Lemma relax_complete this other mu meet_node u d done e :
  pair_ok g adjT sT adjO sO this other mu meet_node →
  e ∈ adjT u →
  settled_but g adjT this mu u d done → settled g adjO other mu → meet_le this other mu →
  let st := relax g u d (dist other) (this, mu, meet_node) e in
  settled_but g adjT st.1.1 st.1.2 u d (done ++ [e])
  ∧ settled g adjO other st.1.2
  ∧ meet_le st.1.1 other st.1.2.
Proof.
  intros [Ht Ho Hm] He Hsb Hso Hml. cbv zeta.
  assert (node_of g (target e)) as Hx by (by eapply (proj1 HadjT)).
  pose proof (ok_dist_len _ _ _ _ Ht) as Hlen.
  destruct (relax_cases g u d (dist other) this mu meet_node e)
    as [[-> Hnot]|(Hr & Hlt & Hcase)].
  { simpl. split_and!; [|done|done]. intros x dx Hdx.
    destruct (Hsb x dx Hdx) as [?|[?|[?|(-> & -> & Hdone)]]]; auto.
    right. right. right. split_and!; [done|done|].
    intros e' [He'| ->%list_elem_of_singleton]%elem_of_app; [by apply Hdone|].
    intros Hr. destruct (lt_ext (dadd d (weight e)) (dist_at (dist this) (target e))) eqn:Hlt;
      [|done]. destruct Hnot. done. }
  assert (∃ mu' meet',
    relax g u d (dist other) (this, mu, meet_node) e
    = (improved this u (dadd d (weight e)) (target e), mu', meet')
    ∧ (∀ z, le_ext z mu = false → le_ext z mu' = false)
    ∧ (∀ z, lt_ext z mu = false → lt_ext z mu' = false)
    ∧ (∀ o, dist_at (dist other) (target e) = Fin o →
            lt_ext (dadd (dadd d (weight e)) o) mu' = false)) as (mu' & meet' & -> & Hle & Hlt' & Hnew).
  { destruct Hcase as [(o & Hother & Hmu & ->)|(Hmu & ->)].
    - eexists _, _. split_and!; [done|..].
      + intros z Hz. by eapply le_ext_lower.
      + intros z Hz. by eapply lt_ext_lower.
      + intros o' Ho'. rewrite Hother in Ho'. injection Ho' as <-. simpl.
        apply bool_decide_eq_false. lia.
    - eexists _, _. split_and!; [done|done|done|done]. }
  simpl. split_and!.
  - intros x dx. simpl. rewrite (dist_at_improve g) by done. case_decide as Heq.
    + intros [= <-]. left. apply elem_of_pq_push. left. by rewrite Heq.
    + intros Hdx. destruct (Hsb x dx Hdx) as [Hin|[Hmu|[Hrel|(-> & -> & Hdone)]]].
      * left. apply elem_of_pq_push. by right.
      * right. left. by apply Hle.
      * right. right. left. intros e' He'. apply relaxed_edge_improved; [done..|].
        by apply Hrel.
      * right. right. right. split_and!; [done|done|].
        intros e' [He'| ->%list_elem_of_singleton]%elem_of_app.
        -- apply relaxed_edge_improved; [done..|]. by apply Hdone.
        -- intros _. simpl. rewrite (dist_at_improve g) by done.
           rewrite decide_True by done. simpl. apply bool_decide_eq_false. lia.
  - intros x dx Hdx. destruct (Hso x dx Hdx) as [?|[?|?]]; auto.
  - intros x a b. simpl. rewrite (dist_at_improve g) by done. case_decide as Heq.
    + intros [= <-] Hb. rewrite <-Heq in Hb. by apply Hnew.
    + intros Ha Hb. apply Hlt'. by eapply Hml.
Qed.

Lemma half_step_complete this other mu meet_node :
  pair_ok g adjT sT adjO sO this other mu meet_node →
  settled g adjT this mu → settled g adjO other mu → meet_le this other mu →
  let st := half_step g adjT this (dist other) mu meet_node in
  settled g adjT st.1.1 st.1.2 ∧ settled g adjO other st.1.2 ∧ meet_le st.1.1 other st.1.2.
Proof.
  intros Hok Hst Hso Hml. cbv zeta. unfold half_step.
  destruct (pq this) as [|[d u] rest] eqn:Hpq; [done|].
  destruct (ok_queue _ _ _ _ (po_this _ _ _ _ _ _ _ _ _ Hok) d u) as [Hu Hfin].
  { rewrite Hpq. by left. }
  set (this0 := {| pq := rest; dist := dist this; parent := parent this |}).
  assert (pair_ok g adjT sT adjO sO this0 other mu meet_node) as Hok0.
  { destruct Hok as [Ht Ho Hm]. split; [|done|done].
    apply side_ok_popped in Ht. unfold popped in Ht. by rewrite Hpq in Ht. }
  assert (settled_but g adjT this0 mu u d []) as Hsb0.
  { intros x dx Hdx. destruct (Hst x dx Hdx) as [Hin|[?|?]]; auto.
    rewrite Hpq in Hin. apply elem_of_cons in Hin as [[= -> ->]|Hin]; [|by left].
    right. right. right. split_and!; [done|done|]. by intros e ?%elem_of_nil. }
  destruct (le_ext d mu) eqn:Hd.
  - cut ((λ done st,
            pair_ok g adjT sT adjO sO st.1.1 other st.1.2 st.2
            ∧ is_fin (dist_at (dist st.1.1) u)
            ∧ settled_but g adjT st.1.1 st.1.2 u d done
            ∧ settled g adjO other st.1.2 ∧ meet_le st.1.1 other st.1.2)
           ([] ++ adjT u)
           (fold_left (relax g u d (dist other)) (adjT u) (this0, mu, meet_node))).
    { simpl. intros (_ & _ & Hsb & ? & ?). split_and!; [|done|done].
      intros x dx Hdx. destruct (Hsb x dx Hdx) as [?|[?|[?|(-> & -> & Hdone)]]]; auto. }
    apply fold_left_inv_done; [by split_and!|].
    intros done [[this' mu'] meet'] e He (Hok' & Hfin' & Hsb' & Hso' & Hml').
    simpl in Hok', Hfin', Hsb', Hso', Hml'.
    destruct (relax_complete this' other mu' meet' u d done e Hok' He Hsb' Hso' Hml')
      as (? & ? & ?).
    split_and!; [by apply relax_pair_ok| |done|done|done].
    destruct (relax_cases g u d (dist other) this' mu' meet' e)
      as [[-> _]|(Hr & Hlt & [(o & Hother & Hmu & ->)|(Hmu & ->)])]; simpl; [done|..].
    + apply (dist_at_improve_fin g); [apply Hok'|by eapply (proj1 HadjT)|done].
    + apply (dist_at_improve_fin g); [apply Hok'|by eapply (proj1 HadjT)|done].
  - simpl. split_and!; [|done|done].
    intros x dx Hdx. destruct (Hsb0 x dx Hdx) as [?|[?|[?|(-> & -> & _)]]]; auto.
Qed.
End search_complete.

Lemma meet_le_swap this other mu : meet_le this other mu → meet_le other this mu.
Proof. intros Hml x a b Ha Hb. rewrite dadd_comm. by eapply Hml. Qed.

Lemma is_double_0 : is_double 0.
Proof. reflexivity. Qed.

(** The distance of a settled node is at most what the search
    accumulates along any upward walk to it that stays below [mu]:
    rounded additions are monotone and, for weights that are not
    negative, do not decrease. *)
Lemma settled_walk g adj sd mu B :
  settled g adj sd mu → pq sd = [] →
  (∀ x e, e ∈ adj x → 0 ≤ weight e) → lt_ext B mu = true →
  ∀ es u v d0 dcur,
    is_walk adj u es v → ascending (rank_of g) u es →
    dist_at (dist sd) u = Fin dcur → dcur ≤ d0 → is_double d0 →
    walk_cost d0 es ≤ B →
    ∃ dv, dist_at (dist sd) v = Fin dv ∧ dv ≤ walk_cost d0 es.
Proof.
  intros Hst Hpq Hnn HB. induction es as [|e es IH]; intros u v d0 dcur; simpl.
  - intros <- _ Hd Hle _ _. by exists dcur.
  - intros [He Hw] [Hr Ha] Hd Hle Hdbl Hbound.
    pose proof (Hnn _ _ He) as Hwe.
    assert (d0 ≤ walk_cost (dadd d0 (weight e)) es) as Hge.
    { etrans; [apply (dadd_ge d0 (weight e)); done|].
      apply (walk_cost_ge adj es (target e) v _ Hnn Hw), dadd_is_double. }
    destruct (Hst u dcur Hd) as [Hin|[Hmu|Hrel]].
    + rewrite Hpq in Hin. by apply elem_of_nil in Hin.
    + exfalso. destruct mu as [m|]; simpl in *; [|done].
      apply bool_decide_eq_false in Hmu. apply bool_decide_eq_true in HB. lia.
    + specialize (Hrel e He Hr). apply lt_ext_false in Hrel as (d1 & Hd1 & Hle1).
      destruct (IH (target e) v (dadd d0 (weight e)) d1 Hw Ha Hd1) as (dv & Hdv & Hlev).
      * etrans; [exact Hle1|]. apply dadd_mono; [done|lia].
      * apply dadd_is_double.
      * done.
      * by exists dv.
Qed.

Lemma search_minimal g adjT sT adjO sO this other mu meet_node :
  pair_ok g adjT sT adjO sO this other mu meet_node →
  settled g adjT this mu → settled g adjO other mu → meet_le this other mu →
  pq this = [] → pq other = [] →
  (∀ x e, e ∈ adjT x → 0 ≤ weight e) → (∀ x e, e ∈ adjO x → 0 ≤ weight e) →
  ∀ m, meets g adjT sT adjO sO m → lt_ext m mu = false.
Proof.
  intros [Ht Ho Hm] Hst Hso Hml Hpt Hpo HnnT HnnO m
    (x & a & b & (es1 & [Hw1 Ha1] & <-) & (es2 & [Hw2 Ha2] & <-) & ->).
  set (a := walk_cost 0 es1). set (b := walk_cost 0 es2).
  destruct (lt_ext (dadd a b) mu) eqn:Hlt; [|done].
  assert (is_double a) as Hda by apply walk_cost_is_double, is_double_0.
  assert (is_double b) as Hdb by apply walk_cost_is_double, is_double_0.
  assert (0 ≤ a) as Hpos1 by apply (walk_cost_ge adjT es1 sT x 0 HnnT Hw1 is_double_0).
  assert (0 ≤ b) as Hpos2 by apply (walk_cost_ge adjO es2 sO x 0 HnnO Hw2 is_double_0).
  assert (a ≤ dadd a b) as Hale by (by apply dadd_ge).
  assert (b ≤ dadd a b) as Hble by (rewrite dadd_comm; by apply dadd_ge).
  destruct (settled_walk g adjT this mu _ Hst Hpt HnnT Hlt es1 sT x 0 0 Hw1 Ha1)
    as (a' & Ha' & Hlea); [apply Ht|lia|apply is_double_0|done|].
  destruct (settled_walk g adjO other mu _ Hso Hpo HnnO Hlt es2 sO x 0 0 Hw2 Ha2)
    as (b' & Hb' & Hleb); [apply Ho|lia|apply is_double_0|done|].
  specialize (Hml x a' b' Ha' Hb'). apply lt_ext_false in Hml as (mm & -> & Hmm).
  simpl in Hlt. apply bool_decide_eq_true in Hlt.
  pose proof (dadd_mono a' a b' b Hlea Hleb). fold a b in Hlea, Hleb. lia.
Qed.

(** What the search of [query] ends with, for two distinct nodes of a
    graph without negative weights: [mu] is the least weight of a
    meeting of the two upward searches, and no node is recorded when they
    do not meet. *)
Lemma query_search_minimal g fuel s t fwd bwd mu meet_node :
  wf g → nonneg g → node_of g s → node_of g t → s ≠ t →
  query_search fuel g s t = Some (fwd, bwd, mu, meet_node) →
  (∀ m, meets g (out_edges g) s (in_edges g) t m → ∃ m', mu = Fin m' ∧ m' ≤ m)
  ∧ (∀ m', mu = Fin m' → meets g (out_edges g) s (in_edges g) t m' ∧ meet_node ≠ -1)
  ∧ (mu = Inf → meet_node = -1).
Proof.
  intros Hwf [Hnn_out Hnn_in] Hs Ht Hst Hsearch.
  pose proof (search_loop_inv g
    (λ f b m mn, pair_ok g (out_edges g) s (in_edges g) t f b m mn
                 ∧ settled g (out_edges g) f m ∧ settled g (in_edges g) b m
                 ∧ meet_le f b m)) as Hinv.
  destruct (Hinv) with (fuel := fuel) (fwd := init_side (num_nodes g) s)
    (bwd := init_side (num_nodes g) t) (mu := @Inf Z) (meet_node := -1)
    (fwd' := fwd) (bwd' := bwd) (mu' := mu) (meet' := meet_node)
    as ((Hok & Hsf & Hsb & Hml) & Hpf & Hpb); clear Hinv.
  - intros f b m mn (Hok & Hsf & Hsb & Hml).
    pose proof (half_step_pair_ok g _ s _ t (adjacency_of_out g Hwf) f b m mn Hok) as Hstep.
    pose proof (half_step_complete g _ s _ t (adjacency_of_out g Hwf) f b m mn
                  Hok Hsf Hsb Hml) as Hcomp.
    by destruct (half_step g (out_edges g) f (dist b) m mn) as [[f' m'] mn'].
  - intros f b m mn (Hok%pair_ok_swap & Hsf & Hsb & Hml%meet_le_swap).
    pose proof (half_step_pair_ok g _ t _ s (adjacency_of_in g Hwf) b f m mn Hok) as Hstep.
    pose proof (half_step_complete g _ t _ s (adjacency_of_in g Hwf) b f m mn
                  Hok Hsb Hsf Hml) as Hcomp.
    destruct (half_step g (in_edges g) b (dist f) m mn) as [[b' m'] mn'].
    simpl in *. destruct Hcomp as (? & ? & ?%meet_le_swap).
    split_and!; [by apply pair_ok_swap|done|done|done].
  - pose proof (side_ok_init g (out_edges g) s Hwf Hs) as Hfs.
    pose proof (side_ok_init g (in_edges g) t Hwf Ht) as Hbs.
    assert (∀ s0 x dx, node_of g s0 →
              dist_at (dist (init_side (num_nodes g) s0)) x = Fin dx → x = s0 ∧ dx = 0)
      as Hinit.
    { intros s0 x dx Hs0. simpl. rewrite (dist_at_improve g); [|by
        rewrite length_replicate; pose proof (wf_nodes g Hwf); lia|done].
      case_decide; [by intros [= <-]|].
      unfold dist_at, vec_at. case_decide; [|done].
      destruct (replicate _ _ !! _) as [d'|] eqn:Hd; [|done].
      by apply lookup_replicate in Hd as [-> _]. }
    split_and!.
    + split; [done|done|done].
    + intros x dx Hdx. apply Hinit in Hdx as [-> ->]; [|done]. left. simpl. by left.
    + intros x dx Hdx. apply Hinit in Hdx as [-> ->]; [|done]. left. simpl. by left.
    + intros x a b Ha Hb. apply Hinit in Ha as [-> _]; [|done].
      apply Hinit in Hb as [-> _]; done.
  - exact Hsearch.
  - split_and!.
    + intros m Hm. apply lt_ext_false. by eapply search_minimal.
    + intros m' ->. destruct Hok as [Hf Hb Hm]. simpl in Hm.
      destruct Hm as (Hfin & _ & Hmeets). split; [done|].
      apply (dist_at_fin_node g) in Hfin; [|apply Hf]. unfold node_of in Hfin. lia.
    + intros ->. by destruct Hok as [_ _ Hm].
Qed.

(** ** Contraction covers every pair of neighbours *)

Lemma core_walk_mono g g' a ws c :
  contracted g' = contracted g →
  (∀ u e, e ∈ out_edges g u → e ∈ out_edges g' u) →
  core_walk g a ws c → core_walk g' a ws c.
Proof.
  intros Hflags Hout (Hw & Ha & Hall). unfold core_walk, is_contracted in *.
  rewrite Hflags. split_and!; [|done|done].
  clear Ha Hall. revert a Hw. induction ws as [|e ws IH]; intros a; simpl; [done|].
  intros [He Hw]. split; [by apply Hout|by apply IH].
Qed.

Lemma covered_mono g g' a c W :
  contracted g' = contracted g →
  (∀ u e, e ∈ out_edges g u → e ∈ out_edges g' u) →
  covered g a c W → covered g' a c W.
Proof.
  intros Hflags Hout (ws & Hw & Hle). exists ws. split; [|done].
  by eapply core_walk_mono.
Qed.

Lemma out_edges_push_incl g u v w sc via x e :
  e ∈ out_edges g x → e ∈ out_edges (push_edge g u v w sc via) x.
Proof.
  intros He. rewrite out_edges_push_edge. case_decide; [|done].
  apply elem_of_app. by left.
Qed.

Lemma in_edges_push_incl g u v w sc via x e :
  e ∈ in_edges g x → e ∈ in_edges (push_edge g u v w sc via) x.
Proof.
  intros He. rewrite in_edges_push_edge. case_decide; [|done].
  apply elem_of_app. by left.
Qed.

Lemma weights_within_in g W :
  mirrored g → weights_within W (out_edges g) → weights_within W (in_edges g).
Proof.
  intros Hmir HW v e He. apply (mirrored_out_of_in g v e Hmir) in He.
  apply HW in He. done.
Qed.

Lemma weights_within_le W W' adj :
  W ≤ W' → weights_within W adj → weights_within W' adj.
Proof. intros Hle HW x e He. specialize (HW x e He). lia. Qed.

Lemma weights_within_push g u v w sc via W :
  0 ≤ w ≤ W → weights_within W (out_edges g) →
  weights_within W (out_edges (push_edge g u v w sc via)).
Proof.
  intros Hw HW x e. rewrite out_edges_push_edge. case_decide; [|by apply HW].
  intros [He| ->%list_elem_of_singleton]%elem_of_app; [by eapply HW|done].
Qed.

(** In this section the weights around the node being contracted are
    between 0 and [Wb], and [4 * Wb] is at most [2 ^ 53]: the total of a
    candidate pair and the sums of the witness search are exact. *)
Section contract_cover.
Context (g1 : CHGraph) (node hop_limit Wb : Z).
Hypothesis Hhop : 0 ≤ hop_limit.
Hypothesis Hexact : 4 * Wb ≤ double_exact.

Lemma contracting_push g a c W :
  contracting g1 g → node_of g1 a → node_of g1 c → 0 ≤ W →
  contracting g1 (push_edge g a c W true node).
Proof.
  intros [Hwf Hnn Hn Hflags Hout Hin] Ha Hc HW.
  unfold node_of in Ha, Hc. rewrite <-Hn in Ha, Hc.
  split; simpl; [by apply wf_push_edge|by apply nonneg_push_edge|done|done|..].
  - intros u e He. fold (out_edges (push_edge g a c W true node) u).
    by apply out_edges_push_incl, Hout.
  - intros u e He. fold (in_edges (push_edge g a c W true node) u).
    by apply in_edges_push_incl, Hin.
Qed.

Lemma covered_push g a c W :
  contracting g1 g → neighbour g1 a → neighbour g1 c →
  covered (push_edge g a c W true node) a c W.
Proof.
  intros [Hwf Hnn Hn Hflags Hout Hin] [Ha Hac] [Hc Hcc].
  exists [mkEdge c W true node]. split; [|simpl; lia].
  unfold core_walk, is_contracted. simpl. rewrite Hflags. split_and!.
  - fold (out_edges (push_edge g a c W true node) a). rewrite out_edges_push_edge.
    rewrite decide_True; [apply elem_of_app; right; by left|].
    split; [done|]. rewrite <-(node_of_in_vec g); [|apply Hwf].
    unfold node_of in *. by rewrite Hn.
  - done.
  - done.
  - apply Forall_singleton. done.
Qed.

Lemma covered_witness g a c L :
  contracting g1 g → weights_within (2 * Wb) (out_edges g) → L ≤ 2 * Wb →
  neighbour g1 a → neighbour g1 c →
  witness_search g a c L node hop_limit = true → covered g a c L.
Proof.
  intros [Hwf Hnn Hn Hflags Hout Hin] HW HL [Ha Hac] [Hc Hcc] Hw.
  apply (witness_search_true g a c L node hop_limit (2 * Wb)) in Hw; [|done|lia|done].
  destruct Hw as [(e & He & Ht & Hle)|(ws & Hwalk & Hle & _ & Hall)].
  - exists [e]. split; [|simpl; lia]. unfold core_walk, is_contracted. rewrite Hflags.
    split_and!; [by split|done|]. apply Forall_singleton. by rewrite Ht.
  - exists ws. split; [|done]. unfold core_walk, is_contracted. rewrite Hflags.
    split_and!; [done|done|].
    eapply Forall_impl; [exact Hall|]. intros e [_ [He|He]].
    + unfold is_contracted in He. by rewrite Hflags in He.
    + by rewrite He.
Qed.

Lemma contract_inner_covers u d_uv out_neighbors : ∀ g added,
  contracting g1 g → weights_within (2 * Wb) (out_edges g) →
  neighbour g1 u → 0 ≤ d_uv ≤ Wb →
  (∀ oe, oe ∈ out_neighbors → neighbour g1 (target oe) ∧ 0 ≤ weight oe ≤ Wb) →
  match contract_inner node hop_limit u d_uv out_neighbors g added with
  | Next (g', added') =>
    contracting g1 g' ∧ weights_within (2 * Wb) (out_edges g') ∧ added ≤ added'
    ∧ (∀ a c W, covered g a c W → covered g' a c W)
    ∧ (added' < max_shortcuts →
       ∀ oe, oe ∈ out_neighbors → u ≠ target oe →
             covered g' u (target oe) (d_uv + weight oe))
  | Ret (g', added') => added ≤ added' ∧ added' >= max_shortcuts
  end.
Proof.
  induction out_neighbors as [|oe rest IH]; intros g added Hct HW Hu Hd Houts; simpl.
  { split_and!; [done|done|lia|done|]. by intros _ oe ?%elem_of_nil. }
  destruct (Houts oe ltac:(by left)) as [Hc Hw].
  assert (∀ oe', oe' ∈ rest → neighbour g1 (target oe') ∧ 0 ≤ weight oe' ≤ Wb) as Hrest.
  { intros oe' ?. apply Houts. by right. }
  destruct (decide (u = target oe)) as [Heq|Hne].
  { specialize (IH g added Hct HW Hu Hd Hrest).
    destruct (contract_inner node hop_limit u d_uv rest g added) as [[g' a']|[g' a']];
      [|done].
    destruct IH as (? & ? & ? & ? & Hcov). split_and!; [done..|].
    intros Ha' oe' [->|Hin]%elem_of_cons Hne'; [done|by apply Hcov]. }
  destruct (decide (added >= max_shortcuts)) as [Hcap|Hcap]; [split; [lia|done]|].
  rewrite (dadd_exact d_uv (weight oe)) by (unfold double_exact in *; lia).
  destruct (witness_search g u (target oe) (d_uv + weight oe) node hop_limit) eqn:Hwit.
  - specialize (IH g added Hct HW Hu Hd Hrest).
    destruct (contract_inner node hop_limit u d_uv rest g added) as [[g' a']|[g' a']];
      [|done].
    destruct IH as (? & ? & ? & Hmono & Hcov). split_and!; [done..|].
    intros Ha' oe' [->|Hin]%elem_of_cons Hne'; [|by apply Hcov].
    apply Hmono. apply covered_witness; [done|done|lia|done|done|done].
  - assert (contracting g1 (push_edge g u (target oe) (d_uv + weight oe) true node))
      as Hct'.
    { apply contracting_push; [done|apply Hu|apply Hc|lia]. }
    assert (weights_within (2 * Wb)
              (out_edges (push_edge g u (target oe) (d_uv + weight oe) true node)))
      as HW'.
    { apply weights_within_push; [lia|done]. }
    specialize (IH _ (added + 1) Hct' HW' Hu Hd Hrest).
    destruct (contract_inner node hop_limit u d_uv rest _ (added + 1))
      as [[g' a']|[g' a']]; [|split; lia].
    destruct IH as (? & ? & ? & Hmono & Hcov). split_and!; [done|done|lia| |].
    + intros a c W Hac. apply Hmono.
      eapply covered_mono; [| |exact Hac]; [done|].
      intros x e. apply out_edges_push_incl.
    + intros Ha' oe' [->|Hin]%elem_of_cons Hne'; [|by apply Hcov].
      apply Hmono. by apply covered_push.
Qed.

Lemma contract_outer_covers in_neighbors out_neighbors : ∀ g added,
  contracting g1 g → weights_within (2 * Wb) (out_edges g) →
  (∀ ie, ie ∈ in_neighbors → neighbour g1 (target ie) ∧ 0 ≤ weight ie ≤ Wb) →
  (∀ oe, oe ∈ out_neighbors → neighbour g1 (target oe) ∧ 0 ≤ weight oe ≤ Wb) →
  added ≤ (contract_outer node hop_limit in_neighbors out_neighbors g added).2
  ∧ ((contract_outer node hop_limit in_neighbors out_neighbors g added).2 < max_shortcuts →
     contracting g1 (contract_outer node hop_limit in_neighbors out_neighbors g added).1
     ∧ (∀ a c W, covered g a c W →
          covered (contract_outer node hop_limit in_neighbors out_neighbors g added).1 a c W)
     ∧ (∀ ie oe, ie ∈ in_neighbors → oe ∈ out_neighbors → target ie ≠ target oe →
          covered (contract_outer node hop_limit in_neighbors out_neighbors g added).1
                  (target ie) (target oe) (weight ie + weight oe))).
Proof.
  induction in_neighbors as [|ie rest IH]; intros g added Hct HW Hins Houts; simpl.
  { split; [lia|]. intros _. split_and!; [done|done|]. by intros ie oe ?%elem_of_nil. }
  destruct (Hins ie ltac:(by left)) as [Hu Hw].
  assert (∀ ie', ie' ∈ rest → neighbour g1 (target ie') ∧ 0 ≤ weight ie' ≤ Wb) as Hrest.
  { intros ie' ?. apply Hins. by right. }
  pose proof (contract_inner_covers (target ie) (weight ie) out_neighbors g added
                Hct HW Hu Hw Houts) as Hin.
  destruct (contract_inner node hop_limit (target ie) (weight ie) out_neighbors g added)
    as [[g' a']|[g' a']]; simpl.
  - destruct Hin as (Hct' & HW' & Hle & Hmono & Hcov).
    destruct (IH g' a' Hct' HW' Hrest Houts) as [Hle' Hfinal]. split; [lia|].
    intros Hcap. destruct (Hfinal Hcap) as (Hct'' & Hmono' & Hcov'). split_and!; [done| |].
    + intros a c W Hac. by apply Hmono', Hmono.
    + intros ie' oe [->|Hie]%elem_of_cons Hoe Hne; [|by apply Hcov'].
      apply Hmono', Hcov; [lia|done|done].
  - destruct Hin as [? ?]. split; lia.
Qed.
End contract_cover.

Lemma contract_node_covers g v Wb :
  wf g → weights_within Wb (out_edges g) → weights_within Wb (in_edges g) →
  4 * Wb ≤ double_exact → node_of g v →
  (contract_node g v).2 < max_shortcuts →
  contracting (mark_contracted g v) (contract_node g v).1
  ∧ ∀ ie oe,
      ie ∈ in_edges g v → is_contracted g (target ie) = false → target ie ≠ v →
      oe ∈ out_edges g v → is_contracted g (target oe) = false → target oe ≠ v →
      target ie ≠ target oe →
      covered (contract_node g v).1 (target ie) (target oe) (weight ie + weight oe).
Proof.
  intros Hwf HWo HWi Hexact Hv Hcap. unfold contract_node in *.
  set (g1 := mark_contracted g v) in *.
  set (hop := if bool_decide _ then 1 else 3) in *.
  assert (0 ≤ hop) as Hhop by (unfold hop; case_bool_decide; lia).
  assert (nonneg g) as Hnn.
  { split; intros u e He; [by destruct (HWo u e He)|by destruct (HWi u e He)]. }
  assert (contracting g1 g1) as Hct.
  { split; [by apply wf_mark_contracted|by apply nonneg_mark_contracted|done..]. }
  assert (∀ x, is_contracted g1 x = false ↔ x ≠ v ∧ is_contracted g x = false) as Hflag.
  { intros x. unfold g1. rewrite is_contracted_mark.
    rewrite (node_of_in_vec g (contracted g)) in Hv by apply Hwf.
    destruct (decide (v = x ∧ in_vec (contracted g) v)) as [[<- _]|Hx].
    - split; [done|]. by intros [? _].
    - split; [|by intros [_ ?]]. intros Hc. split; [|done]. intros ->. by apply Hx. }
  destruct (contract_outer_covers g1 v hop Wb Hhop Hexact
              (uncontracted_edges g1 (in_edges g1 v))
              (uncontracted_edges g1 (out_edges g1 v)) g1 0 Hct) as [_ Hfinal].
  - intros x e He. pose proof (HWo x e He). lia.
  - intros ie [Hie Hc]%elem_of_uncontracted_edges.
    split; [|by eapply HWi]. split; [|done].
    by eapply (wf_in_target g).
  - intros oe [Hoe Hc]%elem_of_uncontracted_edges.
    split; [|by eapply HWo]. split; [|done].
    by eapply (wf_out_target g).
  - destruct (Hfinal Hcap) as (Hct' & _ & Hcov). split; [done|].
    intros ie oe Hie Hiec Hiev Hoe Hoec Hoev Hne. apply Hcov; [| |done].
    + apply elem_of_uncontracted_edges. split; [done|]. by apply Hflag.
    + apply elem_of_uncontracted_edges. split; [done|]. by apply Hflag.
Qed.

(** ** Walks through the node being contracted *)

Section through.
Context (adj : Z → list Edge) (v : Z).

Lemma first_arrival es : ∀ x y,
  is_walk adj x es y → x ≠ v →
  Forall (λ e, target e ≠ v) es
  ∨ ∃ P a e_in R,
      es = P ++ e_in :: R ∧ is_walk adj x P a ∧ Forall (λ e, target e ≠ v) P
      ∧ a ≠ v ∧ e_in ∈ adj a ∧ target e_in = v ∧ is_walk adj v R y.
Proof.
  induction es as [|e es IH]; intros x y; simpl; [by left|].
  intros [He Hw] Hx. destruct (decide (target e = v)) as [Hev|Hev].
  - right. exists [], x, e, es. rewrite Hev in Hw. by split_and!.
  - destruct (IH _ _ Hw Hev) as [Hall|(P & a & e_in & R & -> & HP & Hall & Ha & Hin & Ht & HR)].
    + left. by apply Forall_cons.
    + right. exists (e :: P), a, e_in, R. split_and!; try done.
      by apply Forall_cons.
Qed.

Lemma last_departure n : ∀ R y,
  (length R ≤ n)%nat → is_walk adj v R y → y ≠ v →
  ∃ M e_out S,
    R = M ++ e_out :: S ∧ is_walk adj v M v ∧ e_out ∈ adj v ∧ target e_out ≠ v
    ∧ is_walk adj (target e_out) S y ∧ Forall (λ e, target e ≠ v) S.
Proof.
  induction n as [|n IH]; intros R y Hlen Hw Hy.
  { destruct R; [simpl in Hw; congruence|simpl in Hlen; lia]. }
  destruct R as [|e R]; [simpl in Hw; congruence|]. simpl in Hw, Hlen.
  destruct Hw as [He Hw]. destruct (decide (target e = v)) as [Hev|Hev].
  - rewrite Hev in Hw. destruct (IH R y ltac:(lia) Hw Hy)
      as (M & e_out & S & -> & HM & Hout & Ht & HS & Hall).
    exists (e :: M), e_out, S. split_and!; try done. simpl. split; [done|]. by rewrite Hev.
  - destruct (first_arrival R _ _ Hw Hev)
      as [Hall|(P & a & e_in & R' & -> & HP & Hall & Ha & Hin & Ht & HR)].
    + exists [], e, R. by split_and!.
    + rewrite length_app in Hlen. simpl in Hlen.
      destruct (IH R' y ltac:(lia) HR Hy)
        as (M & e_out & S & -> & HM & Hout & Ht' & HS & Hall').
      exists (e :: P ++ e_in :: M), e_out, S. split_and!; try done.
      * simpl. by rewrite <-app_assoc.
      * simpl. split; [done|]. eapply is_walk_app; [done|]. simpl. split; [done|].
        by rewrite Ht.
Qed.

Lemma walk_end_forall (Q : Z → Prop) es : ∀ x y,
  is_walk adj x es y → Q x → Forall (λ e, Q (target e)) es → Q y.
Proof.
  induction es as [|e es IH]; intros x y; simpl.
  - by intros <-.
  - intros [He Hw] _ [Hq Hall]%Forall_cons. by eapply IH.
Qed.
End through.

(** ** One contraction keeps the hierarchy *)

Lemma expands_contract_node g0 g v Wb :
  mirrored g → weights_within Wb (out_edges g) → 2 * Wb ≤ double_exact →
  expands g0 g → expands g0 (contract_node g v).1.
Proof.
  intros Hmir HW Hexact Hexp.
  apply (contract_node_inv (λ g' _, expands g0 g')); [done|].
  intros g' a ie oe hop Hexp' Hie _ Hoe _ _ _ _ u e.
  rewrite out_edges_push_edge. case_decide as Hu; [|by apply Hexp'].
  intros [He| ->%list_elem_of_singleton]%elem_of_app; [by apply Hexp'|].
  destruct Hu as [<- _]. simpl.
  apply (mirrored_out_of_in g v ie Hmir) in Hie.
  pose proof (HW _ _ Hie) as Hwi. simpl in Hwi. pose proof (HW _ _ Hoe) as Hwo.
  destruct (Hexp _ _ Hie) as (es1 & Hw1 & Hwt1). simpl in Hw1, Hwt1.
  destruct (Hexp _ _ Hoe) as (es2 & Hw2 & Hwt2).
  exists (es1 ++ es2). split; [by eapply is_walk_app|].
  rewrite walk_weight_app. rewrite dadd_exact by (unfold double_exact in *; lia). lia.
Qed.

(** Contracting and building only add edges. *)
Lemma contract_node_out_incl g v u e :
  e ∈ out_edges g u → e ∈ out_edges (contract_node g v).1 u.
Proof.
  intros He.
  apply (contract_node_inv (λ g' _, e ∈ out_edges g' u)); [done|].
  intros g' a ie oe hop He' _ _ _ _ _ _ _. by apply out_edges_push_incl.
Qed.

Lemma build_loop_out_incl nodes : ∀ g r g' u e,
  build_loop g r nodes = Returns g' → e ∈ out_edges g u → e ∈ out_edges g' u.
Proof.
  induction nodes as [|node rest IH]; intros g r g' u e; simpl.
  - by intros [= <-].
  - case_decide; [|done]. intros Hb He. eapply IH; [exact Hb|].
    by apply contract_node_out_incl.
Qed.

Lemma position_head order done v rest :
  order = done ++ v :: rest → v ∉ done → position order v = Z.of_nat (length done).
Proof.
  intros -> Hv. unfold position. rewrite first_index_app by done. simpl.
  rewrite decide_True by done. lia.
Qed.

Lemma position_after order done v rest x :
  order = done ++ v :: rest → x ∉ done ++ [v] →
  Z.of_nat (length done) < position order x.
Proof.
  intros -> Hx. unfold position.
  replace (done ++ v :: rest) with ((done ++ [v]) ++ rest) by (by rewrite <-app_assoc).
  rewrite first_index_app by done. rewrite length_app. simpl. lia.
Qed.

Section hierarchy_step.
Context (order done rest : list Z) (v : Z) (g g' : CHGraph).
Hypothesis Horder : order = done ++ v :: rest.
Hypothesis Hfresh : v ∉ done.
Hypothesis Hnn : nonneg g.
Hypothesis Hmir : mirrored g.
Hypothesis Hwf : wf g.
Hypothesis Hflags : ∀ x, is_contracted g x = true ↔ x ∈ done.
Hypothesis Hflags' : ∀ x, is_contracted g' x = true ↔ x ∈ done ++ [v].
Hypothesis Hout : ∀ u e, e ∈ out_edges g u → e ∈ out_edges g' u.
Hypothesis Hin : ∀ u e, e ∈ in_edges g u → e ∈ in_edges g' u.
Hypothesis Hcov : ∀ ie oe,
  ie ∈ in_edges g v → is_contracted g (target ie) = false → target ie ≠ v →
  oe ∈ out_edges g v → is_contracted g (target oe) = false → target oe ≠ v →
  target ie ≠ target oe →
  covered g' (target ie) (target oe) (weight ie + weight oe).

Lemma lift_out u es z : is_walk (out_edges g) u es z → is_walk (out_edges g') u es z.
Proof.
  revert u. induction es as [|e es IH]; intros u; simpl; [done|].
  intros [He Hw]. split; [by apply Hout|by apply IH].
Qed.

Lemma lift_in u es z : is_walk (in_edges g) u es z → is_walk (in_edges g') u es z.
Proof.
  revert u. induction es as [|e es IH]; intros u; simpl; [done|].
  intros [He Hw]. split; [by apply Hin|by apply IH].
Qed.

Lemma still_uncontracted z :
  is_contracted g z = false → z ≠ v → is_contracted g' z = false.
Proof.
  intros Hz Hne. destruct (is_contracted g' z) eqn:Hz'; [|done].
  apply Hflags' in Hz'. apply elem_of_app in Hz' as [Hd| ->%list_elem_of_singleton];
    [|done]. apply Hflags in Hd. congruence.
Qed.

Lemma above_contracted z :
  is_contracted g z = false → z ≠ v → position order v < position order z.
Proof.
  intros Hz Hne. rewrite (position_head order done v rest) by done.
  apply (position_after order done v rest); [done|].
  intros [Hd| ->%list_elem_of_singleton]%elem_of_app; [|done].
  apply Hflags in Hd. congruence.
Qed.

Lemma lift_core x es y :
  is_walk (out_edges g) x es y → is_contracted g x = false → x ≠ v →
  Forall (λ e, is_contracted g (target e) = false) es →
  Forall (λ e, target e ≠ v) es →
  core_walk g' x es y.
Proof.
  intros Hw Hx Hxv Hall Hav. split_and!.
  - by apply lift_out.
  - intros _. by apply still_uncontracted.
  - apply Forall_forall. intros e He. rewrite Forall_forall in Hall, Hav.
    apply still_uncontracted; [by apply Hall|by apply Hav].
Qed.

Lemma core_walk_app x es1 z es2 y :
  core_walk g' x es1 z → core_walk g' z es2 y → core_walk g' x (es1 ++ es2) y.
Proof.
  intros (Hw1 & Hx1 & Hall1) (Hw2 & Hx2 & Hall2). split_and!.
  - by eapply is_walk_app.
  - intros Hne. destruct es1 as [|e es1]; [|by apply Hx1].
    simpl in Hw1. subst z. by apply Hx2.
  - by apply Forall_app.
Qed.

Lemma up_core_down_step s t W :
  up_core_down order g s t W → up_core_down order g' s t W.
Proof.
  intros (x & y & es1 & es2 & es3 & Hw1 & Ha1 & (Hw2 & Hx2 & Hall2) & Hw3 & Ha3 & Hle).
  destruct Hnn as [Hnn_out Hnn_in].
  destruct (decide (es2 = [])) as [->|Hne].
  { simpl in Hw2. subst y. exists x, x, es1, [], es3.
    split_and!; [by apply lift_out|done|by split_and!|by apply lift_in|done|done]. }
  specialize (Hx2 Hne).
  assert (is_contracted g y = false) as Hy2.
  { by eapply (walk_end_forall (out_edges g) (λ z, is_contracted g z = false)). }
  pose proof (walk_weight_nonneg _ _ _ _ Hnn_out Hw2) as Hpos2.
  destruct (decide (x = v)) as [Hxv|Hxv], (decide (y = v)) as [Hyv|Hyv].
  - (* the crossing starts and ends at the contracted node *)
    subst x y. exists v, v, es1, [], es3.
    split_and!; [by apply lift_out|done|by split_and!|by apply lift_in|done|simpl; lia].
  - (* it starts there: the climb takes the last edge out of the node *)
    subst x.
    destruct (last_departure (out_edges g) v (length es2) es2 y ltac:(lia) Hw2 Hyv)
      as (M & e_out & S & -> & HM & Hout_v & Hto & HS & HSv).
    apply Forall_app in Hall2 as [_ [Hc HSc]%Forall_cons].
    pose proof (walk_weight_nonneg _ _ _ _ Hnn_out HM) as HposM.
    rewrite walk_weight_app in Hle. simpl in Hle.
    exists (target e_out), y, (es1 ++ [e_out]), S, es3. split_and!.
    + eapply is_walk_snoc; [by apply lift_out|by apply Hout].
    + eapply ascending_app; [exact Hw1|done|]. simpl. split; [|done].
      by apply above_contracted.
    + by apply lift_core.
    + by apply lift_in.
    + done.
    + rewrite walk_weight_app. simpl. lia.
  - (* it ends there: the descent takes the first edge into the node *)
    subst y.
    destruct (first_arrival (out_edges g) v es2 x v Hw2 Hxv)
      as [Hav|(P & a & e_in & R & -> & HP & HPv & Hav & Hin_a & Hto & HR)].
    { exfalso.
      by apply (walk_end_forall (out_edges g) (λ z, z ≠ v) es2 x v Hw2 Hxv Hav). }
    apply Forall_app in Hall2 as [HPc _].
    assert (is_contracted g a = false) as Hac.
    { by eapply (walk_end_forall (out_edges g) (λ z, is_contracted g z = false)). }
    pose proof (walk_weight_nonneg _ _ _ _ Hnn_out HR) as HposR.
    rewrite walk_weight_app in Hle. simpl in Hle.
    pose proof (mirrored_in_of_out g a e_in Hmir Hin_a) as Hie. rewrite Hto in Hie.
    exists x, a, es1, P,
      (es3 ++ [mkEdge a (weight e_in) (is_shortcut e_in) (via_node e_in)]).
    split_and!.
    + by apply lift_out.
    + done.
    + by apply lift_core.
    + apply (is_walk_snoc (in_edges g') t es3 v (mkEdge a _ _ _)); [by apply lift_in|].
      by apply Hin.
    + eapply ascending_app; [exact Hw3|done|]. simpl. split; [|done].
      by apply above_contracted.
    + rewrite walk_weight_app. simpl. lia.
  - (* it passes through *)
    destruct (first_arrival (out_edges g) v es2 x y Hw2 Hxv)
      as [Hav|(P & a & e_in & R & -> & HP & HPv & Hav & Hin_a & Hto & HR)].
    { exists x, y, es1, es2, es3.
      split_and!; [by apply lift_out|done|by apply lift_core|by apply lift_in|done|done]. }
    apply Forall_app in Hall2 as [HPc [_ HRc]%Forall_cons].
    assert (is_contracted g a = false) as Hac.
    { by eapply (walk_end_forall (out_edges g) (λ z, is_contracted g z = false)). }
    destruct (last_departure (out_edges g) v (length R) R y ltac:(lia) HR Hyv)
      as (M & e_out & S & -> & HM & Hout_v & Hcv & HS & HSv).
    apply Forall_app in HRc as [_ [Hcc HSc]%Forall_cons].
    pose proof (walk_weight_nonneg _ _ _ _ Hnn_out HM) as HposM.
    rewrite !walk_weight_app in Hle. simpl in Hle. rewrite walk_weight_app in Hle.
    simpl in Hle.
    pose proof (mirrored_in_of_out g a e_in Hmir Hin_a) as Hie. rewrite Hto in Hie.
    pose proof (lift_core x P a HP Hx2 Hxv HPc HPv) as HP'.
    pose proof (lift_core (target e_out) S y HS Hcc Hcv HSc HSv) as HS'.
    destruct (decide (a = target e_out)) as [Hac'|Hac'].
    + exists x, y, es1, (P ++ S), es3. rewrite <-Hac' in HS'.
      pose proof (Hnn_out _ _ Hin_a). pose proof (Hnn_out _ _ Hout_v).
      split_and!; [by apply lift_out|done|by eapply core_walk_app|by apply lift_in|done|].
      rewrite walk_weight_app. lia.
    + destruct (Hcov (mkEdge a (weight e_in) (is_shortcut e_in) (via_node e_in)) e_out)
        as (ws & Hws & Hwle); try done.
      simpl in Hws, Hwle.
      exists x, y, es1, (P ++ ws ++ S), es3.
      split_and!; [by apply lift_out|done| |by apply lift_in|done|].
      * eapply core_walk_app; [done|]. by eapply core_walk_app.
      * rewrite !walk_weight_app. lia.
Qed.
End hierarchy_step.

Lemma hierarchy_step g0 order done v rest g r Wb :
  order = done ++ v :: rest → NoDup order →
  hierarchy g0 order done g → node_of g v →
  weights_within Wb (out_edges g) → 4 * Wb ≤ double_exact →
  (contract_node (with_rank g v r) v).2 < max_shortcuts →
  hierarchy g0 order (done ++ [v]) (contract_node (with_rank g v r) v).1.
Proof.
  intros Horder Hnd [Hwf Hnn Hmir Hnodes Hflags Hexp Hpaths] Hv HW Hexact Hcap.
  assert (v ∉ done) as Hfresh.
  { rewrite Horder in Hnd. apply NoDup_app in Hnd as (_ & Hdisj & _).
    intros Hd. apply (Hdisj v Hd). by left. }
  pose proof (wf_with_rank g v r Hwf) as Hwf1.
  pose proof (weights_within_in g Wb Hmir HW) as HWin.
  destruct (contract_node_covers (with_rank g v r) v Wb Hwf1 HW HWin Hexact Hv Hcap)
    as [Hct Hcov].
  destruct Hct as [Hwf' Hnn' Hn' Hfl' Hout' Hin'].
  assert (∀ x, is_contracted (contract_node (with_rank g v r) v).1 x = true
               ↔ x ∈ done ++ [v]) as Hflags'.
  { intros x. unfold is_contracted at 1. rewrite Hfl'.
    fold (is_contracted (mark_contracted (with_rank g v r) v) x).
    rewrite is_contracted_mark. rewrite elem_of_app, list_elem_of_singleton.
    change (is_contracted (with_rank g v r) x) with (is_contracted g x).
    rewrite <-Hflags.
    assert (in_vec (contracted (with_rank g v r)) v) as Hvin.
    { simpl. by rewrite <-(node_of_in_vec g) by apply Hwf. }
    case_decide as Hx; [destruct Hx as [-> _]; tauto|].
    split; [tauto|]. intros [?| ->]; [done|]. destruct Hx. done. }
  split.
  - done.
  - done.
  - apply mirrored_contract_node; [done|]. exact Hmir.
  - by rewrite Hn'.
  - done.
  - apply (expands_contract_node g0 (with_rank g v r) v Wb);
      [exact Hmir|exact HW|unfold double_exact in *; lia|exact Hexp].
  - intros s t bw Hbw.
    eapply (up_core_down_step order done rest v g); try done.
    by apply Hpaths.
Qed.

Lemma hierarchy_build g0 order rest Wb : ∀ done g r g',
  order = done ++ rest → NoDup order →
  hierarchy g0 order done g → under_cap g r rest →
  build_loop g r rest = Returns g' →
  weights_within Wb (out_edges g') → 4 * Wb ≤ double_exact →
  hierarchy g0 order order g'.
Proof.
  induction rest as [|v rest IH]; intros done g r g' Horder Hnd Hh Hcap; simpl.
  - intros [= <-]. rewrite app_nil_r in Horder. by subst order.
  - case_decide as Hin; [|done]. destruct Hin as (Hr & _ & _).
    destruct Hcap as [Hcap Hcaps]. intros Hb HW Hexact.
    eapply (IH (done ++ [v])); [by rewrite <-app_assoc|done| |done|exact Hb|done|done].
    apply (hierarchy_step g0 order done v rest g r Wb); try done.
    + rewrite (node_of_in_vec g (rank g)); [done|]. apply Hh.
    + intros u e He. apply (HW u).
      eapply build_loop_out_incl; [exact Hb|].
      by apply (contract_node_out_incl (with_rank g v r)).
Qed.

Lemma hierarchy_start g0 order :
  wf g0 → nonneg g0 → mirrored g0 → (∀ x, is_contracted g0 x = false) →
  hierarchy g0 order [] (with_order g0 order).
Proof.
  intros Hwf Hnn Hmir Hflags. split.
  - by apply wf_with_order.
  - destruct Hnn. by split.
  - exact Hmir.
  - done.
  - intros x. change (is_contracted (with_order g0 order) x) with (is_contracted g0 x).
    rewrite Hflags. split; [done|by intros ?%elem_of_nil].
  - intros u e He. exists [e]. simpl. split; [by split|lia].
  - intros s t bw Hbw. exists s, t, [], bw, []. split_and!; try done.
    + split_and!; [exact Hbw|intros _; apply Hflags|].
      apply Forall_forall. intros e _. apply Hflags.
    + simpl. lia.
Qed.

(** ** From the hierarchy to the query *)

Lemma first_index_NoDup l : ∀ i x, NoDup l → l !! i = Some x → first_index x l = i.
Proof.
  induction l as [|y l IH]; intros [|i] x Hnd; simpl; try done.
  - intros [= ->]. by rewrite decide_True.
  - intros Hx. apply NoDup_cons in Hnd as [Hy Hnd].
    rewrite decide_False; [by rewrite (IH i x)|].
    intros ->. apply Hy. by eapply list_elem_of_lookup_2.
Qed.

Lemma ascending_ext adj (lvl1 lvl2 : Z → Z) (P : Z → Prop) es : ∀ u v,
  (∀ x, P x → lvl1 x = lvl2 x) → (∀ x e, e ∈ adj x → P (target e)) → P u →
  is_walk adj u es v → ascending lvl1 u es → ascending lvl2 u es.
Proof.
  induction es as [|e es IH]; intros u v Heq Hadj Hu; simpl; [done|].
  intros [He Hw] [Hlt Ha]. pose proof (Hadj _ _ He) as Ht. split.
  - rewrite <-(Heq u), <-(Heq (target e)) by done. done.
  - by eapply IH.
Qed.

Lemma walk_stays adj (P : Z → Prop) es : ∀ u v,
  (∀ x e, e ∈ adj x → P (target e)) → is_walk adj u es v → P u → P v.
Proof.
  induction es as [|e es IH]; intros u v Hadj; simpl.
  - by intros <-.
  - intros [He Hw] _. eapply IH; [done|done|]. by eapply Hadj.
Qed.

Lemma expand_walk g0 g es : ∀ u v,
  expands g0 g → is_walk (out_edges g) u es v →
  ∃ es0, is_walk (out_edges g0) u es0 v ∧ walk_weight es0 = walk_weight es.
Proof.
  induction es as [|e es IH]; intros u v Hexp; simpl.
  - intros <-. by exists [].
  - intros [He Hw]. destruct (Hexp _ _ He) as (es1 & Hw1 & Hwt1).
    destruct (IH _ _ Hexp Hw) as (es2 & Hw2 & Hwt2).
    exists (es1 ++ es2). split; [by eapply is_walk_app|].
    rewrite walk_weight_app. lia.
Qed.

Lemma reverse_walk g es : ∀ t x,
  mirrored g → is_walk (in_edges g) t es x →
  ∃ es', is_walk (out_edges g) x es' t ∧ walk_weight es' = walk_weight es.
Proof.
  induction es as [|e es IH]; intros t x Hmir; simpl.
  - intros <-. by exists [].
  - intros [He Hw]. destruct (IH _ _ Hmir Hw) as (es' & Hw' & Hwt').
    pose proof (mirrored_out_of_in g t e Hmir He) as Hout.
    exists (es' ++ [mkEdge t (weight e) (is_shortcut e) (via_node e)]). split.
    + by apply (is_walk_snoc (out_edges g) x es' (target e) (mkEdge t _ _ _)).
    + rewrite walk_weight_app. simpl. lia.
Qed.

(** An upward walk has no more edges than there are nodes above its
    start. *)
Lemma ascending_length g adj es : ∀ u v,
  (∀ x e, e ∈ adj x → node_of g (target e)) →
  is_walk adj u es v → ascending (rank_of g) u es →
  (length es + height g v ≤ height g u)%nat.
Proof.
  induction es as [|e es IH]; intros u v Hadj; simpl.
  - intros <- _. lia.
  - intros [He Hw] [Hr Ha]. specialize (IH _ _ Hadj Hw Ha).
    pose proof (height_lt g u (target e) (Hadj _ _ He) Hr). lia.
Qed.

Lemma walk_weight_le W adj es : ∀ u v,
  weights_within W adj → is_walk adj u es v →
  0 ≤ walk_weight es ≤ Z.of_nat (length es) * W.
Proof.
  induction es as [|e es IH]; intros u v HW; simpl; [lia|].
  intros [He Hw]. pose proof (HW u e He). specialize (IH _ _ HW Hw). lia.
Qed.

(** With weights between 0 and [W] and [N * W] at most [2 ^ 53], what a
    search accumulates along an upward walk is the weight of the walk. *)
Lemma up_walk_exact g adj W s es x :
  (∀ y e, e ∈ adj y → node_of g (target e)) → 0 ≤ num_nodes g →
  0 ≤ W → weights_within W adj → num_nodes g * W ≤ double_exact →
  up_walk g adj s es x →
  walk_cost 0 es = walk_weight es ∧ 0 ≤ walk_weight es ≤ num_nodes g * W.
Proof.
  intros Hadj Hn0 HW0 HW Hexact [Hw Ha].
  pose proof (ascending_length g adj es s x Hadj Hw Ha) as Hlen.
  pose proof (height_bound g s) as Hh.
  pose proof (walk_weight_le W adj es s x HW Hw) as Hle.
  assert (Z.of_nat (length es) * W ≤ num_nodes g * W) as Hlw.
  { apply Z.mul_le_mono_nonneg_r; [done|]. lia. }
  split; [|lia].
  rewrite (walk_cost_exact W adj es s x 0 HW Hw); lia.
Qed.

(** Under these bounds a meeting of the two searches is a pair of
    upward walks to a common node, with the sum of their weights. *)
Lemma meets_exact g W s t m :
  wf g → 0 ≤ W → weights_within W (out_edges g) → weights_within W (in_edges g) →
  2 * num_nodes g * W ≤ double_exact →
  meets g (out_edges g) s (in_edges g) t m
  ↔ ∃ x es1 es3, up_walk g (out_edges g) s es1 x ∧ up_walk g (in_edges g) t es3 x
                 ∧ m = walk_weight es1 + walk_weight es3.
Proof.
  intros Hwf HW0 HWo HWi Hexact.
  pose proof (wf_nodes g Hwf) as Hn.
  assert (num_nodes g * W ≤ double_exact) as Hexact1 by nia.
  assert (∀ x es1 es3,
            up_walk g (out_edges g) s es1 x → up_walk g (in_edges g) t es3 x →
            walk_cost 0 es1 = walk_weight es1 ∧ walk_cost 0 es3 = walk_weight es3
            ∧ dadd (walk_weight es1) (walk_weight es3)
              = walk_weight es1 + walk_weight es3) as Hboth.
  { intros x es1 es3 H1 H3.
    destruct (up_walk_exact g (out_edges g) W s es1 x (wf_out_target g Hwf)
                (proj1 Hn) HW0 HWo Hexact1 H1) as [-> ?].
    destruct (up_walk_exact g (in_edges g) W t es3 x (wf_in_target g Hwf)
                (proj1 Hn) HW0 HWi Hexact1 H3) as [-> ?].
    split_and!; [done|done|]. apply dadd_exact. unfold double_exact in *. lia. }
  split.
  - intros (x & a & b & (es1 & H1 & <-) & (es3 & H3 & <-) & ->).
    destruct (Hboth x es1 es3 H1 H3) as (-> & -> & ->). by exists x, es1, es3.
  - intros (x & es1 & es3 & H1 & H3 & ->).
    destruct (Hboth x es1 es3 H1 H3) as (E1 & E3 & E).
    exists x, (walk_weight es1), (walk_weight es3).
    split_and!; [by exists es1|by exists es3|by rewrite E].
Qed.

Lemma meets_base_walk g0 g s t m W :
  expands g0 g → mirrored g → wf g →
  0 ≤ W → weights_within W (out_edges g) → 2 * num_nodes g * W ≤ double_exact →
  meets g (out_edges g) s (in_edges g) t m →
  ∃ bw, is_walk (out_edges g0) s bw t ∧ walk_weight bw = m.
Proof.
  intros Hexp Hmir Hwf HW0 HW Hexact Hm.
  apply (meets_exact g W s t m Hwf HW0 HW (weights_within_in g W Hmir HW) Hexact) in Hm
    as (x & es1 & es3 & [Hw1 _] & [Hw3 _] & ->).
  destruct (reverse_walk g es3 t x Hmir Hw3) as (es3' & Hw3' & Hwt3).
  destruct (expand_walk g0 g es1 s x Hexp Hw1) as (bw1 & Hb1 & Hbt1).
  destruct (expand_walk g0 g es3' x t Hexp Hw3') as (bw3 & Hb3 & Hbt3).
  exists (bw1 ++ bw3). split; [by eapply is_walk_app|].
  rewrite walk_weight_app. lia.
Qed.

(** Once every node is contracted, each walk of the base graph is
    matched by a meeting of the two upward searches. *)
Lemma hierarchy_meets g0 order g s t bw W :
  hierarchy g0 order order g → NoDup order →
  (∀ x, node_of g x → x ∈ order) →
  (∀ i x, order !! i = Some x → rank_of g x = Z.of_nat i) →
  node_of g s → node_of g t →
  0 ≤ W → weights_within W (out_edges g) → 2 * num_nodes g * W ≤ double_exact →
  is_walk (out_edges g0) s bw t →
  ∃ m, meets g (out_edges g) s (in_edges g) t m ∧ m ≤ walk_weight bw.
Proof.
  intros [Hwf Hnn Hmir Hnodes Hflags Hexp Hpaths] Hnd Hall Hrank Hs Ht HW0 HW Hexact Hbw.
  destruct (Hpaths s t bw Hbw)
    as (x & y & es1 & es2 & es3 & Hw1 & Ha1 & (Hw2 & Hx2 & Hall2) & Hw3 & Ha3 & Hle).
  assert (node_of g x) as Hx.
  { eapply (walk_stays (out_edges g) (node_of g)); [apply Hwf|exact Hw1|exact Hs]. }
  assert (es2 = []) as ->.
  { destruct es2 as [|e es2]; [done|]. exfalso.
    assert (is_contracted g x = false) as Hc by (by apply Hx2).
    assert (is_contracted g x = true) as Hc' by (by apply Hflags, Hall).
    congruence. }
  simpl in Hw2. subst y. simpl in Hle.
  assert (∀ z, node_of g z → position order z = rank_of g z) as Hpos.
  { intros z Hz. apply Hall in Hz. apply list_elem_of_lookup in Hz as [i Hi].
    unfold position. by rewrite (first_index_NoDup order i z Hnd Hi), (Hrank i z Hi). }
  exists (walk_weight es1 + walk_weight es3). split; [|lia].
  apply (meets_exact g W s t _ Hwf HW0 HW (weights_within_in g W Hmir HW) Hexact).
  exists x, es1, es3. split_and!; [| |done].
  - split; [done|].
    eapply (ascending_ext (out_edges g) (position order) (rank_of g) (node_of g));
      [done|apply Hwf|done|done|done].
  - split; [done|].
    eapply (ascending_ext (in_edges g) (position order) (rank_of g) (node_of g));
      [done|apply Hwf|done|done|done].
Qed.

(** ** When the path is empty *)








Lemma wf_make n es order g : 0 ≤ n ≤ int_max → make n es order = Returns g → wf g.
Proof.
  intros Hn. unfold make.
  destruct (add_edges (CHGraph_new n) es) as [g0| |] eqn:Hes; try done.
  apply wf_build_ch. eapply wf_add_edges; [|exact Hes]. by apply wf_new.
Qed.


(** ** Graphs made of base edges *)

Lemma reachable_add_edges es : ∀ g g',
  reachable g → add_edges g es = Returns g' → reachable g'.
Proof.
  induction es as [|[[u v] w] es IH]; intros g g' Hr; simpl.
  - by intros [= <-].
  - destruct (add_edge g u v w) as [g1| |] eqn:Hadd; try done.
    apply IH. by eapply reachable_add_edge.
Qed.

Lemma nonneg_add_edges es : ∀ g g',
  wf g → nonneg g → Forall (λ e : Z * Z * Z, 0 ≤ e.2) es →
  add_edges g es = Returns g' → nonneg g'.
Proof.
  induction es as [|[[u v] w] es IH]; intros g g' Hwf Hnn Hall; simpl.
  - by intros [= <-].
  - apply Forall_cons in Hall as [Hw Hall]. simpl in Hw.
    destruct (add_edge g u v w) as [g1| |] eqn:Hadd; try done.
    apply IH; [by eapply wf_add_ch_edge| |done].
    unfold add_edge, add_ch_edge in Hadd. case_decide as Huv; [|done].
    injection Hadd as <-. destruct Huv as [Hu Hv].
    apply nonneg_push_edge; try done.
    + by rewrite (node_of_in_vec g (adj_out g)) by apply Hwf.
    + by rewrite (node_of_in_vec g (adj_in g)) by apply Hwf.
Qed.

Lemma build_loop_all_ranks order g g' :
  NoDup order → build_loop g 0 order = Returns g' →
  ∀ i x, order !! i = Some x → rank_of g' x = Z.of_nat i.
Proof.
  intros Hnd Hb i x Hx.
  destruct (build_loop_ranks order g 0 g' Hnd Hb) as [Hin _].
  destruct (Hin i x Hx) as [-> _]. lia.
Qed.

(** ** Optimality of the query *)

(** C1, as stated, fails: for a pair with no path, the reference
    distance is infinite while [query] returns 0.0 (the diamond of
    scenario 3). *)
Lemma query_distance_counterexample :
  reference_distance diamond_base 3 0 Inf
  ∧ query 50 diamond_built 3 0 = Some ([], Fin 0%Q)
  ∧ scale_down Inf ≠ Fin 0%Q.
Proof.
  split_and!; [|vm_compute; reflexivity|done].
  intros [es Hw]. destruct es as [|e es]; simpl in Hw; [done|].
  destruct Hw as [He _]. vm_compute in He. by apply elem_of_nil in He.
Qed.

(** C1, amended.  For a graph made of base edges with non-negative
    weights and built over an ordering that lists every node exactly
    once, when no contraction reaches the cap of 100 shortcuts and every
    weight of the built graph (base edges and shortcuts) is a whole
    number of at most [W] with [2 * (N + 2) * W ≤ 2 ^ 53], so that every
    sum the build and the query form is exact in [double], and for two
    distinct in-range nodes [s] and [t]: if [t] can be reached from [s]
    in the base graph, there is a least weight of a path from [s] to [t]
    in the base graph, and [query(s, t)] returns a non-empty path and
    that weight divided by 1000; if it cannot, [query(s, t)] returns the
    empty path and 0.0. *)
Theorem query_optimal n es order g0 g s t W :
  0 ≤ n ≤ int_max → Forall (λ e : Z * Z * Z, 0 ≤ e.2) es →
  add_edges (CHGraph_new n) es = Returns g0 →
  order ≡ₚ seqZ 0 n →
  under_cap (with_order g0 order) 0 order →
  build_ch g0 order = Returns g →
  0 ≤ W → weights_within W (out_edges g) → 2 * (n + 2) * W ≤ double_exact →
  0 ≤ s < n → 0 ≤ t < n → s ≠ t →
  (connected g0 s t →
   ∃ d path, shortest_distance g0 s t d ∧ path ≠ []
     ∧ ∀ fuel, (query_fuel (λ x, first_index x order) g s t ≤ fuel)%nat →
               query fuel g s t = Some (path, Fin (d # 1000)%Q))
  ∧ (∀ d, shortest_distance g0 s t d →
          ∃ path, path ≠ []
            ∧ ∀ fuel, (query_fuel (λ x, first_index x order) g s t ≤ fuel)%nat →
                      query fuel g s t = Some (path, Fin (d # 1000)%Q))
  ∧ (¬ connected g0 s t →
     ∀ fuel, (query_fuel (λ x, first_index x order) g s t ≤ fuel)%nat →
             query fuel g s t = Some ([], Fin 0%Q)).
Proof.
  intros Hn Hweights Hes Hperm Hcap Hbuild HW0 HW Hexact Hs Ht Hst.
  set (lvl := λ x, first_index x order).
  assert (4 * W ≤ double_exact) as Hexact4 by nia.
  assert (reachable g0) as Hreach.
  { eapply reachable_add_edges; [|exact Hes]. by apply reachable_new. }
  pose proof (reachable_wf _ Hreach) as Hwf0.
  pose proof (reachable_mirrored _ Hreach) as Hmir0.
  pose proof (nonneg_add_edges es _ _ (wf_new n Hn) (nonneg_new n) Hweights Hes) as Hnn0.
  destruct (add_edges_fresh es _ _ Hes) as (Hn0 & Hrank0 & Hflag0). simpl in Hn0.
  assert (∀ x, is_contracted g0 x = false) as Hunc.
  { intros x. unfold is_contracted. rewrite Hflag0. apply new_graph_unranked. }
  assert (NoDup order) as Hnd by (rewrite Hperm; apply NoDup_seqZ).
  pose proof (hierarchy_build g0 order order W [] (with_order g0 order) 0 g eq_refl Hnd
                (hierarchy_start g0 order Hwf0 Hnn0 Hmir0 Hunc) Hcap Hbuild HW Hexact4)
    as Hh.
  pose proof (h_wf _ _ _ _ Hh) as Hwf.
  pose proof (h_nonneg _ _ _ _ Hh) as Hnn.
  pose proof (h_nodes _ _ _ _ Hh) as Hnodes. rewrite Hn0 in Hnodes.
  assert (2 * num_nodes g * W ≤ double_exact) as Hexact2 by (rewrite Hnodes; nia).
  assert (node_of g s) as Hsg by (unfold node_of; lia).
  assert (node_of g t) as Htg by (unfold node_of; lia).
  assert (via_below lvl g) as Hvia.
  { apply (via_below_make n es order). unfold make. by rewrite Hes. }
  assert (∀ x, node_of g x → x ∈ order) as Hall.
  { intros x Hx. rewrite Hperm. apply elem_of_seqZ. unfold node_of in Hx. lia. }
  pose proof (build_loop_all_ranks order _ g Hnd Hbuild) as Hranks.
  destruct (query_search_returns lvl g s t Hwf) as [[[[fwd bwd] mu] meet_node] Hfinal].
  pose proof (Hfinal _ (Nat.le_refl _)) as Hsearch.
  destruct (query_search_pair_ok g _ s t fwd bwd mu meet_node Hwf Hsg Htg Hsearch)
    as (Hok & _ & _).
  destruct (query_search_minimal g _ s t fwd bwd mu meet_node Hwf Hnn Hsg Htg Hst Hsearch)
    as (Hmin & Hsound & Hnone).
  assert (¬ (s < 0 ∨ s >= num_nodes g ∨ t < 0 ∨ t >= num_nodes g)) as Hrange by lia.
  (* [mu] is below the weight of every walk of the base graph ... *)
  assert (∀ bw, is_walk (out_edges g0) s bw t →
                ∃ m', mu = Fin m' ∧ m' ≤ walk_weight bw) as Hbelow.
  { intros bw Hbw.
    destruct (hierarchy_meets g0 order g s t bw W Hh Hnd Hall Hranks Hsg Htg
                HW0 HW Hexact2 Hbw) as (m & Hm & Hle).
    destruct (Hmin m Hm) as (m' & -> & Hle'). exists m'. split; [done|lia]. }
  (* ... and is the weight of one of them. *)
  assert (∀ m', mu = Fin m' →
                ∃ bw, is_walk (out_edges g0) s bw t ∧ walk_weight bw = m') as Hwalk.
  { intros m' Hmu. destruct (Hsound m' Hmu) as [Hm' _].
    by apply (meets_base_walk g0 g s t m' W (h_expands _ _ _ _ Hh)
                (h_mirrored _ _ _ _ Hh) Hwf HW0 HW Hexact2). }
  assert (∀ m', mu = Fin m' →
            shortest_distance g0 s t m'
            ∧ ∃ path, path ≠ []
                ∧ ∀ fuel, (query_fuel lvl g s t ≤ fuel)%nat →
                          query fuel g s t = Some (path, Fin (m' # 1000)%Q)) as Hfound.
  { intros m' Hmu. split.
    - split; [by apply Hwalk|]. intros bw Hbw.
      destruct (Hbelow bw Hbw) as (m'' & Hmu' & Hle). congruence.
    - destruct (Hsound m' Hmu) as [_ Hmeet].
      destruct (query_path_returns lvl g s t fwd bwd mu meet_node (query_fuel lvl g s t)
                  Hok Hvia Hsg Hmeet) as (path & Hpath & Hne);
        [unfold query_fuel; lia|unfold query_fuel; lia|].
      exists path. split; [done|]. intros fuel Hfuel.
      apply (query_more_fuel (query_fuel lvl g s t)); [|done].
      unfold query. rewrite decide_False by done.
      rewrite Hsearch. simpl. rewrite decide_False by done. rewrite Hpath. simpl.
      by rewrite Hmu. }
  split_and!.
  - intros [bw Hbw]. destruct (Hbelow bw Hbw) as (m' & Hmu & _).
    destruct (Hfound m' Hmu) as [Hshort (path & Hne & Hq)]. by exists m', path.
  - intros d [(bw & Hbw & Hd) Hleast].
    destruct (Hbelow bw Hbw) as (m' & Hmu & Hle).
    destruct (Hfound m' Hmu) as [[(bw' & Hbw' & Hd') _] Hq].
    pose proof (Hleast bw' Hbw') as Hge.
    assert (m' = d) as <- by lia. exact Hq.
  - intros Hdis fuel Hfuel.
    assert (mu = Inf) as ->.
    { destruct mu as [m'|]; [|done]. exfalso. apply Hdis.
      destruct (Hwalk m' eq_refl) as (bw' & Hbw' & _). by exists bw'. }
    unfold query. rewrite decide_False by done.
    rewrite (Hfinal fuel Hfuel). simpl. rewrite decide_True; [done|]. by apply Hnone.
Qed.

Lemma query_optimal_witness :
  0 ≤ 3 ≤ int_max
  ∧ Forall (λ e : Z * Z * Z, 0 ≤ e.2) line_edges
  ∧ add_edges (CHGraph_new 3) line_edges = Returns line_base
  ∧ line_order ≡ₚ seqZ 0 3
  ∧ under_cap (with_order line_base line_order) 0 line_order
  ∧ build_ch line_base line_order = Returns line_built
  ∧ 0 ≤ 5000 ∧ weights_within 5000 (out_edges line_built)
  ∧ 2 * (3 + 2) * 5000 ≤ double_exact
  ∧ 0 ≤ 0 < 3 ∧ 0 ≤ 2 < 3 ∧ 0 ≠ 2
  ∧ (∀ d, shortest_distance line_base 0 2 d →
          ∃ path, path ≠ []
            ∧ ∀ fuel, (query_fuel (λ x, first_index x line_order) line_built 0 2 ≤ fuel)%nat →
                      query fuel line_built 0 2 = Some (path, Fin (d # 1000)%Q)).
Proof.
  assert (0 ≤ 3 ≤ int_max) as Hn by (unfold int_max; lia).
  assert (Forall (λ e : Z * Z * Z, 0 ≤ e.2) line_edges) as Hweights
    by (repeat constructor; simpl; lia).
  assert (add_edges (CHGraph_new 3) line_edges = Returns line_base) as Hes
    by (vm_compute; reflexivity).
  assert (line_order ≡ₚ seqZ 0 3) as Hperm by apply perm_swap.
  assert (under_cap (with_order line_base line_order) 0 line_order) as Hcap
    by (vm_compute; repeat split).
  assert (build_ch line_base line_order = Returns line_built) as Hbuild
    by (vm_compute; reflexivity).
  assert (0 ≤ 5000) as HW0 by lia.
  assert (weights_within 5000 (out_edges line_built)) as HW.
  { intros x e He.
    unfold out_edges, vec_at in He. case_decide; [|by apply elem_of_nil in He].
    destruct (Z.to_nat x) as [|[|[|k]]]; vm_compute in He;
      repeat (apply elem_of_cons in He as [->|He]; [simpl; lia|]);
      by apply elem_of_nil in He. }
  assert (2 * (3 + 2) * 5000 ≤ double_exact) as Hexact by (vm_compute; discriminate).
  assert (0 ≤ 0 < 3) as Hs by lia.
  assert (0 ≤ 2 < 3) as Ht by lia.
  assert (0 ≠ 2) as Hst by lia.
  split_and!; [lia|lia|exact Hweights|exact Hes|exact Hperm|exact Hcap|exact Hbuild
              |exact HW0|exact HW|exact Hexact|lia|lia|lia|lia|exact Hst|].
  exact (proj1 (proj2 (query_optimal 3 line_edges line_order line_base line_built 0 2
                         5000 Hn Hweights Hes Hperm Hcap Hbuild HW0 HW Hexact
                         Hs Ht Hst))).
Defined.

Example query_line : query 50 line_built 0 2 = Some ([0; 1; 2], Fin (5000 # 1000)%Q).
Proof. vm_compute. reflexivity. Qed.

(** The cap at work: contracting the centre of the star has 121
    candidate pairs and stops at 100 shortcuts, the pair (11, 12) is among
    those skipped, and the query for it finds nothing although the path
    11 -> 0 -> 12 exists. *)
Example query_capped_star :
  (contract_node (with_rank (with_order star_base star_order) 0 0) 0).2 = 100
  ∧ build_ch star_base star_order = Returns star_built
  ∧ is_walk (out_edges star_base) 11 [mkEdge 0 1000 false (-1); mkEdge 12 1000 false (-1)] 12
  ∧ query 50 star_built 11 12 = Some ([], Fin 0%Q).
Proof.
  split_and!; [vm_compute; reflexivity|vm_compute; reflexivity| |vm_compute; reflexivity].
  simpl. split_and!; [vm_compute|vm_compute|done].
  - left.
  - left.
Qed.

(** * Further properties *)

(** ** What [build_ch] does to the edges *)

Lemma base_edges_snoc row e :
  base_edges (row ++ [e]) = if is_shortcut e then base_edges row else base_edges row ++ [e].
Proof.
  unfold base_edges. rewrite List.filter_app. simpl.
  destruct (is_shortcut e); simpl; [by rewrite app_nil_r|done].
Qed.

Lemma shortcut_ok_mono g g' u e :
  (∀ x, is_contracted g x = true → is_contracted g' x = true) →
  (∀ x e', e' ∈ out_edges g x → e' ∈ out_edges g' x) →
  shortcut_ok g u e → shortcut_ok g' u e.
Proof.
  intros Hflags Hout (Hvia & Hc & e1 & e2 & He1 & Ht1 & He2 & Ht2 & Hw).
  split; [done|]. split; [by apply Hflags|].
  exists e1, e2. split_and!; auto.
Qed.

Lemma out_edges_push_prefix g u v w sc via x :
  out_edges g x `prefix_of` out_edges (push_edge g u v w sc via) x.
Proof.
  rewrite out_edges_push_edge. case_decide; [by apply prefix_app_r|done].
Qed.

(** One contraction, from the graph [g] that [contract_node(node)] is
    called on: rows only grow at their end, by shortcuts that stand for
    two edges through [node]. *)
Lemma structure_contract_node g0 g node :
  mirrored g → in_vec (contracted g) node →
  shortcuts_ok g → (∀ u, base_edges (out_edges g u) = out_edges g0 u) →
  shortcuts_ok (contract_node g node).1
  ∧ (∀ u, base_edges (out_edges (contract_node g node).1 u) = out_edges g0 u)
  ∧ (∀ u, out_edges g u `prefix_of` out_edges (contract_node g node).1 u).
Proof.
  intros Hmir Hnode Hsc Hbase.
  assert (0 ≤ node) as Hnode0 by (destruct Hnode; lia).
  cut (contracted (contract_node g node).1 = vec_set (contracted g) node true
       ∧ shortcuts_ok (contract_node g node).1
       ∧ (∀ u, base_edges (out_edges (contract_node g node).1 u) = out_edges g0 u)
       ∧ (∀ u, out_edges g u `prefix_of` out_edges (contract_node g node).1 u));
    [tauto|].
  apply (contract_node_inv
    (λ g' _, contracted g' = vec_set (contracted g) node true
             ∧ shortcuts_ok g'
             ∧ (∀ u, base_edges (out_edges g' u) = out_edges g0 u)
             ∧ (∀ u, out_edges g u `prefix_of` out_edges g' u))).
  - split_and!; try done.
    intros u e He Hs. apply (shortcut_ok_mono g); [|done|by apply Hsc].
    intros x Hx. rewrite is_contracted_mark. by case_decide.
  - intros g' a ie oe hop (Hflags & Hsc' & Hbase' & Hpre) Hie _ Hoe _ _ _ _.
    set (g2 := push_edge g' (target ie) (target oe) (dadd (weight ie) (weight oe)) true node).
    assert (∀ x e', e' ∈ out_edges g' x → e' ∈ out_edges g2 x) as Hgrow.
    { intros x e' He'.
      destruct (out_edges_push_prefix g' (target ie) (target oe)
                  (dadd (weight ie) (weight oe)) true node x) as [k Hk].
      unfold g2. rewrite Hk. apply elem_of_app. by left. }
    assert (∀ x e', e' ∈ out_edges g x → e' ∈ out_edges g' x) as Hgrow0.
    { intros x e' He'. destruct (Hpre x) as [k ->]. apply elem_of_app. by left. }
    split_and!.
    + done.
    + intros u e. unfold g2 at 1. rewrite out_edges_push_edge.
      intros He Hs.
      assert (e ∈ out_edges g' u
              ∨ (u = target ie ∧ e = mkEdge (target oe) (dadd (weight ie) (weight oe)) true node))
        as [He'| [-> ->]].
      { case_decide as Hd; [|by left].
        apply elem_of_app in He as [He| ->%list_elem_of_singleton]; [by left|].
        right. by destruct Hd as [-> _]. }
      * apply (shortcut_ok_mono g'); [done|done|by apply Hsc'].
      * split; [simpl; lia|]. split.
        { simpl. unfold is_contracted. change (contracted g2) with (contracted g').
          rewrite Hflags. rewrite vec_at_set. by rewrite decide_True. }
        exists (mkEdge node (weight ie) (is_shortcut ie) (via_node ie)), oe.
        split_and!; try done.
        -- apply Hgrow, Hgrow0. by apply mirrored_out_of_in.
        -- by apply Hgrow, Hgrow0.
    + intros u. unfold g2. rewrite out_edges_push_edge. case_decide; [|apply Hbase'].
      rewrite base_edges_snoc. simpl. apply Hbase'.
    + intros u. etrans; [apply Hpre|]. apply out_edges_push_prefix.
Qed.

Lemma structure_build_loop g0 nodes : ∀ g r g',
  wf g → mirrored g → shortcuts_ok g →
  (∀ u, base_edges (out_edges g u) = out_edges g0 u) →
  build_loop g r nodes = Returns g' →
  shortcuts_ok g'
  ∧ (∀ u, base_edges (out_edges g' u) = out_edges g0 u)
  ∧ (∀ u, out_edges g u `prefix_of` out_edges g' u).
Proof.
  induction nodes as [|node rest IH]; intros g r g' Hwf Hmir Hsc Hbase; simpl.
  - by intros [= <-].
  - case_decide as Hd; [|done]. intros Hb.
    destruct (structure_contract_node g0 (with_rank g node r) node)
      as (Hsc1 & Hbase1 & Hpre1); try done; [tauto|].
    apply IH in Hb as (Hsc2 & Hbase2 & Hpre2); try done.
    + split_and!; try done. intros u. etrans; [apply (Hpre1 u)|apply Hpre2].
    + by apply wf_contract_node, wf_with_rank.
    + apply mirrored_contract_node; [by apply wf_with_rank|done].
Qed.

Lemma appended_refl via row : appended via row row.
Proof. exists []. by rewrite app_nil_r. Qed.

Lemma appended_trans (via1 via2 via3 : Z → Prop) r1 r2 r3 :
  (∀ x, via1 x → via3 x) → (∀ x, via2 x → via3 x) →
  appended via1 r1 r2 → appended via2 r2 r3 → appended via3 r1 r3.
Proof.
  intros H1 H2 (k1 & -> & Hk1) (k2 & -> & Hk2). exists (k1 ++ k2).
  split; [by rewrite app_assoc|]. apply Forall_app. split.
  - eapply Forall_impl; [exact Hk1|]. intros e [? ?]. auto.
  - eapply Forall_impl; [exact Hk2|]. intros e [? ?]. auto.
Qed.

Lemma appended_snoc via row e :
  is_shortcut e = true → via (via_node e) → appended via row (row ++ [e]).
Proof. intros Hs Hv. exists [e]. split; [done|]. by repeat constructor. Qed.

Lemma rows_contract_node g node u :
  appended (λ x, x = node) (out_edges g u) (out_edges (contract_node g node).1 u)
  ∧ appended (λ x, x = node) (in_edges g u) (in_edges (contract_node g node).1 u).
Proof.
  apply (contract_node_inv
    (λ g' _, appended (λ x, x = node) (out_edges g u) (out_edges g' u)
             ∧ appended (λ x, x = node) (in_edges g u) (in_edges g' u))).
  - split; apply appended_refl.
  - intros g' a ie oe hop [Hout Hin] _ _ _ _ _ _ _. split.
    + rewrite out_edges_push_edge. case_decide; [|exact Hout].
      eapply (appended_trans (λ x, x = node) (λ x, x = node));
        [| |exact Hout|by apply appended_snoc]; done.
    + rewrite in_edges_push_edge. case_decide; [|exact Hin].
      eapply (appended_trans (λ x, x = node) (λ x, x = node));
        [| |exact Hin|by apply appended_snoc]; done.
Qed.

Lemma rows_build_loop nodes u : ∀ g r g',
  build_loop g r nodes = Returns g' →
  appended (λ x, x ∈ nodes) (out_edges g u) (out_edges g' u)
  ∧ appended (λ x, x ∈ nodes) (in_edges g u) (in_edges g' u).
Proof.
  induction nodes as [|node rest IH]; intros g r g'; simpl.
  - intros [= <-]. split; apply appended_refl.
  - case_decide; [|done]. intros [Hout Hin]%IH.
    destruct (rows_contract_node (with_rank g node r) node u) as [Hout1 Hin1].
    split.
    + eapply appended_trans; [| |exact Hout1|exact Hout].
      * intros x ->. apply elem_of_cons. by left.
      * intros x Hx. apply elem_of_cons. by right.
    + eapply appended_trans; [| |exact Hin1|exact Hin].
      * intros x ->. apply elem_of_cons. by left.
      * intros x Hx. apply elem_of_cons. by right.
Qed.

(** X1.  [build_ch] never removes, changes or reorders an entry of an
    adjacency vector: when it returns, the number of nodes is the same
    and every row of [adj_out] and of [adj_in] is the row it was,
    followed by shortcuts whose via node is a node of the ordering. *)
Theorem build_ch_appends g order g' u :
  build_ch g order = Returns g' →
  num_nodes g' = num_nodes g
  ∧ appended (λ x, x ∈ order) (out_edges g u) (out_edges g' u)
  ∧ appended (λ x, x ∈ order) (in_edges g u) (in_edges g' u).
Proof.
  unfold build_ch. intros Hb. split.
  - by apply build_loop_num_nodes in Hb.
  - by apply (rows_build_loop order u) in Hb.
Qed.

Lemma build_ch_appends_witness :
  build_ch diamond_base diamond_order = Returns diamond_built
  ∧ num_nodes diamond_built = num_nodes diamond_base
  ∧ appended (λ x, x ∈ diamond_order) (out_edges diamond_base 0) (out_edges diamond_built 0)
  ∧ appended (λ x, x ∈ diamond_order) (in_edges diamond_base 0) (in_edges diamond_built 0).
Proof.
  assert (build_ch diamond_base diamond_order = Returns diamond_built) as Hb
    by (vm_compute; reflexivity).
  split; [exact Hb|].
  exact (build_ch_appends diamond_base diamond_order diamond_built 0 Hb).
Defined.

(** X2.  Shortcuts of a built graph.  For a graph made of base edges and
    built over any ordering, every shortcut in the row of a node [u]
    has a via node that is not -1, is marked contracted and comes before
    both [u] and the shortcut's target in the ordering; the row of [u]
    has an edge to the via node and the row of the via node has an edge
    to the shortcut's target, and the shortcut's weight is the sum of
    the weights of these two edges as [contract_node] adds them, the
    [double] sum [d_uv + d_vw]. *)
Theorem build_ch_shortcuts n es order g0 g u e :
  0 ≤ n ≤ int_max →
  add_edges (CHGraph_new n) es = Returns g0 →
  build_ch g0 order = Returns g →
  e ∈ out_edges g u → is_shortcut e = true →
  shortcut_ok g u e
  ∧ (first_index (via_node e) order < first_index u order)%nat
  ∧ (first_index (via_node e) order < first_index (target e) order)%nat.
Proof.
  intros Hn Hes Hb He Hs.
  assert (wf g0) as Hwf by (eapply wf_add_edges; [|exact Hes]; by apply wf_new).
  assert (mirrored g0) as Hmir.
  { apply reachable_mirrored. eapply reachable_add_edges; [|exact Hes]. by constructor. }
  assert (base_only g0) as Hbase by (eapply base_only_add_edges; [apply base_only_new|exact Hes]).
  assert (shortcuts_ok (with_order g0 order)) as Hsc0.
  { intros x e' He' Hs'. apply Hbase in He'. congruence. }
  assert (∀ x, base_edges (out_edges (with_order g0 order) x) = out_edges g0 x) as Hb0.
  { intros x. unfold base_edges. apply forallb_filter_id, forallb_forall.
    intros e' He'. apply list_elem_of_In, Hbase in He'. by rewrite He'. }
  destruct (structure_build_loop g0 order (with_order g0 order) 0 g
              (wf_with_order _ _ Hwf) Hmir Hsc0 Hb0 Hb) as (Hsc & _ & _).
  pose proof (Hsc u e He Hs) as Hok. split; [done|].
  assert (via_below (λ x, first_index x order) g) as Hvia.
  { apply (via_below_make n es order). unfold make. by rewrite Hes. }
  apply (Hvia u e He Hs). by destruct Hok.
Qed.

Lemma build_ch_shortcuts_witness :
  0 ≤ 4 ≤ int_max
  ∧ add_edges (CHGraph_new 4) diamond_edges = Returns diamond_base
  ∧ build_ch diamond_base diamond_order = Returns diamond_built
  ∧ mkEdge 3 2000 true 1 ∈ out_edges diamond_built 0
  ∧ shortcut_ok diamond_built 0 (mkEdge 3 2000 true 1)
  ∧ (first_index 1 diamond_order < first_index 0 diamond_order)%nat
  ∧ (first_index 1 diamond_order < first_index 3 diamond_order)%nat.
Proof.
  assert (0 ≤ 4 ≤ int_max) as Hn by (unfold int_max; lia).
  assert (add_edges (CHGraph_new 4) diamond_edges = Returns diamond_base) as Hes
    by (vm_compute; reflexivity).
  assert (build_ch diamond_base diamond_order = Returns diamond_built) as Hb
    by (vm_compute; reflexivity).
  assert (mkEdge 3 2000 true 1 ∈ out_edges diamond_built 0) as He
    by (vm_compute; repeat constructor).
  split_and!; [lia|lia|exact Hes|exact Hb|exact He|..];
    apply (build_ch_shortcuts 4 diamond_edges diamond_order diamond_base diamond_built
             0 (mkEdge 3 2000 true 1) Hn Hes Hb He eq_refl).
Defined.

(** ** The path that [query] returns *)

Lemma chained_cons g a b l : chained g (a :: b :: l) ↔ linked g a b ∧ chained g (b :: l).
Proof. done. Qed.

Lemma chained_snoc g path : ∀ u v,
  chained g path → last path = Some u → linked g u v → chained g (path ++ [v]).
Proof.
  induction path as [|a rest IH]; intros u v Hc Hl Hlink; [done|].
  destruct rest as [|b rest].
  - injection Hl as ->. simpl. by split.
  - change ((a :: b :: rest) ++ [v]) with (a :: (b :: rest ++ [v])).
    apply chained_cons. apply chained_cons in Hc as [Hab Hc]. split; [done|].
    by apply (IH u v).
Qed.

Section unpacking.
Variables g0 g : CHGraph.
Hypothesis Hsc : shortcuts_ok g.
Hypothesis Hbase : ∀ u, base_edges (out_edges g u) = out_edges g0 u.

(** An edge of the built graph that [unpack] does not expand is an edge
    of the base graph. *)
Lemma unpacked_edge u v :
  linked g u v → List.find (is_packed v) (out_edges g u) = None → linked g0 u v.
Proof.
  intros (e & He & Ht) Hfind. exists e. split; [|done].
  rewrite <-Hbase. unfold base_edges. apply list_elem_of_In, filter_In.
  split; [by apply list_elem_of_In|].
  destruct (is_shortcut e) eqn:Hs; [|done]. exfalso.
  pose proof (find_none _ _ Hfind e (proj1 (list_elem_of_In _ _) He)) as Hp.
  destruct (Hsc u e He Hs) as (Hvia & _).
  unfold is_packed in Hp. rewrite Hs in Hp.
  rewrite bool_decide_eq_true_2 in Hp by done.
  by rewrite bool_decide_eq_false_2 in Hp.
Qed.

Lemma unpack_chain fuel : ∀ u v path path',
  unpack fuel g u v path = Some path' →
  linked g u v → last path = Some u → chained g0 path →
  chained g0 path' ∧ last path' = Some v.
Proof.
  induction fuel as [|fuel IH]; intros u v path path'; simpl; [done|].
  destruct (List.find (is_packed v) (out_edges g u)) as [e|] eqn:Hfind.
  - apply find_some in Hfind as [He%list_elem_of_In Hp].
    unfold is_packed in Hp.
    apply andb_true_iff in Hp as [[Ht%bool_decide_eq_true Hs]%andb_true_iff _].
    destruct (Hsc u e He Hs) as (_ & _ & e1 & e2 & He1 & Ht1 & He2 & Ht2 & _).
    destruct (unpack fuel g u (via_node e) path) as [path1|] eqn:Hu1; [|done].
    intros Hu2 _ Hl Hc.
    apply IH in Hu1 as [Hc1 Hl1]; [|by exists e1|done|done].
    apply IH in Hu2; [done|exists e2; split; [done|congruence]|done|done].
  - intros [= <-] Hlink Hl Hc. split; [|by rewrite last_snoc].
    eapply chained_snoc; [done|done|]. by apply unpacked_edge.
Qed.

Lemma unpack_upward_chain ufuel nodes : ∀ curr path path',
  unpack_upward ufuel g curr nodes path = Some path' →
  chained g (curr :: nodes) → last path = Some curr → chained g0 path →
  chained g0 path' ∧ last path' = last (curr :: nodes) ∧ path `prefix_of` path'.
Proof.
  induction nodes as [|next rest IH]; intros curr path path'; simpl.
  - by intros [= <-].
  - destruct (unpack ufuel g curr next path) as [path1|] eqn:Hu; [|done].
    intros Hup [Hlink Hc] Hl Hc0.
    pose proof (unpack_prefix _ _ _ _ _ _ Hu) as Hpre.
    apply unpack_chain in Hu as [Hc1 Hl1]; [|done..].
    apply IH in Hup as (? & ? & ?); [|done..].
    split_and!; [done|done|by etrans].
Qed.

Lemma trace_down_chain t sd ufuel fuel :
  mirrored g → side_ok g (in_edges g) t sd → parents_linked (in_edges g) t sd →
  ∀ curr path path',
    trace_down fuel ufuel g (parent sd) t curr path = Some path' →
    is_fin (dist_at (dist sd) curr) → last path = Some curr → chained g0 path →
    chained g0 path' ∧ last path' = Some t ∧ path `prefix_of` path'.
Proof.
  intros Hmir Hok Hpl.
  induction fuel as [|fuel IH]; intros curr path path'; simpl; [done|].
  case_decide as Hcurr.
  - intros [= <-] _ Hl Hc. by subst curr.
  - destruct (unpack ufuel g curr (parent_at (parent sd) curr) path) as [path1|] eqn:Hu;
      [|done].
    intros Ht Hfin Hl Hc.
    destruct (Hpl curr Hcurr Hfin) as (e & He & Hte).
    destruct (ok_parent _ _ _ _ Hok curr Hcurr Hfin) as (_ & _ & Hfin').
    pose proof (unpack_prefix _ _ _ _ _ _ Hu) as Hpre.
    apply unpack_chain in Hu as [Hc1 Hl1]; [|
      |done|done].
    + apply IH in Ht as (? & ? & ?); [|done..].
      split_and!; [done|done|by etrans].
    + pose proof (mirrored_out_of_in g _ e Hmir He) as Hout. rewrite Hte in Hout.
      by eexists.
Qed.
End unpacking.

Lemma trace_up_chain g s0 sd m fuel :
  side_ok g (out_edges g) s0 sd → parents_linked (out_edges g) s0 sd →
  ∀ curr up up',
    trace_up fuel (parent sd) s0 curr up = Some up' →
    is_fin (dist_at (dist sd) curr) →
    chained g (curr :: rev up) → last (curr :: rev up) = Some m →
    chained g (s0 :: rev up') ∧ last (s0 :: rev up') = Some m.
Proof.
  intros Hok Hpl.
  induction fuel as [|fuel IH]; intros curr up up'; simpl; [done|].
  case_decide as Hcurr.
  - intros [= <-] _ Hc Hl. by subst curr.
  - intros Ht Hfin Hc Hl.
    destruct (Hpl curr Hcurr Hfin) as (e & He & Hte).
    destruct (ok_parent _ _ _ _ Hok curr Hcurr Hfin) as (_ & _ & Hfin').
    apply IH in Ht; [done|done|..]; rewrite rev_unit.
    + apply chained_cons. split; [by exists e|done].
    + done.
Qed.

(** ** The parents that the search records *)

Section search_parents.
Variables (g : CHGraph) (adjT : Z → list Edge) (sT : Z) (adjO : Z → list Edge) (sO : Z).
Hypothesis HadjT : adjacency_of g adjT.

Lemma parents_linked_improved this u nd e :
  side_ok g adjT sT this → e ∈ adjT u →
  parents_linked adjT sT this →
  parents_linked adjT sT (improved this u nd (target e)).
Proof.
  intros Hok He Hpl x Hx. simpl.
  assert (node_of g (target e)) as Hnode by (by eapply (proj1 HadjT)).
  rewrite (dist_at_improve g); [|apply Hok|done].
  rewrite (parent_at_improve g); [|apply Hok|done].
  case_decide as Hte; [intros _; by exists e|]. by apply Hpl.
Qed.

Lemma relax_parents this other mu meet_node u d e :
  side_ok g adjT sT this → e ∈ adjT u →
  parents_linked adjT sT this →
  parents_linked adjT sT (relax g u d other (this, mu, meet_node) e).1.1.
Proof.
  intros Hok He Hpl.
  destruct (relax_cases g u d other this mu meet_node e)
    as [[-> _]|(Hr & Hlt & [(o & Hother & Hmu & ->)|(Hmu & ->)])]; simpl; [done|..];
    by apply parents_linked_improved.
Qed.

Lemma half_step_parents this other mu meet_node :
  pair_ok g adjT sT adjO sO this other mu meet_node →
  parents_linked adjT sT this →
  parents_linked adjT sT (half_step g adjT this (dist other) mu meet_node).1.1.
Proof.
  intros Hok Hpl. unfold half_step.
  destruct (pq this) as [|[d u] rest] eqn:Hpq; [done|].
  destruct (ok_queue _ _ _ _ (po_this _ _ _ _ _ _ _ _ _ Hok) d u) as [Hu Hfin].
  { rewrite Hpq. by left. }
  assert (pair_ok g adjT sT adjO sO
            {| pq := rest; dist := dist this; parent := parent this |} other mu meet_node)
    as Hok0.
  { destruct Hok as [Ht Ho Hm]. split; [|done|done].
    apply side_ok_popped in Ht. unfold popped in Ht. by rewrite Hpq in Ht. }
  destruct (le_ext d mu); [|done].
  cut ((λ st, pair_ok g adjT sT adjO sO st.1.1 other st.1.2 st.2
              ∧ is_fin (dist_at (dist st.1.1) u)
              ∧ parents_linked adjT sT st.1.1)
         (fold_left (relax g u d (dist other)) (adjT u)
            ({| pq := rest; dist := dist this; parent := parent this |}, mu, meet_node))).
  { by intros (_ & _ & ?). }
  apply fold_left_inv; [done|].
  intros [[this' mu'] meet'] e He (Hok' & Hfin' & Hpl'). simpl in Hok', Hfin', Hpl'.
  split_and!.
  - by apply relax_pair_ok.
  - destruct (relax_cases g u d (dist other) this' mu' meet' e)
      as [[-> _]|(Hr & Hlt & [(o & Hother & Hmu & ->)|(Hmu & ->)])]; simpl; [done|..].
    + apply (dist_at_improve_fin g); [apply Hok'|by eapply (proj1 HadjT)|done].
    + apply (dist_at_improve_fin g); [apply Hok'|by eapply (proj1 HadjT)|done].
  - apply relax_parents; [apply Hok'|done|done].
Qed.
End search_parents.

Lemma parents_linked_init g adj s0 :
  wf g → node_of g s0 → parents_linked adj s0 (init_side (num_nodes g) s0).
Proof.
  intros Hwf Hs x Hx. simpl.
  assert (Z.of_nat (length (replicate (Z.to_nat (num_nodes g)) (@Inf Z))) = num_nodes g)
    as Hlen.
  { rewrite length_replicate. pose proof (wf_nodes g Hwf). lia. }
  rewrite (dist_at_improve g) by done. rewrite decide_False by done.
  unfold dist_at, vec_at. case_decide; [|by intros [z ?]].
  destruct (replicate _ _ !! _) as [d|] eqn:Hd; [|by intros [z ?]].
  apply lookup_replicate in Hd as [-> _]. by intros [z ?].
Qed.

Lemma query_search_parents g fuel s t fwd bwd mu meet_node :
  wf g → node_of g s → node_of g t →
  query_search fuel g s t = Some (fwd, bwd, mu, meet_node) →
  parents_linked (out_edges g) s fwd ∧ parents_linked (in_edges g) t bwd.
Proof.
  intros Hwf Hs Ht Hq.
  cut ((pair_ok g (out_edges g) s (in_edges g) t fwd bwd mu meet_node
        ∧ parents_linked (out_edges g) s fwd ∧ parents_linked (in_edges g) t bwd)
       ∧ pq fwd = [] ∧ pq bwd = []); [tauto|].
  revert Hq. unfold query_search.
  apply (search_loop_inv g (λ f b m mn,
           pair_ok g (out_edges g) s (in_edges g) t f b m mn
           ∧ parents_linked (out_edges g) s f ∧ parents_linked (in_edges g) t b)).
  - intros f b m mn (Hok & Hf & Hb).
    pose proof (half_step_pair_ok g _ s _ t (adjacency_of_out g Hwf) f b m mn Hok) as Hstep.
    pose proof (half_step_parents g _ s _ t (adjacency_of_out g Hwf) f b m mn Hok Hf)
      as Hstep'.
    by destruct (half_step g (out_edges g) f (dist b) m mn) as [[f' m'] mn'].
  - intros f b m mn (Hok%pair_ok_swap & Hf & Hb).
    pose proof (half_step_pair_ok g _ t _ s (adjacency_of_in g Hwf) b f m mn Hok) as Hstep.
    pose proof (half_step_parents g _ t _ s (adjacency_of_in g Hwf) b f m mn Hok Hb)
      as Hstep'.
    destruct (half_step g (in_edges g) b (dist f) m mn) as [[b' m'] mn'].
    split_and!; [by apply pair_ok_swap|done|done].
  - split_and!; [|by apply parents_linked_init..].
    split; [by apply side_ok_init|by apply side_ok_init|done].
Qed.

(** ** What [query] returns on a built graph *)

Lemma expands_refl g : expands g g.
Proof. intros u e He. exists [e]. simpl. split; [by split|lia]. Qed.

Lemma expands_build_loop g0 nodes Wb : ∀ g r g',
  wf g → mirrored g → expands g0 g → build_loop g r nodes = Returns g' →
  weights_within Wb (out_edges g') → 2 * Wb ≤ double_exact →
  expands g0 g'.
Proof.
  induction nodes as [|node rest IH]; intros g r g' Hwf Hmir Hex; simpl.
  - by intros [= <-].
  - case_decide; [|done]. intros Hb HW Hexact.
    eapply IH; [| | |exact Hb|done|done].
    + by apply wf_contract_node, wf_with_rank.
    + apply mirrored_contract_node; [by apply wf_with_rank|done].
    + apply (expands_contract_node g0 (with_rank g node r) node Wb);
        [exact Hmir| |done|exact Hex].
      intros u e He. apply (HW u).
      eapply build_loop_out_incl; [exact Hb|].
      by apply (contract_node_out_incl (with_rank g node r)).
Qed.

(** The two ways [query] ends: with the empty path and 0.0, or with a
    meeting node recorded and the path rebuilt from it. *)
Lemma query_result lvl g s t :
  wf g → via_below lvl g →
  ∃ path d,
    (∀ fuel, (query_fuel lvl g s t ≤ fuel)%nat → query fuel g s t = Some (path, d))
    ∧ ((path = [] ∧ d = Fin 0%Q
        ∧ (¬ (node_of g s ∧ node_of g t)
           ∨ ∃ fwd bwd mu,
               query_search (query_fuel lvl g s t) g s t = Some (fwd, bwd, mu, -1)))
       ∨ (∃ fwd bwd mu meet_node,
            node_of g s ∧ node_of g t ∧ meet_node ≠ -1 ∧ d = scale_down mu
            ∧ query_search (query_fuel lvl g s t) g s t = Some (fwd, bwd, mu, meet_node)
            ∧ query_path (query_fuel lvl g s t) g s t fwd bwd meet_node = Some path
            ∧ path ≠ [])).
Proof.
  intros Hwf Hvia.
  destruct (query_search_returns lvl g s t Hwf) as [[[[fwd bwd] mu] meet_node] Hfinal].
  pose proof (Hfinal _ (Nat.le_refl _)) as Hsearch.
  destruct (decide (node_of g s ∧ node_of g t)) as [[Hs Ht]|Hout].
  - destruct (query_search_pair_ok g _ s t fwd bwd mu meet_node Hwf Hs Ht Hsearch)
      as (Hok & _ & _).
    destruct (decide (meet_node = -1)) as [Hmeet|Hmeet].
    + exists [], (Fin 0%Q). split.
      2:{ left. split_and!; [done|done|]. right. exists fwd, bwd, mu. by rewrite <-Hmeet. }
      intros fuel Hfuel.
      unfold query. rewrite decide_False by (unfold node_of in *; lia).
      rewrite (Hfinal fuel Hfuel). simpl. by rewrite decide_True.
    + destruct (query_path_returns lvl g s t fwd bwd mu meet_node (query_fuel lvl g s t)
                  Hok Hvia Hs Hmeet) as (path & Hpath & Hne);
        [unfold query_fuel; lia|unfold query_fuel; lia|].
      exists path, (scale_down mu). split.
      * intros fuel Hfuel.
        apply (query_more_fuel (query_fuel lvl g s t)); [|done].
        unfold query. rewrite decide_False by (unfold node_of in *; lia).
        rewrite Hsearch. simpl. rewrite decide_False by done. by rewrite Hpath.
      * right. exists fwd, bwd, mu, meet_node. by split_and!.
  - exists [], (Fin 0%Q). split; [|left; split_and!; [done|done|by left]].
    intros fuel Hfuel.
    unfold query. rewrite decide_True; [done|]. unfold node_of in Hout. lia.
Qed.

(** What building from base edges establishes, for the two theorems on
    [query] below. *)
Lemma built_graph n es order g0 g :
  0 ≤ n ≤ int_max →
  add_edges (CHGraph_new n) es = Returns g0 →
  build_ch g0 order = Returns g →
  wf g ∧ mirrored g ∧ via_below (λ x, first_index x order) g
  ∧ shortcuts_ok g ∧ (∀ u, base_edges (out_edges g u) = out_edges g0 u)
  ∧ num_nodes g = n
  ∧ ∀ W, weights_within W (out_edges g) → 2 * W ≤ double_exact → expands g0 g.
Proof.
  intros Hn Hes Hb.
  assert (wf g0) as Hwf by (eapply wf_add_edges; [|exact Hes]; by apply wf_new).
  assert (mirrored g0) as Hmir.
  { apply reachable_mirrored. eapply reachable_add_edges; [|exact Hes]. by constructor. }
  assert (base_only g0) as Hbase by (eapply base_only_add_edges; [apply base_only_new|exact Hes]).
  assert (shortcuts_ok (with_order g0 order)) as Hsc0.
  { intros x e' He' Hs'. apply Hbase in He'. congruence. }
  assert (∀ x, base_edges (out_edges (with_order g0 order) x) = out_edges g0 x) as Hb0.
  { intros x. unfold base_edges. apply forallb_filter_id, forallb_forall.
    intros e' He'. apply list_elem_of_In, Hbase in He'. by rewrite He'. }
  destruct (structure_build_loop g0 order (with_order g0 order) 0 g
              (wf_with_order _ _ Hwf) Hmir Hsc0 Hb0 Hb) as (Hsc & Hbase' & _).
  split_and!; try done.
  - by eapply wf_build_ch.
  - eapply mirrored_build_loop; [| |exact Hb]; [by apply wf_with_order|exact Hmir].
  - apply (via_below_make n es order). unfold make. by rewrite Hes.
  - apply build_loop_num_nodes in Hb. rewrite Hb. simpl.
    by destruct (add_edges_fresh es _ _ Hes) as (-> & _).
  - intros W HW Hexact.
    eapply (expands_build_loop g0 order W); [| | |exact Hb|done|done];
      [by apply wf_with_order|exact Hmir|apply (expands_refl g0)].
Qed.

(** X3.  The path of [query] is a path of the base graph.  On a graph
    made of base edges and built over any ordering, [query(s, t)]
    returns, and a path it returns that is not empty starts with [s],
    ends with [t], and every two consecutive nodes of it are joined by
    an edge of the base graph, from the first to the second: every
    shortcut has been expanded. *)
Theorem query_path_valid n es order g0 g s t :
  0 ≤ n ≤ int_max →
  add_edges (CHGraph_new n) es = Returns g0 →
  build_ch g0 order = Returns g →
  ∃ path d,
    (∀ fuel, (query_fuel (λ x, first_index x order) g s t ≤ fuel)%nat →
             query fuel g s t = Some (path, d))
    ∧ (path ≠ [] → head path = Some s ∧ last path = Some t ∧ chained g0 path).
Proof.
  intros Hn Hes Hb.
  destruct (built_graph n es order g0 g Hn Hes Hb)
    as (Hwf & Hmir & Hvia & Hsc & Hbase & _ & _).
  destruct (query_result _ g s t Hwf Hvia)
    as (path & d & Hq & [(-> & _)|(fwd & bwd & mu & meet_node & Hs & Ht & Hmeet & _
                                    & Hsearch & Hpath & _)]).
  { exists [], d. split; [done|]. by intros []. }
  exists path, d. split; [done|]. intros _.
  destruct (query_search_pair_ok g _ s t fwd bwd mu meet_node Hwf Hs Ht Hsearch)
    as ([Hf Hbw Hm] & _ & _).
  destruct (query_search_parents g _ s t fwd bwd mu meet_node Hwf Hs Ht Hsearch)
    as [Hpf Hpb].
  assert (is_fin (dist_at (dist fwd) meet_node) ∧ is_fin (dist_at (dist bwd) meet_node))
    as [Hfinf Hfinb].
  { unfold meet_ok in Hm. destruct mu as [m|]; [|done]. by destruct Hm as (? & ? & _). }
  remember (query_fuel (λ x, first_index x order) g s t) as fuel eqn:Hfuel.
  unfold query_path in Hpath.
  destruct (trace_up _ (parent fwd) s meet_node []) as [up|] eqn:Hup; [|done].
  simpl in Hpath.
  destruct (unpack_upward _ g s (rev up) [s]) as [path1|] eqn:Hunp; [|done].
  simpl in Hpath.
  destruct (trace_up_chain g s fwd meet_node _ Hf Hpf meet_node [] up Hup Hfinf)
    as [Hc1 Hl1]; [done|done|].
  destruct (unpack_upward_chain g0 g Hsc Hbase _ (rev up) s [s] path1 Hunp Hc1)
    as (Hc2 & Hl2 & Hpre2); [done|done|].
  rewrite Hl1 in Hl2.
  destruct (trace_down_chain g0 g Hsc Hbase t bwd _ _ Hmir Hbw Hpb meet_node path1 path
              Hpath Hfinb Hl2 Hc2) as (Hc3 & Hl3 & Hpre3).
  split_and!; [|done|done].
  destruct Hpre2 as [k2 ->]. by destruct Hpre3 as [k3 ->].
Qed.

Lemma query_path_valid_witness :
  0 ≤ 4 ≤ int_max
  ∧ add_edges (CHGraph_new 4) diamond_edges = Returns diamond_base
  ∧ build_ch diamond_base diamond_order = Returns diamond_built
  ∧ ∃ path d,
      (∀ fuel, (query_fuel (λ x, first_index x diamond_order) diamond_built 0 3 ≤ fuel)%nat →
               query fuel diamond_built 0 3 = Some (path, d))
      ∧ (path ≠ [] → head path = Some 0 ∧ last path = Some 3 ∧ chained diamond_base path).
Proof.
  assert (0 ≤ 4 ≤ int_max) as Hn by (unfold int_max; lia).
  assert (add_edges (CHGraph_new 4) diamond_edges = Returns diamond_base) as Hes
    by (vm_compute; reflexivity).
  assert (build_ch diamond_base diamond_order = Returns diamond_built) as Hb
    by (vm_compute; reflexivity).
  split_and!; [lia|lia|exact Hes|exact Hb|].
  exact (query_path_valid 4 diamond_edges diamond_order diamond_base diamond_built 0 3
           Hn Hes Hb).
Defined.

(** Two shortcuts between the same nodes.  Contracting node 0 inserts
    the shortcut 4 -> 5 of weight 10000 (the lighter route has four
    hops, one more than the witness search follows), contracting node 3
    inserts the shortcut 4 -> 5 of weight 4000.  The search relaxes
    both and keeps the lighter one; [unpack(4, 5)] expands the first
    shortcut of the row with target 5, whatever its weight.  So
    [query(4, 5)] returns the distance 4.0 together with the path
    4, 0, 5, whose two base edges weigh 5000 each: a path of the base
    graph, but not the one the distance belongs to. *)
Example query_path_detour :
  build_ch detour_base detour_order = Returns detour_built
  ∧ List.filter (λ e, bool_decide (target e = 5)) (out_edges detour_built 4)
    = [mkEdge 5 10000 true 0; mkEdge 5 4000 true 3]
  ∧ query 100 detour_built 4 5 = Some ([4; 0; 5], Fin (4000 # 1000)%Q)
  ∧ out_edges detour_base 0 = [mkEdge 5 5000 false (-1)]
  ∧ List.filter (λ e, bool_decide (target e = 0)) (out_edges detour_base 4)
    = [mkEdge 0 5000 false (-1)].
Proof. split_and!; vm_compute; reflexivity. Qed.

(** Why the weights have to be bounded for the distance: with the
    edges 0 -> 1 of weight [2 ^ 53] and 1 -> 2, 2 -> 3 of weight 1,
    contracted in the order 1, 2, 0, 3, both shortcut totals are rounded
    to [2 ^ 53], and [query(0, 3)] returns [2 ^ 53 / 1000], which is the
    weight of no route: the only one weighs [2 ^ 53 + 2]. *)
Example query_rounded_distance :
  let es := [(0, 1, 2 ^ 53); (1, 2, 1); (2, 3, 1)] in
  let g := graph_of (make 4 es [1; 2; 0; 3]) in
  make 4 es [1; 2; 0; 3] = Returns g
  ∧ out_edges g 0 = [mkEdge 1 (2 ^ 53) false (-1); mkEdge 2 (2 ^ 53) true 1;
                     mkEdge 3 (2 ^ 53) true 2]
  ∧ query 50 g 0 3 = Some ([0; 1; 2; 3], Fin (2 ^ 53 # 1000)%Q)
  ∧ walk_weight [mkEdge 1 (2 ^ 53) false (-1); mkEdge 2 1 false (-1);
                 mkEdge 3 1 false (-1)] = 2 ^ 53 + 2.
Proof. cbv zeta. split_and!; vm_compute; reflexivity. Qed.

(** X4.  The distance of [query] is the weight of a route.  On a graph
    made of base edges and built over any ordering (complete or not,
    with or without a contraction that reaches the cap), when every
    weight of the built graph is a whole number between 0 and [W] with
    [2 * (N + 2) * W ≤ 2 ^ 53], so that every sum the build and the
    query form is exact in [double], [query(s, t)] returns, and
    whenever its path is not empty the distance it returns is
    [m / 1000.0] for the weight [m] of some walk from [s] to [t] in the
    base graph: the query never reports a distance that no route has,
    so never one below the shortest distance; and when the base graph
    has no walk from [s] to [t] it returns the empty path and 0.0. *)
Theorem query_distance_sound n es order g0 g s t W :
  0 ≤ n ≤ int_max →
  add_edges (CHGraph_new n) es = Returns g0 →
  build_ch g0 order = Returns g →
  0 ≤ W → weights_within W (out_edges g) → 2 * (n + 2) * W ≤ double_exact →
  ∃ path d,
    (∀ fuel, (query_fuel (λ x, first_index x order) g s t ≤ fuel)%nat →
             query fuel g s t = Some (path, d))
    ∧ (path ≠ [] →
       ∃ m bw, d = Fin (m # 1000)%Q
               ∧ is_walk (out_edges g0) s bw t ∧ walk_weight bw = m
               ∧ ∀ d0, shortest_distance g0 s t d0 → d0 ≤ m)
    ∧ (¬ connected g0 s t → path = [] ∧ d = Fin 0%Q).
Proof.
  intros Hn Hes Hb HW0 HW Hexact.
  destruct (built_graph n es order g0 g Hn Hes Hb)
    as (Hwf & Hmir & Hvia & _ & _ & Hnodes & Hex).
  assert (expands g0 g) as Hexp by (apply (Hex W); [done|nia]).
  assert (2 * num_nodes g * W ≤ double_exact) as Hexact2 by (rewrite Hnodes; nia).
  destruct (query_result _ g s t Hwf Hvia)
    as (path & d & Hq & [(-> & -> & _)|(fwd & bwd & mu & meet_node & Hs & Ht & Hmeet & ->
                                          & Hsearch & _ & _)]).
  { exists [], (Fin 0%Q). split_and!; [done|by intros []|done]. }
  destruct (query_search_pair_ok g _ s t fwd bwd mu meet_node Hwf Hs Ht Hsearch)
    as ([_ _ Hm] & _ & _).
  unfold meet_ok in Hm. destruct mu as [m|]; [|done]. destruct Hm as (_ & _ & Hm).
  destruct (meets_base_walk g0 g s t m W Hexp Hmir Hwf HW0 HW Hexact2 Hm)
    as (bw & Hbw & Hw).
  exists path, (scale_down (Fin m)). split_and!; [done| |].
  - intros _. exists m, bw. split_and!; [done|done|done|].
    intros d0 [_ Hleast]. rewrite <-Hw. by apply Hleast.
  - intros Hno. exfalso. apply Hno. by exists bw.
Qed.

Lemma query_distance_sound_witness :
  0 ≤ 4 ≤ int_max
  ∧ add_edges (CHGraph_new 4) diamond_edges = Returns diamond_base
  ∧ build_ch diamond_base diamond_order = Returns diamond_built
  ∧ 0 ≤ 5000 ∧ weights_within 5000 (out_edges diamond_built)
  ∧ 2 * (4 + 2) * 5000 ≤ double_exact
  ∧ ∃ path d,
      (∀ fuel, (query_fuel (λ x, first_index x diamond_order) diamond_built 0 3 ≤ fuel)%nat →
               query fuel diamond_built 0 3 = Some (path, d))
      ∧ (path ≠ [] →
         ∃ m bw, d = Fin (m # 1000)%Q
                 ∧ is_walk (out_edges diamond_base) 0 bw 3 ∧ walk_weight bw = m
                 ∧ ∀ d0, shortest_distance diamond_base 0 3 d0 → d0 ≤ m)
      ∧ (¬ connected diamond_base 0 3 → path = [] ∧ d = Fin 0%Q).
Proof.
  assert (0 ≤ 4 ≤ int_max) as Hn by (unfold int_max; lia).
  assert (add_edges (CHGraph_new 4) diamond_edges = Returns diamond_base) as Hes
    by (vm_compute; reflexivity).
  assert (build_ch diamond_base diamond_order = Returns diamond_built) as Hb
    by (vm_compute; reflexivity).
  assert (0 ≤ 5000) as HW0 by lia.
  assert (weights_within 5000 (out_edges diamond_built)) as HW.
  { intros x e He.
    unfold out_edges, vec_at in He. case_decide; [|by apply elem_of_nil in He].
    destruct (Z.to_nat x) as [|[|[|[|k]]]]; vm_compute in He;
      repeat (apply elem_of_cons in He as [->|He]; [simpl; lia|]);
      by apply elem_of_nil in He. }
  assert (2 * (4 + 2) * 5000 ≤ double_exact) as Hexact by (vm_compute; discriminate).
  split_and!; [lia|lia|exact Hes|exact Hb|exact HW0|exact HW|exact Hexact|].
  exact (query_distance_sound 4 diamond_edges diamond_order diamond_base diamond_built
           0 3 5000 Hn Hes Hb HW0 HW Hexact).
Defined.

(** ** Serialisation and reloading *)

Lemma vec_ext {A} (d : A) (l1 l2 : list A) :
  length l1 = length l2 →
  (∀ i, in_vec l1 i → vec_at d l1 i = vec_at d l2 i) → l1 = l2.
Proof.
  intros Hlen Hext. apply list_eq. intros i.
  destruct (decide (i < length l1)%nat) as [Hi|Hi].
  - assert (in_vec l1 (Z.of_nat i)) as H1 by (unfold in_vec; lia).
    assert (in_vec l2 (Z.of_nat i)) as H2 by (unfold in_vec; lia).
    pose proof (vec_at_inside d l1 _ H1) as E1.
    pose proof (vec_at_inside d l2 _ H2) as E2.
    rewrite Nat2Z.id in E1, E2. rewrite E1, E2. f_equal. by apply Hext.
  - rewrite !lookup_ge_None_2; [done|lia|lia].
Qed.

Lemma load_edges_app ts1 : ∀ h ts2,
  load_edges h (ts1 ++ ts2)
  = match load_edges h ts1 with
    | Returns h1 => load_edges h1 ts2
    | Raises e => Raises e
    | Undefined => Undefined
    end.
Proof.
  induction ts1 as [|[[[[u v] w] sc] via] ts1 IH]; intros h ts2; simpl; [done|].
  destruct (add_ch_edge h u v w sc via); [apply IH|done|done].
Qed.

(** Replaying the row of one node. *)
Lemma load_edges_row es : ∀ h u,
  reachable h → node_of h u → Forall (λ e, node_of h (target e)) es →
  ∃ h', load_edges h (edge_tuple u <$> es) = Returns h'
    ∧ reachable h' ∧ num_nodes h' = num_nodes h ∧ rank h' = rank h
    ∧ contracted h' = contracted h
    ∧ ∀ x, out_edges h' x = if decide (x = u) then out_edges h x ++ es else out_edges h x.
Proof.
  induction es as [|e es IH]; intros h u Hreach Hu Hes.
  - exists h. split_and!; try done. intros x. case_decide; [by rewrite app_nil_r|done].
  - apply Forall_cons in Hes as [He Hes].
    pose proof (reachable_wf h Hreach) as Hwf.
    assert (in_vec (adj_out h) u) as Hin by (by apply (node_of_in_vec h), Hu; apply Hwf).
    set (h1 := push_edge h u (target e) (weight e) (is_shortcut e) (via_node e)).
    assert (add_ch_edge h u (target e) (weight e) (is_shortcut e) (via_node e) = Returns h1)
      as Hadd.
    { unfold add_ch_edge. rewrite decide_True; [done|].
      split; [done|by apply (node_of_in_vec h), He; apply Hwf]. }
    rewrite fmap_cons. unfold edge_tuple at 1. simpl. rewrite Hadd.
    destruct (IH h1 u) as (h' & Hload & Hreach' & Hn & Hr & Hc & Hrows).
    { by eapply reachable_add_ch_edge. }
    { exact Hu. }
    { exact Hes. }
    exists h'. split_and!; try done. intros x. rewrite Hrows. unfold h1.
    rewrite out_edges_push_edge.
    destruct e as [v w sc via]; simpl.
    destruct (decide (x = u)) as [->|Hx].
    + rewrite decide_True by done. by rewrite <-app_assoc.
    + rewrite decide_False; [done|]. intros [? _]. by apply Hx.
Qed.

(** Replaying the rows of the nodes [us] of [g], one after the other. *)
Lemma load_edges_rows g us : ∀ h,
  reachable h → NoDup us → Forall (node_of h) us →
  (∀ u e, e ∈ out_edges g u → node_of h (target e)) →
  ∃ h', load_edges h (flat_map (λ u, edge_tuple u <$> out_edges g u) us) = Returns h'
    ∧ reachable h' ∧ num_nodes h' = num_nodes h ∧ rank h' = rank h
    ∧ contracted h' = contracted h
    ∧ ∀ x, out_edges h' x
           = if decide (x ∈ us) then out_edges h x ++ out_edges g x else out_edges h x.
Proof.
  induction us as [|u us IH]; intros h Hreach Hnd Hus Htargets.
  - exists h. split_and!; try done.
  - apply NoDup_cons in Hnd as [Hu Hnd]. apply Forall_cons in Hus as [Hnode Hus].
    simpl. rewrite load_edges_app.
    destruct (load_edges_row (out_edges g u) h u Hreach Hnode)
      as (h1 & -> & Hreach1 & Hn1 & Hr1 & Hc1 & Hrows1).
    { apply Forall_forall. intros e He. by eapply Htargets. }
    destruct (IH h1 Hreach1 Hnd) as (h' & Hload & Hreach' & Hn & Hr & Hc & Hrows).
    { eapply Forall_impl; [exact Hus|]. intros x. unfold node_of. by rewrite Hn1. }
    { intros x e He. unfold node_of. rewrite Hn1. by eapply Htargets. }
    exists h'. split_and!; try done; try congruence.
    intros x. rewrite Hrows, Hrows1.
    destruct (decide (x = u)) as [->|Hx].
    + rewrite decide_False by done. rewrite decide_True; [done|]. by left.
    + destruct (decide (x ∈ us)) as [Hin|Hin].
      * rewrite decide_True; [done|]. by right.
      * rewrite decide_False; [done|]. by intros [?|?]%elem_of_cons.
Qed.

(** Replaying a rank vector from position [u0] on. *)
Lemma load_ranks_spec rs : ∀ h u0,
  reachable h → 0 ≤ u0 → Z.of_nat (length (rank h)) = num_nodes h →
  ∃ h', load_ranks h u0 rs = Returns h'
    ∧ reachable h' ∧ num_nodes h' = num_nodes h ∧ adj_out h' = adj_out h ∧ adj_in h' = adj_in h
    ∧ contracted h' = contracted h ∧ length (rank h') = length (rank h)
    ∧ ∀ x, rank_of h' x
           = if decide (u0 ≤ x < u0 + Z.of_nat (length rs) ∧ x < num_nodes h)
             then default (-1) (rs !! Z.to_nat (x - u0)) else rank_of h x.
Proof.
  induction rs as [|r rs IH]; intros h u0 Hreach Hu0 Hlen.
  - exists h. split_and!; try done. intros x. rewrite decide_False; [done|]. simpl. lia.
  - simpl load_ranks.
    assert (∃ h1, set_rank h u0 r = Returns h1
                  ∧ num_nodes h1 = num_nodes h ∧ adj_out h1 = adj_out h
                  ∧ adj_in h1 = adj_in h ∧ contracted h1 = contracted h
                  ∧ length (rank h1) = length (rank h)
                  ∧ ∀ x, rank_of h1 x
                         = if decide (x = u0 ∧ x < num_nodes h) then r else rank_of h x)
      as (h1 & Hset & Hn1 & Ho1 & Hi1 & Hc1 & Hl1 & Hr1).
    { unfold set_rank. case_decide as Hd.
      - exists (with_rank h u0 r). split_and!; try done.
        + simpl. apply length_vec_set.
        + intros x. unfold rank_of. simpl. rewrite vec_at_set.
          destruct (decide (x = u0)) as [->|Hx].
          * rewrite decide_True by (split; [done|unfold in_vec; lia]).
            rewrite decide_True; [done|lia].
          * rewrite decide_False by (intros [? _]; by apply Hx).
            rewrite decide_False; [done|]. intros [? _]. by apply Hx.
      - exists h. split_and!; try done. intros x. rewrite decide_False; [done|lia]. }
    rewrite Hset.
    destruct (IH h1 (u0 + 1)) as (h' & Hload & Hreach' & Hn & Ho & Hi & Hc & Hl & Hr);
      [by eapply reachable_set_rank|lia|lia|].
    exists h'. split_and!; try congruence; try done.
    intros x. rewrite Hr, Hr1, Hn1. rewrite length_cons, Nat2Z.inj_succ.
    destruct (decide (x = u0)) as [->|Hx].
    + rewrite decide_False by lia. case_decide.
      * rewrite decide_True by lia. by rewrite Z.sub_diag.
      * rewrite decide_False; [done|lia].
    + rewrite (decide_False (P := x = u0 ∧ _)) by (intros [? _]; by apply Hx).
      case_decide as Hd.
      * rewrite decide_True by lia.
        replace (Z.to_nat (x - u0)) with (S (Z.to_nat (x - (u0 + 1)))) by lia. done.
      * rewrite decide_False; [done|lia].
Qed.

(** The rows of [adj_in] are determined, up to their order, by
    [adj_out]. *)
Lemma in_edges_of_out g g' v :
  mirrored g → mirrored g' → adj_out g' = adj_out g → in_edges g' v ≡ₚ in_edges g v.
Proof.
  intros Hmir Hmir' Hout.
  apply (Permutation_count_occ Edge_eq_dec). intros [u w sc via].
  pose proof (Hmir' u v w sc via) as Hm'. pose proof (Hmir u v w sc via) as Hm.
  unfold occurrences, out_edges in Hm, Hm'. rewrite Hout in Hm'. congruence.
Qed.

(** What replaying the serialised data gives. *)
Lemma reload_spec g :
  reachable g →
  ∃ g', reload (get_graph_data g) = Returns g'
    ∧ reachable g'
    ∧ num_nodes g' = num_nodes g
    ∧ adj_out g' = adj_out g
    ∧ rank g' = rank g
    ∧ contracted g' = replicate (Z.to_nat (num_nodes g)) false.
Proof.
  intros Hreach.
  pose proof (reachable_wf g Hreach) as Hwf.
  pose proof (wf_nodes g Hwf) as Hn.
  unfold reload, get_graph_data. cbn [edges ranks].
  rewrite (wf_rank_len g Hwf).
  destruct (load_edges_rows g (seqZ 0 (num_nodes g)) (CHGraph_new (num_nodes g)))
    as (h1 & -> & Hreach1 & Hn1 & Hr1 & Hc1 & Hrows1).
  { by apply reachable_new. }
  { apply NoDup_seqZ. }
  { apply Forall_forall. intros x Hx%elem_of_seqZ. unfold node_of. simpl. lia. }
  { intros u e He. by apply (wf_out_target g Hwf u). }
  pose proof (reachable_wf h1 Hreach1) as Hwf1.
  destruct (load_ranks_spec (rank g) h1 0 Hreach1) as
    (g' & -> & Hreach' & Hn' & Ho' & Hi' & Hc' & Hl' & Hr'); [lia|apply Hwf1|].
  simpl in Hn1.
  assert (∀ x, vec_at [] (replicate (Z.to_nat (num_nodes g)) ([] : list Edge)) x = [])
    as Hrep.
  { intros x. unfold vec_at. case_decide; [|done].
    destruct (replicate _ _ !! _) as [y|] eqn:Hy; [|done].
    by apply lookup_replicate in Hy as [-> _]. }
  exists g'. split_and!; [done|done|congruence| | |by rewrite Hc', Hc1].
  - rewrite Ho'. apply (vec_ext []).
    + apply Nat2Z.inj. rewrite (wf_out_len h1 Hwf1), (wf_out_len g Hwf). done.
    + intros i Hi. fold (out_edges h1 i) (out_edges g i). rewrite Hrows1.
      unfold out_edges at 1 2. simpl. rewrite Hrep.
      rewrite decide_True; [done|]. apply elem_of_seqZ.
      unfold in_vec in Hi. rewrite (wf_out_len h1 Hwf1) in Hi. lia.
  - apply (vec_ext (-1)).
    + rewrite Hl', Hr1. simpl. rewrite length_replicate.
      apply Nat2Z.inj. rewrite (wf_rank_len g Hwf). lia.
    + intros i Hi. fold (rank_of g' i). rewrite Hr'.
      unfold in_vec in Hi. rewrite Hl', Hr1 in Hi. simpl in Hi.
      rewrite length_replicate in Hi.
      rewrite decide_True by (rewrite (wf_rank_len g Hwf); lia).
      rewrite Z.sub_0_r. unfold vec_at. by rewrite decide_True by lia.
Qed.

(** X5.  Serialising and reloading.  For a graph the host can make,
    replaying the output of [get_graph_data] into a fresh engine of
    [len(ranks)] nodes (one [add_ch_edge] per tuple, one [set_rank] per
    rank) runs without an out-of-range access and gives an engine with
    the same node count, the same [adj_out], the same ranks, rows of
    [adj_in] that hold the same entries up to their order, and every
    contracted flag cleared; serialising that engine gives the same
    data again. *)
Theorem reload_round_trip g :
  reachable g →
  ∃ g', reload (get_graph_data g) = Returns g'
    ∧ reachable g'
    ∧ num_nodes g' = num_nodes g
    ∧ adj_out g' = adj_out g
    ∧ rank g' = rank g
    ∧ (∀ v, in_edges g' v ≡ₚ in_edges g v)
    ∧ (∀ x, is_contracted g' x = false)
    ∧ get_graph_data g' = get_graph_data g.
Proof.
  intros Hreach.
  destruct (reload_spec g Hreach) as (g' & Hload & Hreach' & Hn & Hout & Hrank & Hflags).
  exists g'. split_and!; try done.
  - intros v. apply in_edges_of_out; [| |done]; by apply reachable_mirrored.
  - intros x. unfold is_contracted, vec_at. rewrite Hflags. case_decide; [|done].
    destruct (replicate _ _ !! _) as [y|] eqn:Hy; [|done].
    by apply lookup_replicate in Hy as [-> _].
  - unfold get_graph_data. rewrite Hrank, Hn. f_equal.
    unfold out_edges. by rewrite Hout.
Qed.

Lemma reload_round_trip_witness :
  reachable diamond_built
  ∧ ∃ g', reload (get_graph_data diamond_built) = Returns g'
      ∧ reachable g'
      ∧ num_nodes g' = num_nodes diamond_built
      ∧ adj_out g' = adj_out diamond_built
      ∧ rank g' = rank diamond_built
      ∧ (∀ v, in_edges g' v ≡ₚ in_edges diamond_built v)
      ∧ (∀ x, is_contracted g' x = false)
      ∧ get_graph_data g' = get_graph_data diamond_built.
Proof.
  assert (reachable diamond_built) as Hr.
  { apply (reachable_build_ch diamond_base diamond_order); [|vm_compute; reflexivity].
    apply (reachable_add_edges diamond_edges (CHGraph_new 4)); [|vm_compute; reflexivity].
    apply reachable_new. unfold int_max. lia. }
  split; [exact Hr|]. exact (reload_round_trip diamond_built Hr).
Defined.

(** ** Queries on equivalent engines *)

Lemma is_walk_ext (adj adj' : Z → list Edge) es : ∀ u v,
  (∀ x e, e ∈ adj x → e ∈ adj' x) → is_walk adj u es v → is_walk adj' u es v.
Proof.
  induction es as [|e es IH]; intros u v Hsub; simpl; [done|].
  intros [He Hw]. split; [by apply Hsub|by apply IH].
Qed.

Lemma reaches_ext g g' (adj adj' : Z → list Edge) s x d :
  (∀ y, rank_of g' y = rank_of g y) →
  (∀ y e, e ∈ adj y → e ∈ adj' y) →
  reaches g adj s x d → reaches g' adj' s x d.
Proof.
  intros Hrank Hsub (es & [Hw Ha] & Hd). exists es. split; [split|done].
  - by eapply is_walk_ext.
  - apply (ascending_ext adj (rank_of g) (rank_of g') (λ _, True) es s x); try done.
Qed.

Lemma meets_ext g g' s t m :
  same_network g g' →
  meets g (out_edges g) s (in_edges g) t m → meets g' (out_edges g') s (in_edges g') t m.
Proof.
  intros (_ & Hout & Hin & Hrank) (x & a & b & Ha & Hb & ->). exists x, a, b.
  split_and!; [| |done].
  - eapply reaches_ext; [exact Hrank| |exact Ha]. intros y e. apply Hout.
  - eapply reaches_ext; [exact Hrank| |exact Hb]. intros y e. apply Hin.
Qed.

Lemma same_network_sym g g' : same_network g g' → same_network g' g.
Proof.
  intros (Hn & Hout & Hin & Hrank). split_and!; [done|..].
  - intros u e. by rewrite Hout.
  - intros v e. by rewrite Hin.
  - intros x. by rewrite Hrank.
Qed.

(** The searches of two equivalent engines end with the same [mu], and
    both or neither with a meeting node. *)
Lemma query_search_same g g' s t fuel fuel' fwd bwd mu meet_node fwd' bwd' mu' meet_node' :
  wf g → wf g' → nonneg g → same_network g g' →
  node_of g s → node_of g t → s ≠ t →
  query_search fuel g s t = Some (fwd, bwd, mu, meet_node) →
  query_search fuel' g' s t = Some (fwd', bwd', mu', meet_node') →
  mu' = mu ∧ (meet_node' = -1 ↔ meet_node = -1).
Proof.
  intros Hwf Hwf' Hnn Hsame Hs Ht Hst Hq Hq'.
  assert (nonneg g') as Hnn'.
  { destruct Hsame as (_ & Hout & Hin & _). destruct Hnn as [Hno Hni]. split.
    - intros u e He%Hout. by eapply Hno.
    - intros v e He%Hin. by eapply Hni. }
  assert (node_of g' s ∧ node_of g' t) as [Hs' Ht'].
  { destruct Hsame as (Hn & _). unfold node_of. by rewrite Hn. }
  destruct (query_search_minimal g _ s t _ _ _ _ Hwf Hnn Hs Ht Hst Hq)
    as (Hmin & Hsound & Hnone).
  destruct (query_search_minimal g' _ s t _ _ _ _ Hwf' Hnn' Hs' Ht' Hst Hq')
    as (Hmin' & Hsound' & Hnone').
  pose proof (same_network_sym _ _ Hsame) as Hsame'.
  assert (mu' = mu) as Hmu.
  { destruct mu as [a|], mu' as [b|]; [| | |done].
    - destruct (Hsound a eq_refl) as [Ha _]. destruct (Hsound' b eq_refl) as [Hb _].
      apply (meets_ext g g') in Ha; [|done]. apply (meets_ext g' g) in Hb; [|done].
      destruct (Hmin' a Ha) as (b' & [= <-] & ?).
      destruct (Hmin b Hb) as (a' & [= <-] & ?). f_equal. lia.
    - destruct (Hsound a eq_refl) as [Ha _]. apply (meets_ext g g') in Ha; [|done].
      by destruct (Hmin' a Ha) as (b' & ? & _).
    - destruct (Hsound' b eq_refl) as [Hb _]. apply (meets_ext g' g) in Hb; [|done].
      by destruct (Hmin b Hb) as (a' & ? & _). }
  split; [done|]. subst mu'.
  destruct mu as [a|].
  - destruct (Hsound a eq_refl) as [_ ?]. destruct (Hsound' a eq_refl) as [_ ?]. tauto.
  - rewrite (Hnone eq_refl), (Hnone' eq_refl). tauto.
Qed.

Lemma query_same_distance lvl lvl' g g' s t :
  wf g → wf g' → nonneg g → via_below lvl g → via_below lvl' g' →
  same_network g g' → s ≠ t →
  ∃ path path' d,
    (∀ fuel, (query_fuel lvl g s t ≤ fuel)%nat → query fuel g s t = Some (path, d))
    ∧ (∀ fuel, (query_fuel lvl' g' s t ≤ fuel)%nat → query fuel g' s t = Some (path', d))
    ∧ (path = [] ↔ path' = []).
Proof.
  intros Hwf Hwf' Hnn Hvia Hvia' Hsame Hst.
  assert (node_of g' s ∧ node_of g' t ↔ node_of g s ∧ node_of g t) as Hnodes.
  { destruct Hsame as (Hn & _). unfold node_of. by rewrite Hn. }
  destruct (query_result lvl g s t Hwf Hvia) as (path & d & Hq & Hcase).
  destruct (query_result lvl' g' s t Hwf' Hvia') as (path' & d' & Hq' & Hcase').
  exists path, path', d.
  cut (d' = d ∧ (path = [] ↔ path' = [])).
  { intros [-> ?]. by split_and!. }
  destruct Hcase as [(-> & -> & Hwhy)
                    |(fwd & bwd & mu & meet & Hs & Ht & Hmeet & -> & Hsearch & _ & Hne)];
    destruct Hcase' as [(-> & -> & Hwhy')
                       |(fwd' & bwd' & mu' & meet' & Hs' & Ht' & Hmeet' & -> & Hsearch'
                         & _ & Hne')].
  - done.
  - exfalso. destruct Hwhy as [Hout|(fwd & bwd & mu & Hsearch)]; [tauto|].
    destruct Hnodes as [[Hs Ht] _]; [done|].
    destruct (query_search_same g g' s t _ _ _ _ _ _ _ _ _ _ Hwf Hwf' Hnn Hsame Hs Ht Hst
                Hsearch Hsearch') as [_ Hiff]. tauto.
  - exfalso. destruct Hwhy' as [Hout|(fwd' & bwd' & mu' & Hsearch')]; [tauto|].
    destruct (query_search_same g g' s t _ _ _ _ _ _ _ _ _ _ Hwf Hwf' Hnn Hsame Hs Ht Hst
                Hsearch Hsearch') as [_ Hiff]. tauto.
  - destruct (query_search_same g g' s t _ _ _ _ _ _ _ _ _ _ Hwf Hwf' Hnn Hsame Hs Ht Hst
                Hsearch Hsearch') as [-> _]. split; [done|]. split; intros ?; done.
Qed.

Lemma nonneg_contract_node g node : wf g → nonneg g → nonneg (contract_node g node).1.
Proof.
  intros Hwf Hnn.
  cut (wf (contract_node g node).1 ∧ num_nodes (contract_node g node).1 = num_nodes g
       ∧ nonneg (contract_node g node).1); [tauto|].
  apply (contract_node_inv (λ g' _, wf g' ∧ num_nodes g' = num_nodes g ∧ nonneg g')).
  - split_and!; [by apply wf_mark_contracted|done|by apply nonneg_mark_contracted].
  - intros g' a ie oe hop (Hwf' & Hn & Hnn') Hie _ Hoe _ _ _ _.
    assert (node_of g' (target ie)).
    { unfold node_of. rewrite Hn. by eapply (wf_in_target g). }
    assert (node_of g' (target oe)).
    { unfold node_of. rewrite Hn. by eapply (wf_out_target g). }
    split_and!; [by apply wf_push_edge|done|].
    apply nonneg_push_edge; try done.
    destruct Hnn as [Hno Hni]. apply Hni in Hie. apply Hno in Hoe.
    by apply dadd_nonneg.
Qed.

Lemma nonneg_build_loop nodes : ∀ g r g',
  wf g → nonneg g → build_loop g r nodes = Returns g' → nonneg g'.
Proof.
  induction nodes as [|node rest IH]; intros g r g' Hwf Hnn; simpl.
  - by intros [= <-].
  - case_decide; [|done]. apply IH.
    + by apply wf_contract_node, wf_with_rank.
    + apply nonneg_contract_node; [by apply wf_with_rank|]. destruct Hnn. by split.
Qed.

(** X6.  A reloaded engine answers like the one it was saved from.  For
    a graph made of base edges with non-negative weights and built over
    any ordering, the engine obtained by replaying [get_graph_data] into
    a fresh engine returns, for two distinct nodes [s] and [t], the
    same distance as the built engine, and an empty path exactly when
    the built engine returns one. *)
Theorem reload_query_equivalent n es order g0 g s t :
  0 ≤ n ≤ int_max → Forall (λ e : Z * Z * Z, 0 ≤ e.2) es →
  add_edges (CHGraph_new n) es = Returns g0 →
  build_ch g0 order = Returns g →
  s ≠ t →
  ∃ g' path path' d,
    reload (get_graph_data g) = Returns g'
    ∧ (∀ fuel, (query_fuel (λ x, first_index x order) g s t ≤ fuel)%nat →
               query fuel g s t = Some (path, d))
    ∧ (∀ fuel, (query_fuel (λ x, first_index x order) g' s t ≤ fuel)%nat →
               query fuel g' s t = Some (path', d))
    ∧ (path = [] ↔ path' = []).
Proof.
  intros Hn Hweights Hes Hb Hst.
  destruct (built_graph n es order g0 g Hn Hes Hb) as (Hwf & Hmir & Hvia & _).
  assert (reachable g) as Hreach.
  { eapply reachable_build_ch; [|exact Hb].
    eapply reachable_add_edges; [|exact Hes]. by apply reachable_new. }
  assert (nonneg g) as Hnn.
  { eapply nonneg_build_loop; [| |exact Hb].
    - apply wf_with_order. eapply wf_add_edges; [|exact Hes]. by apply wf_new.
    - assert (nonneg g0) as [? ?]; [|by split].
      eapply nonneg_add_edges; [| | |exact Hes]; [by apply wf_new|apply nonneg_new|done]. }
  destruct (reload_spec g Hreach) as (g' & Hload & Hreach' & Hn' & Hout & Hrank & _).
  assert (same_network g g') as Hsame.
  { split_and!; [done|..].
    - intros u e. unfold out_edges. by rewrite Hout.
    - intros v e.
      rewrite (in_edges_of_out g g' v); [done|done|by apply reachable_mirrored|done].
    - intros x. unfold rank_of. by rewrite Hrank. }
  assert (via_below (λ x, first_index x order) g') as Hvia'.
  { intros u e He. apply Hvia. by apply Hsame. }
  destruct (query_same_distance _ _ g g' s t Hwf (reachable_wf _ Hreach') Hnn Hvia Hvia'
              Hsame Hst) as (path & path' & d & Hq & Hq' & Hiff).
  by exists g', path, path', d.
Qed.

Lemma reload_query_equivalent_witness :
  0 ≤ 4 ≤ int_max
  ∧ Forall (λ e : Z * Z * Z, 0 ≤ e.2) diamond_edges
  ∧ add_edges (CHGraph_new 4) diamond_edges = Returns diamond_base
  ∧ build_ch diamond_base diamond_order = Returns diamond_built
  ∧ 0 ≠ 3
  ∧ ∃ g' path path' d,
      reload (get_graph_data diamond_built) = Returns g'
      ∧ (∀ fuel, (query_fuel (λ x, first_index x diamond_order) diamond_built 0 3 ≤ fuel)%nat →
                 query fuel diamond_built 0 3 = Some (path, d))
      ∧ (∀ fuel, (query_fuel (λ x, first_index x diamond_order) g' 0 3 ≤ fuel)%nat →
                 query fuel g' 0 3 = Some (path', d))
      ∧ (path = [] ↔ path' = []).
Proof.
  assert (0 ≤ 4 ≤ int_max) as Hn by (unfold int_max; lia).
  assert (Forall (λ e : Z * Z * Z, 0 ≤ e.2) diamond_edges) as Hweights
    by (repeat constructor; simpl; lia).
  assert (add_edges (CHGraph_new 4) diamond_edges = Returns diamond_base) as Hes
    by (vm_compute; reflexivity).
  assert (build_ch diamond_base diamond_order = Returns diamond_built) as Hb
    by (vm_compute; reflexivity).
  assert (0 ≠ 3) as Hst by lia.
  split_and!; [lia|lia|exact Hweights|exact Hes|exact Hb|exact Hst|].
  exact (reload_query_equivalent 4 diamond_edges diamond_order diamond_base diamond_built
           0 3 Hn Hweights Hes Hb Hst).
Defined.

(** ** Termination of the witness search *)

Lemma witness_loop_more_fuel fuel : ∀ g v max_dist exclude_node hop_limit q b fuel',
  witness_loop fuel g v max_dist exclude_node hop_limit q = Some b → (fuel ≤ fuel')%nat →
  witness_loop fuel' g v max_dist exclude_node hop_limit q = Some b.
Proof.
  induction fuel as [|fuel IH]; intros g v max_dist exclude_node hop_limit q b fuel';
    simpl; [done|].
  intros Hw Hle. destruct fuel' as [|fuel']; [lia|]. simpl.
  destruct q as [|[[d curr] h] q']; [done|].
  repeat case_decide; try done; (apply IH; [done|lia]).
Qed.

(** X7.  The loop of [witness_search] ends.  For every graph and all
    arguments (cycles, weights of any sign, any hop limit), the
    [while (!pq.empty())] loop started from the queue [{0, u, 0}] ends
    with a result after at most [witness_fuel] iterations, the hop
    counter bounding the entries that can ever be pushed; and
    [witness_search] answers [true] exactly when [u] has an edge to [v]
    of weight at most [max_dist] or the loop ends with [true]. *)
Theorem witness_search_terminates g u v max_dist exclude_node hop_limit :
  ∃ b,
    (∀ fuel, (witness_fuel g hop_limit ≤ fuel)%nat →
             witness_loop fuel g v max_dist exclude_node hop_limit [(0, u, 0)] = Some b)
    ∧ (witness_search g u v max_dist exclude_node hop_limit = true
       ↔ (∃ e, e ∈ out_edges g u ∧ target e = v ∧ weight e ≤ max_dist) ∨ b = true).
Proof.
  destruct (witness_search_loop g u v max_dist exclude_node hop_limit) as [b Hb].
  exists b. split.
  - intros fuel Hfuel. by eapply witness_loop_more_fuel.
  - unfold witness_search. rewrite Hb.
    destruct (existsb _ (out_edges g u)) eqn:Hex.
    + split; [|done]. intros _. left.
      apply existsb_exists in Hex as (e & He%list_elem_of_In & Hte).
      apply andb_true_iff in Hte as [Ht%bool_decide_eq_true Hw%bool_decide_eq_true].
      by exists e.
    + split; [by right|]. intros [(e & He & Ht & Hw)|Hb']; [|done].
      exfalso. apply not_true_iff_false in Hex. apply Hex.
      apply existsb_exists. exists e. split; [by apply list_elem_of_In|].
      apply andb_true_iff. by rewrite !bool_decide_eq_true.
Qed.

(** ** Where [build_ch] is defined *)

Lemma build_loop_undefined nodes : ∀ g r,
  wf g → r + Z.of_nat (length nodes) ≤ int_max →
  ¬ Forall (node_of g) nodes → build_loop g r nodes = Undefined.
Proof.
  induction nodes as [|node rest IH]; intros g r Hwf Hr Hnot; simpl.
  - by destruct Hnot.
  - rewrite length_cons, Nat2Z.inj_succ in Hr.
    case_decide as Hd; [|done]. destruct Hd as (Hnode & _ & _).
    apply (node_of_in_vec g (rank g)) in Hnode; [|apply Hwf].
    apply IH.
    + by apply wf_contract_node, wf_with_rank.
    + lia.
    + intros Hall. apply Hnot. constructor; [done|].
      eapply Forall_impl; [exact Hall|]. intros x. unfold node_of.
      by destruct (contract_node_fields (with_rank g node r) node) as (-> & _).
Qed.

(** X8.  Where [build_ch] is defined.  On a well-formed graph and for an
    ordering of at most [INT_MAX] entries, [build_ch(order)] returns
    when every entry of the ordering is a node index in [[0, N)]; when
    some entry is not, the write [rank[node]] is outside the vector:
    the call is undefined behaviour, and in no case does it report an
    error. *)
Theorem build_ch_defined g order :
  wf g → Z.of_nat (length order) ≤ int_max →
  (Forall (node_of g) order → ∃ g', build_ch g order = Returns g')
  ∧ (¬ Forall (node_of g) order → build_ch g order = Undefined)
  ∧ (∀ e, build_ch g order ≠ Raises e).
Proof.
  intros Hwf Hlen.
  assert (Forall (node_of g) order → ∃ g', build_ch g order = Returns g') as Hret.
  { intros Hall. apply build_loop_returns; [by apply wf_with_order|done|lia]. }
  assert (¬ Forall (node_of g) order → build_ch g order = Undefined) as Hundef.
  { intros Hnot. apply build_loop_undefined; [by apply wf_with_order|lia|done]. }
  split_and!; [done|done|].
  intros e. destruct (decide (Forall (node_of g) order)) as [Hall|Hnot].
  - destruct (Hret Hall) as [g' ->]. done.
  - by rewrite (Hundef Hnot).
Qed.

Lemma build_ch_defined_witness :
  wf (CHGraph_new 2) ∧ Z.of_nat (length [0; 5]) ≤ int_max
  ∧ ¬ Forall (node_of (CHGraph_new 2)) [0; 5]
  ∧ build_ch (CHGraph_new 2) [0; 5] = Undefined.
Proof.
  assert (wf (CHGraph_new 2)) as Hwf by (apply wf_new; unfold int_max; lia).
  assert (Z.of_nat (length [0; 5]) ≤ int_max) as Hlen by (unfold int_max; simpl; lia).
  assert (¬ Forall (node_of (CHGraph_new 2)) [0; 5]) as Hnot.
  { intros Hall. apply Forall_cons in Hall as [_ Hall].
    apply Forall_cons in Hall as [H5 _]. unfold node_of in H5. simpl in H5. lia. }
  split_and!; [exact Hwf|exact Hlen|exact Hnot|].
  exact (proj1 (proj2 (build_ch_defined (CHGraph_new 2) [0; 5] Hwf Hlen)) Hnot).
Defined.

(** ** What [unpack] appends *)

(** X9.  [unpack(u, v, path)] only appends to the path, it appends at
    least one node, and the last node it appends is [v]: whatever the
    shortcuts of the graph are, the recursion ends each branch with the
    target it was called for. *)
Theorem unpack_appends fuel : ∀ g u v path path',
  unpack fuel g u v path = Some path' →
  ∃ k, path' = path ++ k ∧ last k = Some v.
Proof.
  induction fuel as [|fuel IH]; intros g u v path path'; simpl; [done|].
  destruct (List.find (is_packed v) (out_edges g u)) as [e|].
  - destruct (unpack fuel g u (via_node e) path) as [path1|] eqn:Hu1; [|done].
    intros Hu2. apply IH in Hu1 as (k1 & -> & _). apply IH in Hu2 as (k2 & -> & Hl).
    exists (k1 ++ k2). split; [by rewrite app_assoc|].
    destruct k2 as [|x k2 _] using rev_ind; [done|].
    rewrite app_assoc, last_snoc. by rewrite last_snoc in Hl.
  - intros [= <-]. by exists [v].
Qed.

Lemma unpack_appends_witness :
  unpack 5 diamond_built 0 3 [0] = Some [0; 1; 3]
  ∧ ∃ k, [0; 1; 3] = [0] ++ k ∧ last k = Some 3.
Proof.
  assert (unpack 5 diamond_built 0 3 [0] = Some [0; 1; 3]) as Hu
    by (vm_compute; reflexivity).
  split; [exact Hu|].
  exact (unpack_appends 5 diamond_built 0 3 [0] [0; 1; 3] Hu).
Defined.

(** ** The search trees go up in rank *)

(** X10.  Rank monotonicity of the two searches.  On a well-formed graph
    and for in-range [s] and [t], the search of [query(s, t)] ends, and
    in its final state every node other than [s] that the forward
    search has reached has, as its recorded parent, a reached node of
    strictly lower rank with an edge to it; every node other than [t]
    that the backward search has reached has, as its recorded parent,
    a reached node of strictly lower rank that it has an edge to (the
    parent's row of [adj_in] holds the entry).  So ranks strictly
    decrease from the meeting node back to [s] and on to [t]. *)
Theorem search_parents_upward lvl g s t :
  wf g → node_of g s → node_of g t →
  ∃ fwd bwd mu meet_node,
    (∀ fuel, (query_fuel lvl g s t ≤ fuel)%nat →
             query_search fuel g s t = Some (fwd, bwd, mu, meet_node))
    ∧ (∀ x, x ≠ s → is_fin (dist_at (dist fwd) x) →
            rank_of g (parent_at (parent fwd) x) < rank_of g x
            ∧ is_fin (dist_at (dist fwd) (parent_at (parent fwd) x))
            ∧ ∃ e, e ∈ out_edges g (parent_at (parent fwd) x) ∧ target e = x)
    ∧ (∀ x, x ≠ t → is_fin (dist_at (dist bwd) x) →
            rank_of g (parent_at (parent bwd) x) < rank_of g x
            ∧ is_fin (dist_at (dist bwd) (parent_at (parent bwd) x))
            ∧ ∃ e, e ∈ in_edges g (parent_at (parent bwd) x) ∧ target e = x).
Proof.
  intros Hwf Hs Ht.
  destruct (query_search_returns lvl g s t Hwf) as [[[[fwd bwd] mu] meet_node] Hfinal].
  pose proof (Hfinal _ (Nat.le_refl _)) as Hsearch.
  destruct (query_search_pair_ok g _ s t fwd bwd mu meet_node Hwf Hs Ht Hsearch)
    as ([Hf Hb _] & _ & _).
  destruct (query_search_parents g _ s t fwd bwd mu meet_node Hwf Hs Ht Hsearch)
    as [Hpf Hpb].
  exists fwd, bwd, mu, meet_node. split_and!; [done|..].
  - intros x Hx Hfin.
    destruct (ok_parent _ _ _ _ Hf x Hx Hfin) as (_ & Hrank & Hfin').
    split_and!; [done|done|by apply Hpf].
  - intros x Hx Hfin.
    destruct (ok_parent _ _ _ _ Hb x Hx Hfin) as (_ & Hrank & Hfin').
    split_and!; [done|done|by apply Hpb].
Qed.

Lemma search_parents_upward_witness :
  wf diamond_built ∧ node_of diamond_built 0 ∧ node_of diamond_built 3
  ∧ ∃ fwd bwd mu meet_node,
      (∀ fuel, (query_fuel (λ _, O) diamond_built 0 3 ≤ fuel)%nat →
               query_search fuel diamond_built 0 3 = Some (fwd, bwd, mu, meet_node))
      ∧ (∀ x, x ≠ 0 → is_fin (dist_at (dist fwd) x) →
              rank_of diamond_built (parent_at (parent fwd) x) < rank_of diamond_built x
              ∧ is_fin (dist_at (dist fwd) (parent_at (parent fwd) x))
              ∧ ∃ e, e ∈ out_edges diamond_built (parent_at (parent fwd) x) ∧ target e = x)
      ∧ (∀ x, x ≠ 3 → is_fin (dist_at (dist bwd) x) →
              rank_of diamond_built (parent_at (parent bwd) x) < rank_of diamond_built x
              ∧ is_fin (dist_at (dist bwd) (parent_at (parent bwd) x))
              ∧ ∃ e, e ∈ in_edges diamond_built (parent_at (parent bwd) x) ∧ target e = x).
Proof.
  assert (wf diamond_built) as Hwf.
  { apply (wf_make 4 diamond_edges diamond_order); [unfold int_max; lia|].
    vm_compute. reflexivity. }
  assert (node_of diamond_built 0) as Hs by (vm_compute; split; [discriminate|reflexivity]).
  assert (node_of diamond_built 3) as Ht by (vm_compute; split; [discriminate|reflexivity]).
  split_and!; [exact Hwf|exact Hs|exact Ht|].
  exact (search_parents_upward (λ _, O) diamond_built 0 3 Hwf Hs Ht).
Defined.

(** ** The tuples of [get_graph_data] *)

Lemma filter_edge_tuples u a es :
  List.filter (λ t : Z * Z * Z * bool * Z, bool_decide (t.1.1.1.1 = u)) (edge_tuple a <$> es)
  = if decide (a = u) then edge_tuple u <$> es else [].
Proof.
  induction es as [|e es IH]; [by case_decide|].
  rewrite fmap_cons. simpl. rewrite IH.
  destruct (decide (a = u)) as [->|Ha].
  - by rewrite bool_decide_eq_true_2.
  - by rewrite bool_decide_eq_false_2.
Qed.

Lemma filter_flat_tuples g u us :
  NoDup us →
  List.filter (λ t : Z * Z * Z * bool * Z, bool_decide (t.1.1.1.1 = u))
    (flat_map (λ a, edge_tuple a <$> out_edges g a) us)
  = if decide (u ∈ us) then edge_tuple u <$> out_edges g u else [].
Proof.
  induction us as [|a us IH]; intros Hnd.
  - destruct (decide (u ∈ [])) as [H|H]; [by apply elem_of_nil in H|done].
  - apply NoDup_cons in Hnd as [Ha Hnd]. simpl.
    rewrite List.filter_app, filter_edge_tuples, (IH Hnd).
    destruct (decide (a = u)) as [->|Hne].
    + rewrite decide_False by done. rewrite decide_True by (by left).
      by rewrite app_nil_r.
    + simpl. destruct (decide (u ∈ us)) as [Hin|Hin].
      * rewrite decide_True; [done|]. by right.
      * rewrite decide_False; [done|]. intros [?|?]%elem_of_cons; [by apply Hne|done].
Qed.

(** X11.  The tuples of [get_graph_data].  On a well-formed graph, the
    tuples of ["edges"] whose first component is [u] are, in their
    order and with their multiplicities, the entries of the row of [u]
    in [adj_out], each with its target, weight, shortcut flag and via
    node; so every entry of [adj_out] is emitted once and nothing else
    is, and [adj_in], the contracted flags and the node ordering are
    not part of the data. *)
Theorem get_graph_data_rows g u :
  wf g →
  List.filter (λ t : Z * Z * Z * bool * Z, bool_decide (t.1.1.1.1 = u))
    (edges (get_graph_data g))
  = edge_tuple u <$> out_edges g u.
Proof.
  intros Hwf. unfold get_graph_data. cbn [edges].
  rewrite filter_flat_tuples by apply NoDup_seqZ.
  case_decide as Hu; [done|].
  rewrite (out_edges_outside g u Hwf); [done|].
  intros Hnode. apply Hu. apply elem_of_seqZ. unfold node_of in Hnode. lia.
Qed.

Lemma get_graph_data_rows_witness :
  wf diamond_built
  ∧ List.filter (λ t : Z * Z * Z * bool * Z, bool_decide (t.1.1.1.1 = 0))
      (edges (get_graph_data diamond_built))
    = edge_tuple 0 <$> out_edges diamond_built 0.
Proof.
  assert (wf diamond_built) as Hwf.
  { apply (wf_make 4 diamond_edges diamond_order); [unfold int_max; lia|].
    vm_compute. reflexivity. }
  split; [exact Hwf|]. exact (get_graph_data_rows diamond_built 0 Hwf).
Defined.

(** ** [set_rank] inside the range *)

(** X12.  [set_rank(u, r)] with [u] in [[0, N)] on a well-formed graph
    returns a graph in which the rank of [u] is [r]; the rank of every
    other node, both adjacency vectors, the contracted flags and the
    node count are what they were. *)
Theorem set_rank_in_range g u r :
  wf g → node_of g u →
  ∃ g', set_rank g u r = Returns g'
    ∧ rank_of g' u = r
    ∧ (∀ x, x ≠ u → rank_of g' x = rank_of g x)
    ∧ length (rank g') = length (rank g)
    ∧ adj_out g' = adj_out g ∧ adj_in g' = adj_in g
    ∧ contracted g' = contracted g ∧ num_nodes g' = num_nodes g.
Proof.
  intros Hwf Hu. exists (with_rank g u r). unfold set_rank.
  rewrite decide_True by (unfold node_of in Hu; lia).
  split_and!; try done.
  - unfold rank_of. simpl. apply vec_at_set_eq.
    by apply (node_of_in_vec g (rank g)); [apply Hwf|].
  - intros x Hx. unfold rank_of. simpl. by apply vec_at_set_ne.
  - simpl. apply length_vec_set.
Qed.

Lemma set_rank_in_range_witness :
  wf (CHGraph_new 3) ∧ node_of (CHGraph_new 3) 1
  ∧ ∃ g', set_rank (CHGraph_new 3) 1 7 = Returns g'
      ∧ rank_of g' 1 = 7
      ∧ (∀ x, x ≠ 1 → rank_of g' x = rank_of (CHGraph_new 3) x)
      ∧ length (rank g') = length (rank (CHGraph_new 3))
      ∧ adj_out g' = adj_out (CHGraph_new 3) ∧ adj_in g' = adj_in (CHGraph_new 3)
      ∧ contracted g' = contracted (CHGraph_new 3)
      ∧ num_nodes g' = num_nodes (CHGraph_new 3).
Proof.
  assert (wf (CHGraph_new 3)) as Hwf by (apply wf_new; unfold int_max; lia).
  assert (node_of (CHGraph_new 3) 1) as Hu by (unfold node_of; simpl; lia).
  split_and!; [exact Hwf|exact Hu|].
  exact (set_rank_in_range (CHGraph_new 3) 1 7 Hwf Hu).
Defined.

(** ** Orderings that repeat a node *)

Lemma build_loop_frame nodes : ∀ g r g',
  build_loop g r nodes = Returns g' →
  ∀ x, x ∉ nodes → rank_of g' x = rank_of g x ∧ is_contracted g' x = is_contracted g x.
Proof.
  induction nodes as [|node rest IH]; intros g r g'; simpl.
  - by intros [= <-].
  - case_decide; [|done]. intros Hb x [Hne Hx]%not_elem_of_cons.
    destruct (IH _ _ _ Hb x Hx) as [-> ->].
    rewrite rank_of_contract_with_rank, is_contracted_contract_with_rank.
    rewrite !decide_False; [done|..]; intros [? _]; by apply Hne.
Qed.

Lemma build_loop_flags nodes : ∀ g r g',
  build_loop g r nodes = Returns g' →
  ∀ x, is_contracted g x = true → is_contracted g' x = true.
Proof.
  induction nodes as [|node rest IH]; intros g r g'; simpl.
  - by intros [= <-].
  - case_decide; [|done]. intros Hb x Hx. apply (IH _ _ _ Hb).
    rewrite is_contracted_contract_with_rank. by case_decide.
Qed.

(** X13.  Orderings that repeat a node.  Whenever [build_ch(order)]
    returns, whether or not the ordering lists a node more than once,
    the rank of a node of the ordering is the position of its last
    occurrence (counted from 0), every node of the ordering is marked
    contracted, and a node that is not in the ordering keeps its rank
    and its flag. *)
Theorem build_ch_last_rank g order g' :
  build_ch g order = Returns g' →
  (∀ done x rest, order = done ++ x :: rest → x ∉ rest →
                  rank_of g' x = Z.of_nat (length done))
  ∧ (∀ x, x ∈ order → is_contracted g' x = true)
  ∧ (∀ x, x ∉ order →
          rank_of g' x = rank_of g x ∧ is_contracted g' x = is_contracted g x).
Proof.
  unfold build_ch. intros Hb.
  assert (∀ done x rest, order = done ++ x :: rest →
            ∃ gd, in_vec (rank gd) x ∧ in_vec (contracted gd) x
                  ∧ build_loop
                      (contract_node (with_rank gd x (Z.of_nat (length done))) x).1
                      (Z.of_nat (length done) + 1) rest = Returns g') as Hsplit.
  { intros done x rest Horder. rewrite Horder in Hb at 2.
    apply build_loop_prefix in Hb as (gd & _ & Hrest). simpl in Hrest.
    case_decide as Hd; [|done]. exists gd. by destruct Hd as (? & ? & _). }
  split_and!.
  - intros done x rest Horder Hx.
    destruct (Hsplit done x rest Horder) as (gd & Hr & _ & Hrest).
    destruct (build_loop_frame _ _ _ _ Hrest x Hx) as [-> _].
    rewrite rank_of_contract_with_rank. by rewrite decide_True.
  - intros x (done & rest & Horder)%list_elem_of_split.
    destruct (Hsplit done x rest Horder) as (gd & _ & Hc & Hrest).
    apply (build_loop_flags _ _ _ _ Hrest).
    rewrite is_contracted_contract_with_rank. by rewrite decide_True.
  - intros x Hx. by destruct (build_loop_frame _ _ _ _ Hb x Hx).
Qed.

Lemma build_ch_last_rank_witness :
  build_ch line_base [1; 0; 1] = Returns (graph_of (build_ch line_base [1; 0; 1]))
  ∧ rank_of (graph_of (build_ch line_base [1; 0; 1])) 1 = 2
  ∧ rank_of (graph_of (build_ch line_base [1; 0; 1])) 0 = 1.
Proof.
  assert (build_ch line_base [1; 0; 1] = Returns (graph_of (build_ch line_base [1; 0; 1])))
    as Hb by (vm_compute; reflexivity).
  split_and!; [exact Hb|..].
  - apply (proj1 (build_ch_last_rank _ _ _ Hb) [1; 0] 1 []); [reflexivity|].
    by intros ?%elem_of_nil.
  - apply (proj1 (build_ch_last_rank _ _ _ Hb) [1] 0 [1]); [reflexivity|].
    intros Hin%list_elem_of_singleton. discriminate Hin.
Defined.

(** ** What [add_edge] appends *)

(** X14.  [add_edge(u, v, w)] with [u] and [v] in [[0, N)] on a
    well-formed graph appends the entry [{v, w, false, -1}] at the end
    of the row of [u] in [adj_out] and the entry [{u, w, false, -1}] at
    the end of the row of [v] in [adj_in], and changes nothing else: an
    edge that is already there is not replaced or merged (parallel
    edges are kept), and any weight is accepted. *)
Theorem add_edge_appends g u v w :
  wf g → node_of g u → node_of g v →
  ∃ g', add_edge g u v w = Returns g'
    ∧ out_edges g' u = out_edges g u ++ [mkEdge v w false (-1)]
    ∧ in_edges g' v = in_edges g v ++ [mkEdge u w false (-1)]
    ∧ (∀ x, x ≠ u → out_edges g' x = out_edges g x)
    ∧ (∀ x, x ≠ v → in_edges g' x = in_edges g x)
    ∧ rank g' = rank g ∧ contracted g' = contracted g ∧ num_nodes g' = num_nodes g.
Proof.
  intros Hwf Hu Hv.
  assert (in_vec (adj_out g) u) as Hiu by (by apply (node_of_in_vec g), Hu; apply Hwf).
  assert (in_vec (adj_in g) v) as Hiv by (by apply (node_of_in_vec g), Hv; apply Hwf).
  exists (push_edge g u v w false (-1)). unfold add_edge, add_ch_edge.
  rewrite decide_True by done. split_and!; try done.
  - rewrite out_edges_push_edge. by rewrite decide_True.
  - rewrite in_edges_push_edge. by rewrite decide_True.
  - intros x Hx. rewrite out_edges_push_edge. rewrite decide_False; [done|].
    intros [? _]. by apply Hx.
  - intros x Hx. rewrite in_edges_push_edge. rewrite decide_False; [done|].
    intros [? _]. by apply Hx.
Qed.

Lemma add_edge_appends_witness :
  wf line_base ∧ node_of line_base 0 ∧ node_of line_base 1
  ∧ ∃ g', add_edge line_base 0 1 2000 = Returns g'
      ∧ out_edges g' 0 = out_edges line_base 0 ++ [mkEdge 1 2000 false (-1)]
      ∧ in_edges g' 1 = in_edges line_base 1 ++ [mkEdge 0 2000 false (-1)]
      ∧ (∀ x, x ≠ 0 → out_edges g' x = out_edges line_base x)
      ∧ (∀ x, x ≠ 1 → in_edges g' x = in_edges line_base x)
      ∧ rank g' = rank line_base ∧ contracted g' = contracted line_base
      ∧ num_nodes g' = num_nodes line_base.
Proof.
  assert (wf line_base) as Hwf.
  { apply (wf_add_edges line_edges (CHGraph_new 3)); [|vm_compute; reflexivity].
    apply wf_new. unfold int_max. lia. }
  assert (node_of line_base 0) as Hu by (vm_compute; split; [discriminate|reflexivity]).
  assert (node_of line_base 1) as Hv by (vm_compute; split; [discriminate|reflexivity]).
  split_and!; [exact Hwf|exact Hu|exact Hv|].
  exact (add_edge_appends line_base 0 1 2000 Hwf Hu Hv).
Defined.
